(** * atMap: the red-black tree map of ATLAS (src/container/atMap.c++)

    The C++ map is a graph of heap nodes linked by [leftChild],
    [rightChild] and [parent] pointers.  It is embedded here as it is
    written: a store of node records addressed by pointers, the map
    object ([treeRoot], [treeSize]) threaded through every call, and one
    definition per member function.  A second, purely functional layer
    (trees tagged with node addresses, and one-hole contexts for the
    [parent] chain) is then related to the store and carries the
    red-black arguments. *)

From Stdlib Require Import ZArith Lia.
From stdpp Require Import gmap list sorting.

Open Scope Z_scope.
Set Warnings "-clear-no-such-hyp".

(** ** Node and map records *)

(** Modelled from the spec: the header atMap.h++ is not part of the
    sources at hand; the two-valued colour tag of a node (spec, section 3). *)
Inductive atMapColor := AT_MAP_BLACK | AT_MAP_RED.

(** Modelled from the spec: the child-type codes of atMap.h++.  The code
    only compares them for equality; [AT_MAP_NOTACHILD] stands for the
    literal [-1] that [getChildType] returns on an inconsistent node. *)
Inductive atMapChildType :=
  AT_MAP_LEFTCHILD | AT_MAP_RIGHTCHILD | AT_MAP_ROOTNODE | AT_MAP_NOTACHILD.

(** [u_long] arithmetic: unsigned, 64 bits wide, wrapping around. *)
Definition u_long (z : Z) : Z := z mod 2 ^ 64.

(** Messages handed to [notify]. *)
Inductive atNotice :=
| WarnKeyCollision
| ErrGetSortedList (listed stated : Z)
| ErrRotateLeft
| ErrRotateRight
| ErrGetChildType.

#[global] Instance atMapColor_eq_dec : EqDecision atMapColor.
Proof. solve_decision. Defined.
#[global] Instance atMapChildType_eq_dec : EqDecision atMapChildType.
Proof. solve_decision. Defined.

(** ** Lists of addresses and of keys *)

(** No element of [l] is in [k]: [NoDup] facts about the address lists
    of trees and contexts are split into [x ≠ y], [x ∉ addrs t] and
    [sep (addrs t) (addrs t')]. *)
Definition sep {A} (l k : list A) : Prop := ∀ x, x ∈ l → x ∉ k.

(** [R] relates the elements at any two different positions of [l]. *)
Definition pairwise {A} (R : A → A → Prop) (l : list A) : Prop :=
  ∀ i j x y, l !! i = Some x → l !! j = Some y → i ≠ j → R x y.

Section Map.

(** Keys and values are [atItem]s.  Keys are only ever inspected through
    the two virtual methods [a->compare(b)] and [a->equals(b)]; values
    are never inspected. *)
Context {K V : Type}.
Variable compare : K → K → Z.
Variable equals : K → K → bool.

(** Modelled from the spec: [struct atMapNode] of atMap.h++ (spec,
    section 3: key, value, two child links, a parent back-link, a colour).
    A pointer is an optional address, [None] being [NULL]. *)
Record atMapNode := AtMapNode {
  leftChild : option positive;
  rightChild : option positive;
  parent : option positive;
  color : atMapColor;
  nodeKey : K;
  nodeValue : V
}.

Definition set_leftChild (p : option positive) (n : atMapNode) : atMapNode :=
  AtMapNode p (rightChild n) (parent n) (color n) (nodeKey n) (nodeValue n).
Definition set_rightChild (p : option positive) (n : atMapNode) : atMapNode :=
  AtMapNode (leftChild n) p (parent n) (color n) (nodeKey n) (nodeValue n).
Definition set_parent (p : option positive) (n : atMapNode) : atMapNode :=
  AtMapNode (leftChild n) (rightChild n) p (color n) (nodeKey n) (nodeValue n).
Definition set_color (c : atMapColor) (n : atMapNode) : atMapNode :=
  AtMapNode (leftChild n) (rightChild n) (parent n) c (nodeKey n) (nodeValue n).
Definition set_nodeKey (k : K) (n : atMapNode) : atMapNode :=
  AtMapNode (leftChild n) (rightChild n) (parent n) (color n) k (nodeValue n).
Definition set_nodeValue (v : V) (n : atMapNode) : atMapNode :=
  AtMapNode (leftChild n) (rightChild n) (parent n) (color n) (nodeKey n) v.

(** The map object together with the node storage it owns, the
    diagnostics it has emitted so far and the items it has destroyed with
    [delete] so far (most recent first in both).  [treeSize]
    is a [u_long], an integer in [0, 2^64). *)
Record atMap := AtMap {
  store : gmap positive atMapNode;
  treeRoot : option positive;
  treeSize : Z;
  notices : list atNotice;
  destroyed : list (K + V)
}.

(** [new atMapNode] returns some address that is not in use. *)
Variable new_address : gmap positive atMapNode → positive.

(** The pointer test [key != targetKey] on two key items: whether they
    are two different objects. *)
Variable different_object : K → K → bool.

(** ** Statements

    A member function is a state transformer that may fail: failure
    stands for a dereference of [NULL] or of a dangling pointer, or for
    an exhausted recursion budget. *)
Definition M (A : Type) : Type := atMap → option (A * atMap).

#[global] Instance M_ret : MRet M := λ A x m, Some (x, m).
#[global] Instance M_bind : MBind M := λ A B f c m,
  match c m with
  | Some (x, m') => f x m'
  | None => None
  end.

Definition abort {A} : M A := λ _, None.

(** [*p] *)
Definition load (p : positive) : M atMapNode := λ m,
  match store m !! p with
  | Some n => Some (n, m)
  | None => None
  end.

(** [p->field = ...] *)
Definition modify (p : positive) (f : atMapNode → atMapNode) : M unit := λ m,
  match store m !! p with
  | Some n => Some (tt, AtMap (<[p := f n]> (store m)) (treeRoot m) (treeSize m) (notices m) (destroyed m))
  | None => None
  end.

(** Use of a pointer that has to be non-[NULL]. *)
Definition deref (p : option positive) : M positive :=
  match p with
  | Some a => mret a
  | None => abort
  end.

Definition notify (d : atNotice) : M unit := λ m,
  Some (tt, AtMap (store m) (treeRoot m) (treeSize m) (d :: notices m) (destroyed m)).

Definition get_treeRoot : M (option positive) := λ m, Some (treeRoot m, m).
Definition put_treeRoot (p : option positive) : M unit := λ m,
  Some (tt, AtMap (store m) p (treeSize m) (notices m) (destroyed m)).
Definition get_treeSize : M Z := λ m, Some (treeSize m, m).
Definition put_treeSize (n : Z) : M unit := λ m,
  Some (tt, AtMap (store m) (treeRoot m) n (notices m) (destroyed m)).

(** [new atMapNode] followed by the initialisation of its fields. *)
Definition new_node (n : atMapNode) : M positive := λ m,
  let a := new_address (store m) in
  Some (a, AtMap (<[a := n]> (store m)) (treeRoot m) (treeSize m) (notices m) (destroyed m)).

(** [delete item] on a key or a value *)
Definition destroy (i : K + V) : M unit := λ m,
  Some (tt, AtMap (store m) (treeRoot m) (treeSize m) (notices m) (i :: destroyed m)).

(** [delete node] *)
Definition delete_node (p : positive) : M unit := λ m,
  Some (tt, AtMap (delete p (store m)) (treeRoot m) (treeSize m) (notices m) (destroyed m)).

(** The recursion budget of a call on map [m]: no chain of distinct
    nodes is longer than the number of nodes in the store. *)
Definition budget (m : atMap) : nat := S (size (store m)).

(** ** atMap::atMap *)
Definition atMap_new : atMap := AtMap ∅ None 0 [] [].

(** ** atMap::findNode *)
Fixpoint findNode (fuel : nat) (node : option positive) (key : K) : M (option positive) :=
  match fuel with
  | O => abort
  | S fuel =>
    match node with
    | None => mret None
    | Some a =>
      n ← load a;
      if equals (nodeKey n) key then mret (Some a)
      else if 0 <? compare key (nodeKey n)
           then findNode fuel (rightChild n) key
           else findNode fuel (leftChild n) key
    end
  end.

(** ** atMap::getChildType *)
Definition getChildType (node : positive) : M atMapChildType :=
  n ← load node;
  match parent n with
  | None => mret AT_MAP_ROOTNODE
  | Some pa =>
    p ← load pa;
    if decide (leftChild p = Some node) then mret AT_MAP_LEFTCHILD
    else if decide (rightChild p = Some node) then mret AT_MAP_RIGHTCHILD
    else notify ErrGetChildType;; mret AT_MAP_NOTACHILD
  end.

(** ** atMap::rotateLeft *)
Definition rotateLeft (node : positive) : M unit :=
  n ← load node;
  match rightChild n with
  | None => notify ErrRotateLeft
  | Some right_ =>
    let left_ := node in
    r ← load right_;
    let child := leftChild r in
    let parent_ := parent n in
    childType ← getChildType node;
    modify left_ (set_rightChild child);;
    modify left_ (set_parent (Some right_));;
    modify right_ (set_leftChild (Some left_));;
    modify right_ (set_parent parent_);;
    match child with
    | Some c => modify c (set_parent (Some left_))
    | None => mret tt
    end;;
    match childType with
    | AT_MAP_LEFTCHILD => p ← deref parent_; modify p (set_leftChild (Some right_))
    | AT_MAP_RIGHTCHILD => p ← deref parent_; modify p (set_rightChild (Some right_))
    | _ => put_treeRoot (Some right_)
    end
  end.

(** ** atMap::rotateRight *)
Definition rotateRight (node : positive) : M unit :=
  n ← load node;
  match leftChild n with
  | None => notify ErrRotateRight
  | Some left_ =>
    let right_ := node in
    l ← load left_;
    let child := rightChild l in
    let parent_ := parent n in
    childType ← getChildType node;
    modify right_ (set_leftChild child);;
    modify right_ (set_parent (Some left_));;
    modify left_ (set_rightChild (Some right_));;
    modify left_ (set_parent parent_);;
    match child with
    | Some c => modify c (set_parent (Some right_))
    | None => mret tt
    end;;
    match childType with
    | AT_MAP_LEFTCHILD => p ← deref parent_; modify p (set_leftChild (Some left_))
    | AT_MAP_RIGHTCHILD => p ← deref parent_; modify p (set_rightChild (Some left_))
    | _ => put_treeRoot (Some left_)
    end
  end.

(** [p == NULL || p->color == AT_MAP_BLACK] *)
Definition null_or_black (p : option positive) : M bool :=
  match p with
  | None => mret true
  | Some a => n ← load a; mret (bool_decide (color n = AT_MAP_BLACK))
  end.

(** [p && (p->color == AT_MAP_RED)] *)
Definition nonnull_and_red (p : option positive) : M bool :=
  match p with
  | None => mret false
  | Some a => n ← load a; mret (bool_decide (color n = AT_MAP_RED))
  end.

(** [p->color = c] *)
Definition paint (p : option positive) (c : atMapColor) : M unit :=
  a ← deref p; modify a (set_color c).

(** ** atMap::rebalanceInsert *)
Fixpoint rebalanceInsert (fuel : nat) (node : positive) : M unit :=
  match fuel with
  | O => abort
  | S fuel =>
    n ← load node;
    if decide (color n = AT_MAP_BLACK) then mret tt else
    match parent n with
    | None => mret tt
    | Some parent_ =>
      p ← load parent_;
      if decide (color p = AT_MAP_BLACK) then mret tt else
      match parent p with
      | None => mret tt
      | Some grandparent =>
        parentChildType ← getChildType parent_;
        g ← load grandparent;
        let uncle :=
          if decide (parentChildType = AT_MAP_LEFTCHILD)
          then rightChild g else leftChild g in
        uncleRed ← nonnull_and_red uncle;
        if uncleRed : bool then
          modify grandparent (set_color AT_MAP_RED);;
          modify parent_ (set_color AT_MAP_BLACK);;
          paint uncle AT_MAP_BLACK;;
          rebalanceInsert fuel grandparent
        else
          nodeChildType ← getChildType node;
          if decide (parentChildType = AT_MAP_LEFTCHILD) then
            parent' ←
              (if decide (nodeChildType = AT_MAP_RIGHTCHILD) then
                 rotateLeft parent_;;
                 let node' := parent_ in
                 n' ← load node';
                 mret (parent n')
               else mret (Some parent_));
            rotateRight grandparent;;
            paint parent' AT_MAP_BLACK;;
            modify grandparent (set_color AT_MAP_RED)
          else
            parent' ←
              (if decide (nodeChildType = AT_MAP_LEFTCHILD) then
                 rotateRight parent_;;
                 let node' := parent_ in
                 n' ← load node';
                 mret (parent n')
               else mret (Some parent_));
            rotateLeft grandparent;;
            paint parent' AT_MAP_BLACK;;
            modify grandparent (set_color AT_MAP_RED)
      end
    end
  end.

(** ** atMap::rebalanceDelete *)
Fixpoint rebalanceDelete (fuel : nat) (parent_ : option positive)
    (deletedChildType : atMapChildType) : M unit :=
  match fuel with
  | O => abort
  | S fuel =>
    if decide (deletedChildType = AT_MAP_ROOTNODE) then mret tt else
    pa ← deref parent_;
    p ← load pa;
    let child :=
      if decide (deletedChildType = AT_MAP_LEFTCHILD)
      then leftChild p else rightChild p in
    childRed ← nonnull_and_red child;
    if childRed : bool then paint child AT_MAP_BLACK else
    if decide (deletedChildType = AT_MAP_LEFTCHILD) then
      let sibling := rightChild p in
      sa ← deref sibling;
      s ← load sa;
      sibling ←
        (if decide (color s = AT_MAP_RED) then
           rotateLeft pa;;
           modify pa (set_color AT_MAP_RED);;
           modify sa (set_color AT_MAP_BLACK);;
           p ← load pa;
           mret (rightChild p)
         else mret sibling);
      sa ← deref sibling;
      s ← load sa;
      lb ← null_or_black (leftChild s);
      bothBlack ← (if lb : bool then null_or_black (rightChild s) else mret false);
      if bothBlack : bool then
        modify sa (set_color AT_MAP_RED);;
        p ← load pa;
        ct ← getChildType pa;
        rebalanceDelete fuel (parent p) ct
      else
        lr ← nonnull_and_red (leftChild s);
        sibling ←
          (if lr : bool then
             paint (leftChild s) AT_MAP_BLACK;;
             modify sa (set_color AT_MAP_RED);;
             rotateRight sa;;
             p ← load pa;
             mret (rightChild p)
           else mret sibling);
        rotateLeft pa;;
        p ← load pa;
        paint sibling (color p);;
        modify pa (set_color AT_MAP_BLACK);;
        sa ← deref sibling;
        s ← load sa;
        paint (rightChild s) AT_MAP_BLACK
    else
      let sibling := leftChild p in
      sa ← deref sibling;
      s ← load sa;
      sibling ←
        (if decide (color s = AT_MAP_RED) then
           rotateRight pa;;
           modify pa (set_color AT_MAP_RED);;
           modify sa (set_color AT_MAP_BLACK);;
           p ← load pa;
           mret (leftChild p)
         else mret sibling);
      sa ← deref sibling;
      s ← load sa;
      lb ← null_or_black (leftChild s);
      bothBlack ← (if lb : bool then null_or_black (rightChild s) else mret false);
      if bothBlack : bool then
        modify sa (set_color AT_MAP_RED);;
        p ← load pa;
        ct ← getChildType pa;
        rebalanceDelete fuel (parent p) ct
      else
        rr ← nonnull_and_red (rightChild s);
        sibling ←
          (if rr : bool then
             paint (rightChild s) AT_MAP_BLACK;;
             modify sa (set_color AT_MAP_RED);;
             rotateLeft sa;;
             p ← load pa;
             mret (leftChild p)
           else mret sibling);
        rotateRight pa;;
        p ← load pa;
        paint sibling (color p);;
        modify pa (set_color AT_MAP_BLACK);;
        sa ← deref sibling;
        s ← load sa;
        paint (leftChild s) AT_MAP_BLACK
  end.

(** ** atMap::getInorderSuccessor *)
Fixpoint leftmost (fuel : nat) (result : positive) : M positive :=
  match fuel with
  | O => abort
  | S fuel =>
    r ← load result;
    match leftChild r with
    | Some l => leftmost fuel l
    | None => mret result
    end
  end.

Definition getInorderSuccessor (fuel : nat) (node : positive) : M (option positive) :=
  n ← load node;
  match rightChild n with
  | None => mret None
  | Some r => result ← leftmost fuel r; mret (Some result)
  end.

(** The part shared by the first two cases of [deleteNode] and
    [removeNode]: re-link the parent (or the root) to [child]. *)
Definition rechild (childType : atMapChildType) (parent_ child : option positive) : M unit :=
  match childType with
  | AT_MAP_LEFTCHILD => p ← deref parent_; modify p (set_leftChild child)
  | AT_MAP_RIGHTCHILD => p ← deref parent_; modify p (set_rightChild child)
  | _ => put_treeRoot child
  end.

(** ** atMap::deleteNode and atMap::removeNode

    The two functions are the same text but for one point: before
    [delete node], [deleteNode] also destroys the key and the value held
    by the unlinked node.  [destroyItems] tells the two apart; each
    function recurses into itself.  [calls] bounds the calls of the
    function to itself (this one included), [fuel] the loops of the
    functions it calls. *)
Fixpoint unlinkNode (destroyItems : bool) (calls fuel : nat) (node : positive) : M unit :=
  match calls with
  | O => abort
  | S calls' =>
    childType ← getChildType node;
    n ← load node;
    let parent_ := parent n in
    match leftChild n, rightChild n with
    | None, None =>
      rechild childType parent_ None;;
      (if decide (color n = AT_MAP_BLACK)
       then rebalanceDelete fuel parent_ childType else mret tt);;
      (if destroyItems
       then destroy (inl (nodeKey n));; destroy (inr (nodeValue n))
       else mret tt);;
      delete_node node
    | Some child, None | None, Some child =>
      modify child (set_parent parent_);;
      rechild childType parent_ (Some child);;
      (if decide (color n = AT_MAP_BLACK)
       then rebalanceDelete fuel parent_ childType else mret tt);;
      (if destroyItems
       then destroy (inl (nodeKey n));; destroy (inr (nodeValue n))
       else mret tt);;
      delete_node node
    | Some _, Some _ =>
      succ ← getInorderSuccessor fuel node;
      child ← deref succ;
      c ← load child;
      modify node (set_nodeKey (nodeKey c));;
      modify child (set_nodeKey (nodeKey n));;
      modify node (set_nodeValue (nodeValue c));;
      modify child (set_nodeValue (nodeValue n));;
      unlinkNode destroyItems calls' fuel child
    end
  end.

Definition deleteNode := unlinkNode true.
Definition removeNode := unlinkNode false.

(** ** atMap::deleteTree

    Keys and values are items, never NULL here, so the two NULL tests
    that guard [delete node->nodeKey] and [delete node->nodeValue] are
    passed. *)
Fixpoint deleteTree (fuel : nat) (node : option positive) : M unit :=
  match fuel with
  | O => abort
  | S fuel =>
    match node with
    | None => mret tt
    | Some a =>
      n ← load a;
      deleteTree fuel (leftChild n);;
      deleteTree fuel (rightChild n);;
      destroy (inl (nodeKey n));;
      destroy (inr (nodeValue n));;
      delete_node a
    end
  end.

(** ** atMap::fillLists

    The two [atList]s are output parameters; [None] is a [NULL] list and
    [atList::addEntry] appends at the end. *)
Fixpoint fillLists (fuel : nat) (node : option positive)
    (keyList : option (list K)) (valueList : option (list V))
    : M (option (list K) * option (list V)) :=
  match fuel with
  | O => abort
  | S fuel =>
    match node with
    | None => mret (keyList, valueList)
    | Some a =>
      n ← load a;
      '(keyList, valueList) ← fillLists fuel (leftChild n) keyList valueList;
      let keyList := (λ l, l ++ [nodeKey n]) <$> keyList in
      let valueList := (λ l, l ++ [nodeValue n]) <$> valueList in
      fillLists fuel (rightChild n) keyList valueList
    end
  end.

(** Runs [f] with the recursion budget of the map it is called on. *)
Definition budgeted {A} (f : nat → M A) : M A := λ m, f (budget m) m.

(** ** atMap::containsKey *)
Definition containsKey (key : K) : M bool :=
  budgeted (λ fuel,
    root ← get_treeRoot;
    node ← findNode fuel root key;
    mret (bool_decide (node ≠ None))).

(** The [while (!found)] loop of [addEntry]. *)
Fixpoint addEntry_place (fuel : nat) (newNode nodeParent : positive) : M unit :=
  match fuel with
  | O => abort
  | S fuel =>
    nn ← load newNode;
    np ← load nodeParent;
    if compare (nodeKey nn) (nodeKey np) <? 0 then
      match leftChild np with
      | None =>
        modify nodeParent (set_leftChild (Some newNode));;
        modify newNode (set_parent (Some nodeParent))
      | Some l => addEntry_place fuel newNode l
      end
    else
      (if equals (nodeKey nn) (nodeKey np)
       then notify WarnKeyCollision else mret tt);;
      match rightChild np with
      | None =>
        modify nodeParent (set_rightChild (Some newNode));;
        modify newNode (set_parent (Some nodeParent))
      | Some r => addEntry_place fuel newNode r
      end
  end.

(** ** atMap::addEntry *)
Definition addEntry (key : K) (value : V) : M bool :=
  budgeted (λ fuel,
    present ← containsKey key;
    if present : bool then mret false else
    newNode ← new_node (AtMapNode None None None AT_MAP_RED key value);
    root ← get_treeRoot;
    match root with
    | None =>
      put_treeRoot (Some newNode);;
      paint (Some newNode) AT_MAP_BLACK;;
      size ← get_treeSize;
      put_treeSize (u_long (size + 1));;
      mret true
    | Some nodeParent =>
      addEntry_place fuel newNode nodeParent;;
      rebalanceInsert fuel newNode;;
      root ← get_treeRoot;
      paint root AT_MAP_BLACK;;
      size ← get_treeSize;
      put_treeSize (u_long (size + 1));;
      mret true
    end).

(** ** atMap::deleteEntry *)
Definition deleteEntry (key : K) : M bool :=
  budgeted (λ fuel,
    root ← get_treeRoot;
    targetNode ← findNode fuel root key;
    match targetNode with
    | None => mret false
    | Some node =>
      deleteNode fuel fuel node;;
      root ← get_treeRoot;
      match root with
      | Some r => modify r (set_color AT_MAP_BLACK)
      | None => mret tt
      end;;
      size ← get_treeSize;
      put_treeSize (u_long (size - 1));;
      mret true
    end).

(** ** atMap::removeEntry *)
Definition removeEntry (key : K) : M (option V) :=
  budgeted (λ fuel,
    root ← get_treeRoot;
    targetNode ← findNode fuel root key;
    match targetNode with
    | None => mret None
    | Some node =>
      n ← load node;
      let targetKey := nodeKey n in
      let targetValue := nodeValue n in
      removeNode fuel fuel node;;
      (if different_object key targetKey
       then destroy (inl targetKey) else mret tt);;
      root ← get_treeRoot;
      match root with
      | Some r => modify r (set_color AT_MAP_BLACK)
      | None => mret tt
      end;;
      size ← get_treeSize;
      put_treeSize (u_long (size - 1));;
      mret (Some targetValue)
    end).

(** ** atMap::getNumEntries *)
Definition getNumEntries : M Z := get_treeSize.

(** ** atMap::getValue *)
Definition getValue (key : K) : M (option V) :=
  budgeted (λ fuel,
    root ← get_treeRoot;
    node ← findNode fuel root key;
    match node with
    | Some a => n ← load a; mret (Some (nodeValue n))
    | None => mret None
    end).

(** ** atMap::changeValue *)
Definition changeValue (key : K) (newValue : V) : M (option V) :=
  budgeted (λ fuel,
    root ← get_treeRoot;
    node ← findNode fuel root key;
    match node with
    | None => mret None
    | Some a =>
      n ← load a;
      let oldValue := nodeValue n in
      modify a (set_nodeValue newValue);;
      mret (Some oldValue)
    end).

(** ** atMap::clear *)
Definition clear : M unit :=
  budgeted (λ fuel,
    root ← get_treeRoot;
    match root with
    | None => mret tt
    | Some _ =>
      deleteTree fuel root;;
      put_treeRoot None;;
      put_treeSize 0
    end).

(** ** atMap::getSortedList *)
Definition getSortedList (keyList : option (list K)) (valueList : option (list V))
    : M (option (list K) * option (list V)) :=
  budgeted (λ fuel,
    size ← get_treeSize;
    if decide (size = 0) then mret (keyList, valueList) else
    root ← get_treeRoot;
    '(keyList, valueList) ← fillLists fuel root keyList valueList;
    match keyList, valueList with
    | Some kl, _ =>
      if decide (u_long (Z.of_nat (length kl)) ≠ size)
      then notify (ErrGetSortedList (u_long (Z.of_nat (length kl))) size) else mret tt
    | None, Some vl =>
      if decide (u_long (Z.of_nat (length vl)) ≠ size)
      then notify (ErrGetSortedList (u_long (Z.of_nat (length vl))) size) else mret tt
    | None, None => mret tt
    end;;
    mret (keyList, valueList)).

(** ** The tree held in the store

    A tree of nodes, each tagged with the address of the record that
    holds it.  The [parent] chain above a node is a one-hole context:
    the list of the frames from the node's parent up to the root, each
    frame being an ancestor together with its other subtree. *)
Inductive tree :=
| Leaf
| Node (a : positive) (c : atMapColor) (l : tree) (k : K) (v : V) (r : tree).

Inductive frame :=
| InLeft (a : positive) (c : atMapColor) (k : K) (v : V) (r : tree)
| InRight (a : positive) (c : atMapColor) (l : tree) (k : K) (v : V).

Definition fill (f : frame) (t : tree) : tree :=
  match f with
  | InLeft a c k v r => Node a c t k v r
  | InRight a c l k v => Node a c l k v t
  end.

Fixpoint plug (cx : list frame) (t : tree) : tree :=
  match cx with
  | [] => t
  | f :: cx => plug cx (fill f t)
  end.

Definition root (t : tree) : option positive :=
  match t with
  | Leaf => None
  | Node a _ _ _ _ _ => Some a
  end.

Definition frame_addr (f : frame) : positive :=
  match f with
  | InLeft a _ _ _ _ | InRight a _ _ _ _ => a
  end.

Definition frame_color (f : frame) : atMapColor :=
  match f with
  | InLeft _ c _ _ _ | InRight _ c _ _ _ => c
  end.

(** The address a node under [cx] finds in its [parent] field. *)
Definition ctx_addr (cx : list frame) : option positive :=
  match cx with
  | [] => None
  | f :: _ => Some (frame_addr f)
  end.

Fixpoint addrs (t : tree) : list positive :=
  match t with
  | Leaf => []
  | Node a _ l _ _ r => a :: addrs l ++ addrs r
  end.

Definition frame_addrs (f : frame) : list positive :=
  match f with
  | InLeft a _ _ _ r => a :: addrs r
  | InRight a _ l _ _ => a :: addrs l
  end.

Fixpoint ctx_addrs (cx : list frame) : list positive :=
  match cx with
  | [] => []
  | f :: cx => frame_addrs f ++ ctx_addrs cx
  end.

(** Keys, values and entries in in-order. *)
Fixpoint entries (t : tree) : list (K * V) :=
  match t with
  | Leaf => []
  | Node _ _ l k v r => entries l ++ (k, v) :: entries r
  end.

Definition keys (t : tree) : list K := (entries t).*1.
Definition values (t : tree) : list V := (entries t).*2.

Fixpoint height (t : tree) : nat :=
  match t with
  | Leaf => O
  | Node _ _ l _ _ r => S (Nat.max (height l) (height r))
  end.

(** Every record of [t] is in store [h] with the links that [t]
    prescribes, [par] being the parent link of the root of [t]. *)
Fixpoint tree_in (h : gmap positive atMapNode) (par : option positive) (t : tree) : Prop :=
  match t with
  | Leaf => True
  | Node a c l k v r =>
    h !! a = Some (AtMapNode (root l) (root r) par c k v) ∧
    tree_in h (Some a) l ∧ tree_in h (Some a) r
  end.

(** The same for the ancestors, [hole] being the link that the innermost
    frame holds to the node under the context. *)
Fixpoint ctx_in (h : gmap positive atMapNode) (cx : list frame) (hole : option positive) : Prop :=
  match cx with
  | [] => True
  | f :: cx =>
    match f with
    | InLeft a c k v r =>
      h !! a = Some (AtMapNode hole (root r) (ctx_addr cx) c k v) ∧ tree_in h (Some a) r
    | InRight a c l k v =>
      h !! a = Some (AtMapNode (root l) hole (ctx_addr cx) c k v) ∧ tree_in h (Some a) l
    end ∧ ctx_in h cx (Some (frame_addr f))
  end.

(** Map [m] holds the tree [plug cx t]: the records are in the store, no
    two nodes share an address and [treeRoot] points to the root. *)
Record holds (m : atMap) (cx : list frame) (t : tree) : Prop := Holds {
  holds_tree : tree_in (store m) (ctx_addr cx) t;
  holds_ctx : ctx_in (store m) cx (root t);
  holds_NoDup : NoDup (addrs t ++ ctx_addrs cx);
  holds_root : treeRoot m = root (plug cx t)
}.

(** What a call on the tree leaves alone. *)
Definition aside (m : atMap) : Z * list atNotice * list (K + V) :=
  (treeSize m, notices m, destroyed m).

(** [c] returns from [m], and [Q] holds of its result and final state. *)
Definition returns {A} (c : M A) (m : atMap) (Q : A → atMap → Prop) : Prop :=
  ∃ x m', c m = Some (x, m') ∧ Q x m'.

(** The update of one record of the store. *)
Definition upd (m : atMap) (a : positive) (n : atMapNode) : atMap :=
  AtMap (<[a := n]> (store m)) (treeRoot m) (treeSize m) (notices m) (destroyed m).

(** ** The member functions on trees

    What each member function does to the tree held in the store, in the
    terms of the code: the same tests in the same order, a pointer to a
    node being a focus in the tree. *)

Definition is_red (t : tree) : bool :=
  match t with
  | Node _ AT_MAP_RED _ _ _ _ => true
  | _ => false
  end.

Definition paint_tree (c : atMapColor) (t : tree) : tree :=
  match t with
  | Leaf => Leaf
  | Node a _ l k v r => Node a c l k v r
  end.

(** [getChildType] of a node under [cx]. *)
Definition child_type (cx : list frame) : atMapChildType :=
  match cx with
  | [] => AT_MAP_ROOTNODE
  | InLeft _ _ _ _ _ :: _ => AT_MAP_LEFTCHILD
  | InRight _ _ _ _ _ :: _ => AT_MAP_RIGHTCHILD
  end.

(** [findNode]: the focus on the node it returns. *)
Fixpoint locate (key : K) (cx : list frame) (t : tree) : option (list frame * tree) :=
  match t with
  | Leaf => None
  | Node a c l k v r =>
    if equals k key then Some (cx, t)
    else if 0 <? compare key k
         then locate key (InRight a c l k v :: cx) r
         else locate key (InLeft a c k v r :: cx) l
  end.

(** The [while] loop of [addEntry]: the empty position it stops at, and
    the warnings it emits on the way (most recent first). *)
Fixpoint place (key : K) (cx : list frame) (t : tree) : list frame :=
  match t with
  | Leaf => cx
  | Node a c l k v r =>
    if compare key k <? 0
    then place key (InLeft a c k v r :: cx) l
    else place key (InRight a c l k v :: cx) r
  end.

Fixpoint collisions (key : K) (t : tree) : list atNotice :=
  match t with
  | Leaf => []
  | Node a c l k v r =>
    if compare key k <? 0 then collisions key l
    else collisions key r ++ (if equals key k then [WarnKeyCollision] else [])
  end.

(** [rebalanceInsert] at the node that roots [t] under [cx]. *)
Fixpoint rebalanceInsert_tree (cx : list frame) (t : tree) : tree :=
  match t, cx with
  | Node n AT_MAP_RED nl nk nv nr, pf :: gf :: cx' =>
    match frame_color pf with
    | AT_MAP_BLACK => plug cx t
    | AT_MAP_RED =>
      match gf with
      | InLeft g gc gk gv uncle =>
        if is_red uncle then
          rebalanceInsert_tree cx'
            (Node g AT_MAP_RED (paint_tree AT_MAP_BLACK (fill pf t)) gk gv
               (paint_tree AT_MAP_BLACK uncle))
        else
          match pf with
          | InRight p pc pl pk pv =>
            plug cx'
              (Node n AT_MAP_BLACK (Node p pc pl pk pv nl) nk nv
                 (Node g AT_MAP_RED nr gk gv uncle))
          | InLeft p pc pk pv pr =>
            plug cx'
              (Node p AT_MAP_BLACK t pk pv (Node g AT_MAP_RED pr gk gv uncle))
          end
      | InRight g gc uncle gk gv =>
        if is_red uncle then
          rebalanceInsert_tree cx'
            (Node g AT_MAP_RED (paint_tree AT_MAP_BLACK uncle) gk gv
               (paint_tree AT_MAP_BLACK (fill pf t)))
        else
          match pf with
          | InLeft p pc pk pv pr =>
            plug cx'
              (Node n AT_MAP_BLACK (Node g AT_MAP_RED uncle gk gv nl) nk nv
                 (Node p pc nr pk pv pr))
          | InRight p pc pl pk pv =>
            plug cx'
              (Node p AT_MAP_BLACK (Node g AT_MAP_RED uncle gk gv pl) pk pv t)
          end
      end
    end
  | _, _ => plug cx t
  end.

(** [addEntry] of a key that [containsKey] does not find, [a] being the
    address of the new node. *)
Definition addEntry_tree (a : positive) (key : K) (value : V) (t : tree) : tree :=
  paint_tree AT_MAP_BLACK
    (rebalanceInsert_tree (place key [] t)
       (Node a AT_MAP_RED Leaf key value Leaf)).

(** [rebalanceDelete], left case, from the point where the sibling is
    fetched for the last time: [t] is what stands where the node was
    removed, under the parent [p], [sib] is the sibling, [cx] is above
    the parent and [again] is the recursive call at the parent. *)
Definition rebalanceDelete_left (again : tree → option tree) (cx : list frame)
    (p : positive) (pc : atMapColor) (pk : K) (pv : V) (t sib : tree) : option tree :=
  match sib with
  | Leaf => None
  | Node s sc sl sk sv sr =>
    if negb (is_red sl) && negb (is_red sr) then
      again (Node p pc t pk pv (Node s AT_MAP_RED sl sk sv sr))
    else
      match sl with
      | Node x AT_MAP_RED xl xk xv xr =>
        Some (plug cx
          (Node x pc (Node p AT_MAP_BLACK t pk pv xl) xk xv
             (Node s AT_MAP_BLACK xr sk sv sr)))
      | _ =>
        Some (plug cx
          (Node s pc (Node p AT_MAP_BLACK t pk pv sl) sk sv
             (paint_tree AT_MAP_BLACK sr)))
      end
  end.

Definition rebalanceDelete_right (again : tree → option tree) (cx : list frame)
    (p : positive) (pc : atMapColor) (pk : K) (pv : V) (sib t : tree) : option tree :=
  match sib with
  | Leaf => None
  | Node s sc sl sk sv sr =>
    if negb (is_red sl) && negb (is_red sr) then
      again (Node p pc (Node s AT_MAP_RED sl sk sv sr) pk pv t)
    else
      match sr with
      | Node x AT_MAP_RED xl xk xv xr =>
        Some (plug cx
          (Node x pc (Node s AT_MAP_BLACK sl sk sv xl) xk xv
             (Node p AT_MAP_BLACK xr pk pv t)))
      | _ =>
        Some (plug cx
          (Node s pc (paint_tree AT_MAP_BLACK sl) sk sv
             (Node p AT_MAP_BLACK sr pk pv t)))
      end
  end.

(** [rebalanceDelete (parent, deletedChildType)], [cx] being the parent
    and what is above it, and [t] what stands where the node was removed.
    After the rotation that makes a red sibling black, the parent is red:
    the recursive call from there blackens it and returns. *)
Fixpoint rebalanceDelete_tree (cx : list frame) (t : tree) : option tree :=
  match cx with
  | [] => Some t
  | f :: cx' =>
    if is_red t then Some (plug cx (paint_tree AT_MAP_BLACK t)) else
    match f with
    | InLeft p pc pk pv sib =>
      match sib with
      | Node s AT_MAP_RED sl sk sv sr =>
        let cx'' := InLeft s AT_MAP_BLACK sk sv sr :: cx' in
        rebalanceDelete_left
          (λ t', Some (plug cx'' (paint_tree AT_MAP_BLACK t')))
          cx'' p AT_MAP_RED pk pv t sl
      | _ =>
        rebalanceDelete_left (rebalanceDelete_tree cx') cx' p pc pk pv t sib
      end
    | InRight p pc sib pk pv =>
      match sib with
      | Node s AT_MAP_RED sl sk sv sr =>
        let cx'' := InRight s AT_MAP_BLACK sl sk sv :: cx' in
        rebalanceDelete_right
          (λ t', Some (plug cx'' (paint_tree AT_MAP_BLACK t')))
          cx'' p AT_MAP_RED pk pv sr t
      | _ =>
        rebalanceDelete_right (rebalanceDelete_tree cx') cx' p pc pk pv sib t
      end
    end
  end.

(** The loop of [getInorderSuccessor]: the focus on the leftmost node. *)
Fixpoint leftmost_tree (cx : list frame) (t : tree) : list frame * tree :=
  match t with
  | Node a c (Node _ _ _ _ _ _ as l) k v r => leftmost_tree (InLeft a c k v r :: cx) l
  | _ => (cx, t)
  end.

(** The first two cases of [deleteNode] and [removeNode]: a node of
    colour [c] is replaced by its only child, or by nothing. *)
Definition splice_tree (cx : list frame) (c : atMapColor) (child : tree) : option tree :=
  match c with
  | AT_MAP_BLACK => rebalanceDelete_tree cx child
  | AT_MAP_RED => Some (plug cx child)
  end.

(** [deleteNode] and [removeNode] at the node that roots [t] under [cx]. *)
Definition unlinkNode_tree (cx : list frame) (t : tree) : option tree :=
  match t with
  | Leaf => None
  | Node a c Leaf k v r => splice_tree cx c r
  | Node a c l k v Leaf => splice_tree cx c l
  | Node a c l k v r =>
    match leftmost_tree [] r with
    | (cx2, Node s sc _ sk sv sr) =>
      splice_tree (cx2 ++ InRight a c l sk sv :: cx) sc sr
    | (_, Leaf) => None
    end
  end.

(** [deleteEntry] and [removeEntry] of a key that [findNode] finds. *)
Definition deleteEntry_tree (key : K) (t : tree) : option tree :=
  match locate key [] t with
  | Some (cx, n) => paint_tree AT_MAP_BLACK <$> unlinkNode_tree cx n
  | None => None
  end.

(** What [findNode] and [getValue] return for a focus. *)
Definition found (o : option (list frame * tree)) : option positive :=
  match o with
  | Some (_, t) => root t
  | None => None
  end.

Definition found_value (o : option (list frame * tree)) : option V :=
  match o with
  | Some (_, Node _ _ _ _ v _) => Some v
  | _ => None
  end.

(** The outcome [m'] of unlinking from [m] a node that holds [k] and [v],
    leaving the tree [T]; [d] tells whether the items were destroyed. *)
Definition unlinked (d : bool) (k : K) (v : V) (m : atMap) (T : tree) (m' : atMap) : Prop :=
  holds m' [] T ∧ treeSize m' = treeSize m ∧ notices m' = notices m ∧
  destroyed m' = (if d then [inr v; inl k] else []) ++ destroyed m.

(** The entries to the left and to the right of the hole of a context,
    in in-order. *)
Fixpoint entries_before (cx : list frame) : list (K * V) :=
  match cx with
  | [] => []
  | InLeft _ _ _ _ _ :: cx => entries_before cx
  | InRight _ _ l k v :: cx => entries_before cx ++ entries l ++ [(k, v)]
  end.

Fixpoint entries_after (cx : list frame) : list (K * V) :=
  match cx with
  | [] => []
  | InLeft _ _ k v r :: cx => (k, v) :: entries r ++ entries_after cx
  | InRight _ _ _ _ _ :: cx => entries_after cx
  end.

(** ** The red-black invariants (spec, section 3) *)

(** [a] sorts strictly before [b]. *)
Definition before (a b : K) : Prop := compare a b < 0.

(** 1. BST ordering: the keys of a left subtree compare less than the
    key of the node, those of a right subtree greater or equal. *)
Fixpoint bst_ordered (t : tree) : Prop :=
  match t with
  | Leaf => True
  | Node _ _ l k _ r =>
    (∀ x, x ∈ keys l → compare x k < 0) ∧
    (∀ x, x ∈ keys r → 0 ≤ compare x k) ∧
    bst_ordered l ∧ bst_ordered r
  end.

(** 2. Uniqueness: no two nodes hold keys that are equal by [equals]. *)
Definition unique_keys (t : tree) : Prop :=
  ∀ i j x y, keys t !! i = Some x → keys t !! j = Some y → i ≠ j → equals x y = false.

(** 3. The root, if present, is black. *)
Definition root_black (t : tree) : Prop := is_red t = false.

(** 4. A red node never has a red parent. *)
Fixpoint no_red_red (t : tree) : Prop :=
  match t with
  | Leaf => True
  | Node _ c l _ _ r =>
    (c = AT_MAP_RED → is_red l = false ∧ is_red r = false) ∧
    no_red_red l ∧ no_red_red r
  end.

(** 5. Black-height: the numbers of black nodes on the paths from the
    root to each empty child position, from left to right. *)
Definition count_black (c : atMapColor) (n : nat) : nat :=
  match c with
  | AT_MAP_BLACK => S n
  | AT_MAP_RED => n
  end.

Fixpoint black_counts (t : tree) : list nat :=
  match t with
  | Leaf => [O]
  | Node _ c l _ _ r => count_black c <$> (black_counts l ++ black_counts r)
  end.

Definition black_balanced (t : tree) : Prop :=
  ∀ x y, x ∈ black_counts t → y ∈ black_counts t → x = y.

Record red_black (t : tree) : Prop := RedBlack {
  rb_ordered : bst_ordered t;
  rb_unique : unique_keys t;
  rb_root : root_black t;
  rb_no_red_red : no_red_red t;
  rb_balanced : black_balanced t
}.

(** Every subtree of [t] has black-height [h]. *)
Fixpoint black_height (h : nat) (t : tree) : Prop :=
  match t with
  | Leaf => h = O
  | Node _ AT_MAP_BLACK l _ _ r =>
    match h with
    | O => False
    | S h' => black_height h' l ∧ black_height h' r
    end
  | Node _ AT_MAP_RED l _ _ r => black_height h l ∧ black_height h r
  end.

(** The colour of the innermost frame, black if there is none. *)
Definition ctx_color (cx : list frame) : atMapColor :=
  match cx with
  | [] => AT_MAP_BLACK
  | f :: _ => frame_color f
  end.

(** A context that a subtree of black-height [h] fits in: every frame
    has a sibling of the black-height of the hole, a red frame has a
    black sibling and a black frame (or none) above it. *)
Fixpoint ctx_balanced (h : nat) (cx : list frame) : Prop :=
  match cx with
  | [] => True
  | f :: cx' =>
    match f with
    | InLeft _ c _ _ s | InRight _ c s _ _ =>
      black_height h s ∧ no_red_red s ∧
      (c = AT_MAP_RED → is_red s = false ∧ ctx_color cx' = AT_MAP_BLACK) ∧
      ctx_balanced (count_black c h) cx'
    end
  end.

(** No red node below the root has a red parent. *)
Definition no_red_red_below (t : tree) : Prop :=
  match t with
  | Leaf => True
  | Node _ _ l _ _ r => no_red_red l ∧ no_red_red r
  end.

(** The node [n] put where the loop of [addEntry] stops. *)
Fixpoint attach (key : K) (n : tree) (t : tree) : tree :=
  match t with
  | Leaf => n
  | Node a c l k v r =>
    if compare key k <? 0
    then Node a c (attach key n l) k v r
    else Node a c l k v (attach key n r)
  end.

(** A key is in the map when some node holds a key equal to it. *)
Definition present (key : K) (t : tree) : Prop :=
  ∃ k, k ∈ keys t ∧ equals k key = true.

(** The subtree [t] of black-height [h] fits the context [cx]. *)
Definition fits (h : nat) (cx : list frame) (t : tree) : Prop :=
  ctx_balanced h cx ∧ black_height h t ∧ no_red_red t ∧
  (is_red t = true → ctx_color cx = AT_MAP_BLACK).

(** The result is a tree that is red-black once its root is black. *)
Definition balanced_result (o : option tree) : Prop :=
  ∃ T, o = Some T ∧ ∃ h, black_height h T ∧ no_red_red_below T.

(** ** Runs of insertions and well-formed maps *)

(** A run of [addEntry] calls, with what each call returns. *)
Fixpoint addEntries (kvs : list (K * V)) : M (list bool) :=
  match kvs with
  | [] => mret []
  | (key, value) :: kvs =>
    b ← addEntry key value;
    bs ← addEntries kvs;
    mret (b :: bs)
  end.

(** Keys that are pairwise distinct under both [compare] and [equals]. *)
Definition distinct_keys (ks : list K) : Prop :=
  pairwise (λ x y, compare x y ≠ 0 ∧ equals x y = false) ks.

(** Map [m] is a red-black tree [t] of [treeSize m] nodes (spec, section
    3, invariants 1 to 6); [treeSize] is a [u_long]. *)
Record red_black_map (m : atMap) (t : tree) : Prop := RedBlackMap {
  rbm_holds : holds m [] t;
  rbm_red_black : red_black t;
  rbm_size : treeSize m = Z.of_nat (length (entries t));
  rbm_u_long : treeSize m < 2 ^ 64
}.

End Map.

(** * Two kinds of keys

    Integer keys under their own order, for which [equals] agrees with
    [compare]; and integer keys ordered by their tens only while [equals]
    tells any two different integers apart, for which it does not. *)
Definition Z_compare (a b : Z) : Z := a - b.
Definition tens_compare (a b : Z) : Z := a / 10 - b / 10.

(** An allocator: the first address that is not in use. *)
Definition fresh_address (h : gmap positive (@atMapNode Z Z)) : positive :=
  fresh (dom h).

(** The caller of [removeEntry] hands in the stored key object itself. *)
Definition same_object (a b : Z) : bool := false.

(** The map after [addEntry] of 2, 1 and 3 (with values 20, 10 and 30). *)
Definition example_tree : @tree Z Z :=
  Node 1 AT_MAP_BLACK (Node 2 AT_MAP_RED Leaf 1 10 Leaf) 2 20
    (Node 3 AT_MAP_RED Leaf 3 30 Leaf).

Definition example_map : @atMap Z Z :=
  AtMap
    (<[1%positive := AtMapNode (Some 2%positive) (Some 3%positive) None AT_MAP_BLACK 2 20]>
       (<[2%positive := AtMapNode None None (Some 1%positive) AT_MAP_RED 1 10]>
          (<[3%positive := AtMapNode None None (Some 1%positive) AT_MAP_RED 3 30]> ∅)))
    (Some 1%positive) 3 [] [].

(** The map after [addEntry] of 20 and 21 (with value 0), the keys being
    ordered by their tens. *)
Definition tens_tree : @tree Z Z :=
  Node 1 AT_MAP_BLACK Leaf 20 0 (Node 2 AT_MAP_RED Leaf 21 0 Leaf).

Definition tens_map : @atMap Z Z :=
  AtMap
    (<[1%positive := AtMapNode None (Some 2%positive) None AT_MAP_BLACK 20 0]>
       (<[2%positive := AtMapNode None None (Some 1%positive) AT_MAP_RED 21 0]> ∅))
    (Some 1%positive) 2 [] [].

(** * Further definitions: destruction order, maps of any kind of key,
    runs of calls *)

Section MapExtra.
Context {K V : Type}.
Variable compare : K → K → Z.
Variable equals : K → K → bool.
Variable new_address : gmap positive (@atMapNode K V) → positive.

(** The items of a tree in the order in which [deleteTree] destroys
    them: the subtrees first, then the key and the value of the node. *)
Fixpoint postorder_items (t : @tree K V) : list (K + V) :=
  match t with
  | Leaf => []
  | Node _ _ l k v r => postorder_items l ++ postorder_items r ++ [inl k; inr v]
  end.

(** [a] does not sort after [b]. *)
Definition not_after (a b : K) : Prop := compare a b ≤ 0.

(** Map [m] is a tree [t] of [treeSize m] nodes that satisfies the colour
    invariants (spec, section 3, invariants 3 to 6) and whose keys never
    descend from left to right; nothing is asked of [equals]. *)
Record balanced_map (m : @atMap K V) (t : @tree K V) : Prop := BalancedMap {
  bm_holds : holds m [] t;
  bm_root : root_black t;
  bm_no_red_red : no_red_red t;
  bm_balanced : black_balanced t;
  bm_ascending : StronglySorted not_after (keys t);
  bm_size : treeSize m = Z.of_nat (length (entries t));
  bm_u_long : treeSize m < 2 ^ 64
}.

(** A call of [addEntry] or of [deleteEntry], and a run of such calls
    with what each one returns. *)
Inductive atMapCall :=
| CallAddEntry (key : K) (value : V)
| CallDeleteEntry (key : K).

Fixpoint run_calls (cs : list atMapCall) : M (list bool) :=
  match cs with
  | [] => mret []
  | c :: cs =>
    b ← match c with
        | CallAddEntry key value => addEntry compare equals new_address key value
        | CallDeleteEntry key => deleteEntry compare equals key
        end;
    bs ← run_calls cs;
    mret (b :: bs)
  end.

End MapExtra.

(** The tree of keys 2, 3 and 4 from which a black node left of the root
    has just been unlinked: the empty left position is one black node
    short of its sibling. *)
Definition short_sibling : @tree Z Z :=
  Node 2 AT_MAP_BLACK Leaf 3 30 (Node 3 AT_MAP_RED Leaf 4 40 Leaf).

Definition short_map : @atMap Z Z :=
  AtMap
    (<[1%positive := AtMapNode None (Some 2%positive) None AT_MAP_BLACK 2 20]>
       (<[2%positive := AtMapNode None (Some 3%positive) (Some 1%positive) AT_MAP_BLACK 3 30]>
          (<[3%positive := AtMapNode None None (Some 2%positive) AT_MAP_RED 4 40]> ∅)))
    (Some 1%positive) 3 [] [].

(** * Reasoning about statements *)
Section Rules.
Context {K V : Type}.
Implicit Types (m : @atMap K V) (t l r : @tree K V) (cx : list (@frame K V)).
Implicit Types (h : gmap positive (@atMapNode K V)).

Lemma returns_ret {A} (x : A) m (Q : A → @atMap K V → Prop) :
  Q x m → returns (mret x) m Q.
Proof. intros HQ. exists x, m. done. Qed.

Lemma returns_bind {A B} (c : M A) (f : A → M B) m (Q : B → @atMap K V → Prop) :
  returns c m (λ x m', returns (f x) m' Q) → returns (c ≫= f) m Q.
Proof.
  intros (x & m' & Hc & y & m'' & Hf & HQ).
  exists y, m''. split; [|done].
  unfold mbind, M_bind. by rewrite Hc.
Qed.

Lemma returns_mono {A} (c : M A) m (Q Q' : A → @atMap K V → Prop) :
  returns c m Q → (∀ x m', Q x m' → Q' x m') → returns c m Q'.
Proof. intros (x & m' & Hc & HQ) HQQ. exists x, m'. auto. Qed.

Lemma returns_seq {A B} (c : M A) (f : A → M B) m
    (P : A → @atMap K V → Prop) (Q : B → @atMap K V → Prop) :
  returns c m P → (∀ x m', P x m' → returns (f x) m' Q) → returns (c ≫= f) m Q.
Proof. intros Hc Hf. apply returns_bind. eapply returns_mono; eauto. Qed.

Lemma returns_eq {A} (c : M A) m x m' :
  c m = Some (x, m') → returns c m (λ y m'', y = x ∧ m'' = m').
Proof. intros Hc. by exists x, m'. Qed.

Lemma returns_inv {A} (c : M A) m (Q : A → @atMap K V → Prop) x m' :
  returns c m Q → c m = Some (x, m') → Q x m'.
Proof. intros (y & m'' & Hc & HQ) Hc'. congruence. Qed.

(** ** Shape of trees and contexts *)

Lemma plug_app cx1 cx2 t : plug (cx1 ++ cx2) t = plug cx2 (plug cx1 t).
Proof. revert t. induction cx1 as [|f cx1 IH]; intros t; simpl; auto. Qed.

Lemma root_fill f t : root (fill f t) = Some (frame_addr f).
Proof. by destruct f. Qed.

Lemma root_plug_cons f cx t t' : root (plug (f :: cx) t) = root (plug (f :: cx) t').
Proof.
  revert f t t'. induction cx as [|g cx IH]; intros f t t'; simpl.
  - by rewrite !root_fill.
  - apply (IH g).
Qed.

Lemma root_plug_same cx t t' : root t = root t' → root (plug cx t) = root (plug cx t').
Proof. destruct cx; [done|]. intros _. apply root_plug_cons. Qed.

Lemma addrs_fill f t : addrs (fill f t) ≡ₚ addrs t ++ frame_addrs f.
Proof.
  destruct f; simpl.
  - by rewrite Permutation_middle.
  - rewrite (comm (++) (addrs t)). done.
Qed.

Lemma addrs_plug cx t : addrs (plug cx t) ≡ₚ addrs t ++ ctx_addrs cx.
Proof.
  revert t. induction cx as [|f cx IH]; intros t; simpl.
  - by rewrite app_nil_r.
  - rewrite IH, addrs_fill. by rewrite (assoc (++)).
Qed.

Lemma ctx_addrs_app cx1 cx2 : ctx_addrs (cx1 ++ cx2) = ctx_addrs cx1 ++ ctx_addrs cx2.
Proof. induction cx1 as [|f cx1 IH]; simpl; [done|]. by rewrite IH, (assoc (++)). Qed.

Lemma root_not_in t (x : positive) : x ∉ addrs t → root t ≠ Some x.
Proof. destruct t; simpl; [done|]. intros Hx [= ->]. apply Hx. left. Qed.

Lemma root_in t (x : positive) : root t = Some x → x ∈ addrs t.
Proof. destruct t; simpl; [done|]. intros [= ->]. left. Qed.

Lemma ctx_addr_in cx (x : positive) : ctx_addr cx = Some x → x ∈ ctx_addrs cx.
Proof.
  destruct cx as [|f cx]; simpl; [done|]. intros [= <-].
  apply elem_of_app. left. destruct f; left.
Qed.

(** ** The store away from a modified record *)

Lemma tree_in_insert h par t x n :
  x ∉ addrs t → tree_in h par t → tree_in (<[x := n]> h) par t.
Proof.
  revert par. induction t as [|a c l IHl k v r IHr]; intros par Hx; simpl; [done|].
  simpl in Hx. rewrite not_elem_of_cons, not_elem_of_app in Hx.
  destruct Hx as (Hxa & Hxl & Hxr). intros (Ha & Hl & Hr).
  rewrite lookup_insert_ne by done. auto.
Qed.

Lemma tree_in_delete h par t x :
  x ∉ addrs t → tree_in h par t → tree_in (delete x h) par t.
Proof.
  revert par. induction t as [|a c l IHl k v r IHr]; intros par Hx; simpl; [done|].
  simpl in Hx. rewrite not_elem_of_cons, not_elem_of_app in Hx.
  destruct Hx as (Hxa & Hxl & Hxr). intros (Ha & Hl & Hr).
  rewrite lookup_delete_ne by done. auto.
Qed.

Lemma ctx_in_insert h cx hole x n :
  x ∉ ctx_addrs cx → ctx_in h cx hole → ctx_in (<[x := n]> h) cx hole.
Proof.
  revert hole. induction cx as [|f cx IH]; intros hole Hx; simpl; [done|].
  simpl in Hx. rewrite not_elem_of_app in Hx. destruct Hx as [Hxf Hxc].
  intros [Hf Hc]. split; [|by apply IH].
  destruct f; simpl in Hxf; rewrite not_elem_of_cons in Hxf; destruct Hxf;
    destruct Hf; (split; [by rewrite lookup_insert_ne|by apply tree_in_insert]).
Qed.

Lemma ctx_in_delete h cx hole x :
  x ∉ ctx_addrs cx → ctx_in h cx hole → ctx_in (delete x h) cx hole.
Proof.
  revert hole. induction cx as [|f cx IH]; intros hole Hx; simpl; [done|].
  simpl in Hx. rewrite not_elem_of_app in Hx. destruct Hx as [Hxf Hxc].
  intros [Hf Hc]. split; [|by apply IH].
  destruct f; simpl in Hxf; rewrite not_elem_of_cons in Hxf; destruct Hxf;
    destruct Hf; (split; [by rewrite lookup_delete_ne|by apply tree_in_delete]).
Qed.

(** ** Moving the focus *)

Lemma holds_up m f cx t : holds m (f :: cx) t → holds m cx (fill f t).
Proof.
  intros [Ht Hc Hnd Hr]. simpl in Hc. destruct Hc as [Hf Hc].
  split.
  - destruct f; simpl in *; destruct Hf; done.
  - by rewrite root_fill.
  - eapply NoDup_Permutation_proper; [|exact Hnd].
    rewrite addrs_fill. simpl. by rewrite (assoc (++)).
  - done.
Qed.

Lemma holds_down m f cx t : holds m cx (fill f t) → holds m (f :: cx) t.
Proof.
  intros [Ht Hc Hnd Hr]. rewrite root_fill in Hc.
  split.
  - destruct f; simpl in *; tauto.
  - simpl. destruct f; simpl in *; tauto.
  - eapply NoDup_Permutation_proper; [|exact Hnd].
    rewrite addrs_fill. simpl. by rewrite (assoc (++)).
  - done.
Qed.

Lemma holds_plug m cx t : holds m cx t ↔ holds m [] (plug cx t).
Proof.
  revert t. induction cx as [|f cx IH]; intros t; simpl; [done|].
  rewrite <- IH. split; [apply holds_up|apply holds_down].
Qed.

Lemma holds_whole m cx t : holds m cx t → holds m [] (plug cx t).
Proof. apply holds_plug. Qed.

Lemma holds_focus m cx t : holds m [] (plug cx t) → holds m cx t.
Proof. apply holds_plug. Qed.

Lemma holds_app m cx1 cx2 t : holds m (cx1 ++ cx2) t ↔ holds m cx2 (plug cx1 t).
Proof. by rewrite holds_plug, (holds_plug _ cx2), plug_app. Qed.

End Rules.

(** * Statements on a focused node *)

Lemma NoDup_app_sep {A} (l k : list A) :
  NoDup (l ++ k) ↔ NoDup l ∧ sep l k ∧ NoDup k.
Proof. apply NoDup_app. Qed.
Lemma sep_nil_l {A} (k : list A) : iff (sep [] k) True.
Proof. split; [done|]. intros _ x Hx. by apply elem_of_nil in Hx. Qed.
Lemma sep_nil_r {A} (l : list A) : iff (sep l []) True.
Proof. split; [done|]. intros _ x _. apply not_elem_of_nil. Qed.
Lemma sep_cons_l {A} (x : A) l k : sep (x :: l) k ↔ (x ∉ k) ∧ sep l k.
Proof.
  unfold sep. split.
  - intros H. split; [apply H; left|]. intros y Hy. apply H. by right.
  - intros [Hx H] y Hy. apply elem_of_cons in Hy as [->|Hy]; auto.
Qed.
Lemma sep_app_l {A} (l1 l2 k : list A) : sep (l1 ++ l2) k ↔ sep l1 k ∧ sep l2 k.
Proof.
  unfold sep. split.
  - intros H. split; intros y Hy; apply H, elem_of_app; auto.
  - intros [H1 H2] y Hy. apply elem_of_app in Hy as [Hy|Hy]; auto.
Qed.
Lemma sep_sym {A} (l k : list A) : sep l k → sep k l.
Proof. unfold sep. intros H x Hx Hx'. by apply (H x). Qed.
Lemma sep_cons_r {A} (x : A) l k : sep l (x :: k) ↔ (x ∉ l) ∧ sep l k.
Proof.
  split.
  - intros H. apply sep_sym, sep_cons_l in H as [? H]. split; [done|by apply sep_sym].
  - intros [? H]. apply sep_sym, sep_cons_l. split; [done|by apply sep_sym].
Qed.
Lemma sep_app_r {A} (l k1 k2 : list A) : sep l (k1 ++ k2) ↔ sep l k1 ∧ sep l k2.
Proof.
  split.
  - intros H. apply sep_sym, sep_app_l in H as [? ?]. split; by apply sep_sym.
  - intros [? ?]. apply sep_sym, sep_app_l. split; by apply sep_sym.
Qed.
Lemma not_elem_of_nil_iff {A} (x : A) : iff (x ∉ []) True.
Proof. split; [done|]. intros _. apply not_elem_of_nil. Qed.

Ltac addr_rewrite_in H :=
  repeat first
    [ rewrite NoDup_cons in H
    | rewrite NoDup_app_sep in H
    | rewrite NoDup_nil in H
    | rewrite sep_cons_l in H
    | rewrite sep_cons_r in H
    | rewrite sep_app_l in H
    | rewrite sep_app_r in H
    | rewrite sep_nil_l in H
    | rewrite sep_nil_r in H
    | rewrite not_elem_of_cons in H
    | rewrite not_elem_of_app in H
    | rewrite not_elem_of_nil_iff in H ].

(** Splits the [NoDup] facts at hand. *)
Ltac nodup_split :=
  repeat match goal with
  | H : NoDup _ |- _ =>
    progress (cbn [addrs frame_addrs ctx_addrs app] in H; addr_rewrite_in H)
  | H : sep _ _ |- _ =>
    progress (cbn [addrs frame_addrs ctx_addrs app] in H; addr_rewrite_in H)
  | H : _ ∉ _ |- _ =>
    progress (cbn [addrs frame_addrs ctx_addrs app] in H; addr_rewrite_in H)
  | H : _ ∧ _ |- _ => destruct H
  | H : True |- _ => clear H
  end.

(** Proves a fact about addresses from split [NoDup] facts. *)
Ltac fresh_addr :=
  cbn [addrs frame_addrs ctx_addrs app root ctx_addr frame_addr];
  repeat first
    [ rewrite NoDup_cons
    | rewrite NoDup_app_sep
    | rewrite NoDup_nil
    | rewrite sep_cons_l
    | rewrite sep_cons_r
    | rewrite sep_app_l
    | rewrite sep_app_r
    | rewrite sep_nil_l
    | rewrite sep_nil_r
    | rewrite not_elem_of_cons
    | rewrite not_elem_of_app
    | rewrite not_elem_of_nil_iff ];
  repeat split;
  first
    [ assumption
    | apply not_eq_sym; assumption
    | apply sep_sym; assumption
    | (intros [=]; congruence) ].

Ltac nodup_solve := fresh_addr.

Section Focus.
Context {K V : Type}.
Implicit Types (m : @atMap K V) (t l r : @tree K V) (cx : list (@frame K V)).
Implicit Types (h : gmap positive (@atMapNode K V)).

Lemma holds_lookup m cx a c l k v r :
  holds m cx (Node a c l k v r) →
  store m !! a = Some (AtMapNode (root l) (root r) (ctx_addr cx) c k v).
Proof. intros [Ht _ _ _]. by destruct Ht. Qed.

Lemma load_focus m cx a c l k v r :
  holds m cx (Node a c l k v r) →
  load a m = Some (AtMapNode (root l) (root r) (ctx_addr cx) c k v, m).
Proof. intros H. unfold load. by rewrite (holds_lookup _ _ _ _ _ _ _ _ H). Qed.

Lemma returns_load m cx a c l k v r (Q : atMapNode → atMap → Prop) :
  holds m cx (Node a c l k v r) →
  Q (AtMapNode (root l) (root r) (ctx_addr cx) c k v) m →
  returns (load a) m Q.
Proof. intros H HQ. eexists _, _. split; [by apply load_focus|done]. Qed.

Lemma getChildType_focus m cx a c l k v r :
  holds m cx (Node a c l k v r) →
  getChildType a m = Some (child_type cx, m).
Proof.
  intros H. unfold getChildType, mbind, M_bind.
  rewrite (load_focus _ _ _ _ _ _ _ _ H). simpl.
  destruct cx as [|f cx]; simpl; [done|].
  apply holds_up in H.
  destruct f as [p pc pk pv pr|p pc pl pk pv]; simpl in *;
    rewrite (load_focus _ _ _ _ _ _ _ _ H); simpl.
  - by rewrite decide_True.
  - destruct H as [_ _ Hnd _]. nodup_split.
    rewrite decide_False, decide_True; [done|done|].
    apply root_not_in. fresh_addr.
Qed.

Lemma returns_getChildType m cx a c l k v r (Q : atMapChildType → atMap → Prop) :
  holds m cx (Node a c l k v r) →
  Q (child_type cx) m →
  returns (getChildType a) m Q.
Proof. intros H HQ. eexists _, _. split; [by eapply getChildType_focus|done]. Qed.

(** Assignments to the colour, key and value of the focused node. *)
Lemma returns_modify_content m cx a c l k v r f c' k' v' (Q : unit → atMap → Prop) :
  holds m cx (Node a c l k v r) →
  f (AtMapNode (root l) (root r) (ctx_addr cx) c k v)
    = AtMapNode (root l) (root r) (ctx_addr cx) c' k' v' →
  (∀ m', holds m' cx (Node a c' l k' v' r) → aside m' = aside m → Q tt m') →
  returns (modify a f) m Q.
Proof.
  intros H Hf HQ. unfold returns, modify.
  rewrite (holds_lookup _ _ _ _ _ _ _ _ H). eexists _, _. split; [done|].
  apply HQ; [|done]. rewrite Hf. simpl.
  destruct H as [Ht Hc Hnd Hr]. simpl in Ht. destruct Ht as (Ha & Hl & Hrr).
  split; simpl.
  - nodup_split. rewrite lookup_insert_eq. split; [done|].
    split; apply tree_in_insert; (done || fresh_addr).
  - nodup_split. apply ctx_in_insert; [fresh_addr|done].
  - done.
  - rewrite Hr. by apply root_plug_same.
Qed.

Lemma returns_set_color m cx a c l k v r c' (Q : unit → atMap → Prop) :
  holds m cx (Node a c l k v r) →
  (∀ m', holds m' cx (Node a c' l k v r) → aside m' = aside m → Q tt m') →
  returns (modify a (set_color c')) m Q.
Proof. intros H HQ. eapply returns_modify_content; [exact H| |exact HQ]. done. Qed.

Lemma returns_set_nodeKey m cx a c l k v r k' (Q : unit → atMap → Prop) :
  holds m cx (Node a c l k v r) →
  (∀ m', holds m' cx (Node a c l k' v r) → aside m' = aside m → Q tt m') →
  returns (modify a (set_nodeKey k')) m Q.
Proof. intros H HQ. eapply returns_modify_content; [exact H| |exact HQ]. done. Qed.

Lemma returns_set_nodeValue m cx a c l k v r v' (Q : unit → atMap → Prop) :
  holds m cx (Node a c l k v r) →
  (∀ m', holds m' cx (Node a c l k v' r) → aside m' = aside m → Q tt m') →
  returns (modify a (set_nodeValue v')) m Q.
Proof. intros H HQ. eapply returns_modify_content; [exact H| |exact HQ]. done. Qed.

Lemma returns_paint m cx t c' (Q : unit → atMap → Prop) :
  holds m cx t → t ≠ Leaf →
  (∀ m', holds m' cx (paint_tree c' t) → aside m' = aside m → Q tt m') →
  returns (paint (root t) c') m Q.
Proof.
  intros H Ht HQ. destruct t as [|a c l k v r]; [done|]. simpl.
  unfold paint. apply returns_bind. simpl. apply returns_ret.
  eapply returns_set_color; eauto.
Qed.

Lemma nonnull_and_red_focus m cx t :
  holds m cx t → nonnull_and_red (root t) m = Some (is_red t, m).
Proof.
  intros H. destruct t as [|a c l k v r]; simpl; [done|].
  unfold mbind, M_bind. rewrite (load_focus _ _ _ _ _ _ _ _ H). simpl.
  by destruct c.
Qed.

Lemma null_or_black_focus m cx t :
  holds m cx t → null_or_black (root t) m = Some (negb (is_red t), m).
Proof.
  intros H. destruct t as [|a c l k v r]; simpl; [done|].
  unfold mbind, M_bind. rewrite (load_focus _ _ _ _ _ _ _ _ H). simpl.
  by destruct c.
Qed.

Lemma returns_nonnull_and_red m cx t (Q : bool → atMap → Prop) :
  holds m cx t → Q (is_red t) m → returns (nonnull_and_red (root t)) m Q.
Proof. intros H HQ. eexists _, _. split; [by eapply nonnull_and_red_focus|done]. Qed.

Lemma returns_null_or_black m cx t (Q : bool → atMap → Prop) :
  holds m cx t → Q (negb (is_red t)) m → returns (null_or_black (root t)) m Q.
Proof. intros H HQ. eexists _, _. split; [by eapply null_or_black_focus|done]. Qed.

End Focus.

(** * Assignments to the records of the store *)
Section Raw.
Context {K V : Type}.
Implicit Types (m : @atMap K V) (t l r : @tree K V) (cx : list (@frame K V)).
Implicit Types (h : gmap positive (@atMapNode K V)).

Lemma holds_down_l m cx a c l k v r :
  holds m cx (Node a c l k v r) → holds m (InLeft a c k v r :: cx) l.
Proof. apply (holds_down m (InLeft a c k v r)). Qed.

Lemma holds_down_r m cx a c l k v r :
  holds m cx (Node a c l k v r) → holds m (InRight a c l k v :: cx) r.
Proof. apply (holds_down m (InRight a c l k v)). Qed.

(** The link to the focused subtree, held by its parent or by [treeRoot]. *)
Lemma ctx_in_relink h cx (x y : option positive) :
  ctx_in h cx x →
  NoDup (ctx_addrs cx) →
  match cx with
  | [] => True
  | InLeft p pc pk pv pr :: cx' =>
    ctx_in (<[p := AtMapNode y (root pr) (ctx_addr cx') pc pk pv]> h) cx y
  | InRight p pc pl pk pv :: cx' =>
    ctx_in (<[p := AtMapNode (root pl) y (ctx_addr cx') pc pk pv]> h) cx y
  end.
Proof.
  destruct cx as [|[p pc pk pv pr|p pc pl pk pv] cx']; [done|..];
    simpl; intros ((Hp & Hs) & Hc) Hnd; nodup_split;
    (split; [split|]);
    [ by rewrite lookup_insert_eq | apply tree_in_insert; [fresh_addr|done]
    | apply ctx_in_insert; [fresh_addr|done]
    | by rewrite lookup_insert_eq | apply tree_in_insert; [fresh_addr|done]
    | apply ctx_in_insert; [fresh_addr|done] ].
Qed.

Lemma tree_in_reparent h par par' t :
  tree_in h par t → NoDup (addrs t) →
  match t with
  | Leaf => True
  | Node a c l k v r =>
    tree_in (<[a := AtMapNode (root l) (root r) par' c k v]> h) par' t
  end.
Proof.
  destruct t as [|a c l k v r]; [done|]. simpl. intros (Ha & Hl & Hr) Hnd.
  nodup_split. rewrite lookup_insert_eq.
  split; [done|]. split; apply tree_in_insert; (done || fresh_addr).
Qed.

Lemma returns_modify m a f n (Q : unit → atMap → Prop) :
  store m !! a = Some n → Q tt (upd m a (f n)) → returns (modify a f) m Q.
Proof. intros Ha HQ. exists tt, (upd m a (f n)). unfold modify. by rewrite Ha. Qed.

Lemma holds_upd_other m cx t x n :
  holds m cx t → x ∉ addrs t ++ ctx_addrs cx → holds (upd m x n) cx t.
Proof.
  intros [Ht Hc Hnd Hr] Hx. apply not_elem_of_app in Hx as [? ?].
  split; simpl; [by apply tree_in_insert|by apply ctx_in_insert|done..].
Qed.

Lemma holds_delete_other m cx t x :
  holds m cx t → x ∉ addrs t ++ ctx_addrs cx →
  holds (AtMap (delete x (store m)) (treeRoot m) (treeSize m) (notices m) (destroyed m)) cx t.
Proof.
  intros [Ht Hc Hnd Hr] Hx. apply not_elem_of_app in Hx as [? ?].
  split; simpl; [by apply tree_in_delete|by apply ctx_in_delete|done..].
Qed.

Lemma returns_put_treeRoot m p (Q : unit → atMap → Prop) :
  Q tt (AtMap (store m) p (treeSize m) (notices m) (destroyed m)) →
  returns (put_treeRoot p) m Q.
Proof. intros HQ. by eexists _, _. Qed.

Lemma returns_load_raw m p n (Q : atMapNode → @atMap K V → Prop) :
  store m !! p = Some n → Q n m → returns (load p) m Q.
Proof. intros Hp HQ. exists n, m. unfold load. by rewrite Hp. Qed.

Lemma returns_notify m d (Q : unit → @atMap K V → Prop) :
  Q tt (AtMap (store m) (treeRoot m) (treeSize m) (d :: notices m) (destroyed m)) →
  returns (notify d) m Q.
Proof. intros HQ. by eexists _, _. Qed.

End Raw.

Ltac heap_lookup :=
  simpl;
  repeat first
    [ rewrite lookup_insert_eq
    | rewrite lookup_insert_ne by (done || fresh_addr) ];
  first [ reflexivity | eassumption ].

Ltac heap_frame :=
  first
    [ assumption
    | apply tree_in_insert; [fresh_addr|heap_frame]
    | apply ctx_in_insert; [fresh_addr|heap_frame] ].

Ltac holds_solve :=
  split; simpl;
  [ repeat split; first [ heap_lookup | heap_frame ]
  | repeat split; first [ heap_lookup | heap_frame ]
  | first [ assumption | nodup_solve ]
  | first
      [ done
      | match goal with
        | H : treeRoot _ = _ |- _ => rewrite H; by apply root_plug_same
        end ] ].

Ltac heap_modify :=
  apply returns_bind; eapply returns_modify; [heap_lookup|]; simpl.

Section Rotations.
Context {K V : Type}.
Implicit Types (m : @atMap K V) (t l r : @tree K V) (cx : list (@frame K V)).
Implicit Types (h : gmap positive (@atMapNode K V)).

Lemma returns_rotateLeft m cx a ca l k v b cb bl kb vb br (Q : unit → atMap → Prop) :
  holds m cx (Node a ca l k v (Node b cb bl kb vb br)) →
  (∀ m', holds m' cx (Node b cb (Node a ca l k v bl) kb vb br) →
         aside m' = aside m → Q tt m') →
  returns (rotateLeft a) m Q.
Proof.
  intros H HQ. unfold rotateLeft.
  apply returns_bind; eapply returns_load; [exact H|]; simpl.
  apply returns_bind; eapply returns_load; [exact (holds_down_r _ _ _ _ _ _ _ _ H)|]; simpl.
  apply returns_bind; eapply returns_getChildType; [exact H|].
  pose proof (holds_lookup _ _ _ _ _ _ _ _ H) as Ha.
  pose proof (holds_lookup _ _ _ _ _ _ _ _ (holds_down_r _ _ _ _ _ _ _ _ H)) as Hb.
  destruct H as [Ht Hc Hnd Hr]. simpl in Ht.
  destruct Ht as (_ & Hl & _ & Hbl & Hbr).
  nodup_split.
  do 4 heap_modify.
  destruct bl as [|c cc cl ck cv cr]; simpl.
  - apply returns_bind, returns_ret.
    destruct cx as [|[p pc pk pv pr|p pc pl pk pv] cx']; simpl in *; nodup_split.
    + apply returns_put_treeRoot. apply HQ; [|done]. holds_solve.
    + rename select (store m !! p = _) into Hp.
      apply returns_bind, returns_ret. eapply returns_modify; [heap_lookup|].
      apply HQ; [|done]. holds_solve.
    + rename select (store m !! p = _) into Hp.
      apply returns_bind, returns_ret. eapply returns_modify; [heap_lookup|].
      apply HQ; [|done]. holds_solve.
  - destruct Hbl as (Hcc & Hcl & Hcr). nodup_split.
    heap_modify.
    destruct cx as [|[p pc pk pv pr|p pc pl pk pv] cx']; simpl in *; nodup_split.
    + apply returns_put_treeRoot. apply HQ; [|done]. holds_solve.
    + rename select (store m !! p = _) into Hp.
      apply returns_bind, returns_ret. eapply returns_modify; [heap_lookup|].
      apply HQ; [|done]. holds_solve.
    + rename select (store m !! p = _) into Hp.
      apply returns_bind, returns_ret. eapply returns_modify; [heap_lookup|].
      apply HQ; [|done]. holds_solve.
Qed.

Lemma returns_rotateRight m cx a ca r k v b cb bl kb vb br (Q : unit → atMap → Prop) :
  holds m cx (Node a ca (Node b cb bl kb vb br) k v r) →
  (∀ m', holds m' cx (Node b cb bl kb vb (Node a ca br k v r)) →
         aside m' = aside m → Q tt m') →
  returns (rotateRight a) m Q.
Proof.
  intros H HQ. unfold rotateRight.
  apply returns_bind; eapply returns_load; [exact H|]; simpl.
  apply returns_bind; eapply returns_load; [exact (holds_down_l _ _ _ _ _ _ _ _ H)|]; simpl.
  apply returns_bind; eapply returns_getChildType; [exact H|].
  pose proof (holds_lookup _ _ _ _ _ _ _ _ H) as Ha.
  pose proof (holds_lookup _ _ _ _ _ _ _ _ (holds_down_l _ _ _ _ _ _ _ _ H)) as Hb.
  destruct H as [Ht Hc Hnd Hr]. simpl in Ht.
  destruct Ht as (_ & (_ & Hbl & Hbr) & Hrr).
  nodup_split.
  do 4 heap_modify.
  destruct br as [|c cc cl ck cv cr]; simpl.
  - apply returns_bind, returns_ret.
    destruct cx as [|[p pc pk pv pr|p pc pl pk pv] cx']; simpl in *; nodup_split.
    + apply returns_put_treeRoot. apply HQ; [|done]. holds_solve.
    + rename select (store m !! p = _) into Hp.
      apply returns_bind, returns_ret. eapply returns_modify; [heap_lookup|].
      apply HQ; [|done]. holds_solve.
    + rename select (store m !! p = _) into Hp.
      apply returns_bind, returns_ret. eapply returns_modify; [heap_lookup|].
      apply HQ; [|done]. holds_solve.
  - destruct Hbr as (Hcc & Hcl & Hcr). nodup_split.
    heap_modify.
    destruct cx as [|[p pc pk pv pr|p pc pl pk pv] cx']; simpl in *; nodup_split.
    + apply returns_put_treeRoot. apply HQ; [|done]. holds_solve.
    + rename select (store m !! p = _) into Hp.
      apply returns_bind, returns_ret. eapply returns_modify; [heap_lookup|].
      apply HQ; [|done]. holds_solve.
    + rename select (store m !! p = _) into Hp.
      apply returns_bind, returns_ret. eapply returns_modify; [heap_lookup|].
      apply HQ; [|done]. holds_solve.
Qed.

End Rotations.

(** * rebalanceInsert on the store and on the tree *)

Ltac run_load := apply returns_bind; eapply returns_load; [eassumption|]; simpl.
Ltac run_getChildType :=
  apply returns_bind; eapply returns_getChildType; [eassumption|]; simpl.
Ltac run_ret := first [ apply returns_ret | apply returns_bind; apply returns_ret ]; simpl.

Section RebalanceInsert.
#[local] Arguments rebalanceInsert_tree : simpl never.
Context {K V : Type}.
Implicit Types (m : @atMap K V) (t l r : @tree K V) (cx : list (@frame K V)).

Lemma holds_up_l m cx a c l k v r :
  holds m (InLeft a c k v r :: cx) l → holds m cx (Node a c l k v r).
Proof. apply (holds_up m (InLeft a c k v r)). Qed.

Lemma holds_up_r m cx a c l k v r :
  holds m (InRight a c l k v :: cx) r → holds m cx (Node a c l k v r).
Proof. apply (holds_up m (InRight a c l k v)). Qed.

Lemma rebalanceInsert_tree_eq cx t :
  rebalanceInsert_tree cx t =
  match t, cx with
  | Node n AT_MAP_RED nl nk nv nr, pf :: gf :: cx' =>
    match frame_color pf with
    | AT_MAP_BLACK => plug cx t
    | AT_MAP_RED =>
      match gf with
      | InLeft g gc gk gv uncle =>
        if is_red uncle then
          rebalanceInsert_tree cx'
            (Node g AT_MAP_RED (paint_tree AT_MAP_BLACK (fill pf t)) gk gv
               (paint_tree AT_MAP_BLACK uncle))
        else
          match pf with
          | InRight p pc pl pk pv =>
            plug cx'
              (Node n AT_MAP_BLACK (Node p pc pl pk pv nl) nk nv
                 (Node g AT_MAP_RED nr gk gv uncle))
          | InLeft p pc pk pv pr =>
            plug cx'
              (Node p AT_MAP_BLACK t pk pv (Node g AT_MAP_RED pr gk gv uncle))
          end
      | InRight g gc uncle gk gv =>
        if is_red uncle then
          rebalanceInsert_tree cx'
            (Node g AT_MAP_RED (paint_tree AT_MAP_BLACK uncle) gk gv
               (paint_tree AT_MAP_BLACK (fill pf t)))
        else
          match pf with
          | InLeft p pc pk pv pr =>
            plug cx'
              (Node n AT_MAP_BLACK (Node g AT_MAP_RED uncle gk gv nl) nk nv
                 (Node p pc nr pk pv pr))
          | InRight p pc pl pk pv =>
            plug cx'
              (Node p AT_MAP_BLACK (Node g AT_MAP_RED uncle gk gv pl) pk pv t)
          end
      end
    end
  | _, _ => plug cx t
  end.
Proof. by destruct cx, t. Qed.

Lemma rebalanceInsert_tree_black cx n nl nk nv nr :
  rebalanceInsert_tree cx (Node n AT_MAP_BLACK nl nk nv nr)
  = plug cx (Node n AT_MAP_BLACK nl nk nv nr).
Proof. by destruct cx as [|? [|? ?]]. Qed.

Lemma rebalanceInsert_tree_parent_black cx pf t :
  frame_color pf = AT_MAP_BLACK →
  rebalanceInsert_tree (pf :: cx) t = plug (pf :: cx) t.
Proof.
  intros Hpf. destruct pf; simpl in Hpf; subst;
    by destruct t as [|n [] nl nk nv nr], cx as [|gf cx].
Qed.

Lemma rebalanceInsert_tree_short pf t :
  rebalanceInsert_tree [pf] t = plug [pf] t.
Proof. by destruct t as [|n [] nl nk nv nr]. Qed.

Lemma is_red_not_Leaf t : is_red t = true → t ≠ Leaf.
Proof. by destruct t. Qed.

Lemma returns_rebalanceInsert fuel m cx n c nl nk nv nr :
  holds m cx (Node n c nl nk nv nr) →
  (length cx < fuel)%nat →
  returns (rebalanceInsert fuel n) m (λ _ m',
    holds m' [] (rebalanceInsert_tree cx (Node n c nl nk nv nr)) ∧
    aside m' = aside m).
Proof.
  revert m cx n c nl nk nv nr.
  induction fuel as [|fuel IH]; intros m cx n c nl nk nv nr H Hfuel; [inversion Hfuel|].
  cbn [rebalanceInsert].
  run_load.
  destruct c; simpl.
  { run_ret. split; [|done]. rewrite rebalanceInsert_tree_black. by apply holds_whole. }
  destruct cx as [|pf cx].
  { run_ret. done. }
  pose proof (holds_up _ _ _ _ H) as Hp.
  destruct pf as [p pc pk pv pr|p pc pl pk pv]; simpl in Hp |- *.
  - run_load. destruct pc; simpl.
    { run_ret. split; [|done].
      rewrite rebalanceInsert_tree_parent_black by done. by apply holds_whole. }
    destruct cx as [|gf cx'].
    { run_ret. split; [|done].
      rewrite rebalanceInsert_tree_short. by apply holds_whole. }
    pose proof (holds_up _ _ _ _ Hp) as Hg.
    run_getChildType.
    rewrite rebalanceInsert_tree_eq. cbn [frame_color fill].
    destruct gf as [g gc gk gv uncle|g gc uncle gk gv]; simpl in Hg |- *.
    + run_load.
      pose proof (holds_down_r _ _ _ _ _ _ _ _ Hg) as Hu.
      apply returns_bind; eapply returns_nonnull_and_red; [exact Hu|].
      destruct (is_red uncle) eqn:Hred.
      * apply returns_bind; eapply returns_set_color; [exact Hg|]; intros m1 Hg1 Ha1.
        pose proof (holds_down_l _ _ _ _ _ _ _ _ Hg1) as Hp1.
        apply returns_bind; eapply returns_set_color; [exact Hp1|]; intros m2 Hp2 Ha2.
        pose proof (holds_down_r _ _ _ _ _ _ _ _ (holds_up_l _ _ _ _ _ _ _ _ Hp2)) as Hu2.
        apply returns_bind; eapply returns_paint;
          [exact Hu2|by apply is_red_not_Leaf|]; intros m3 Hu3 Ha3.
        apply holds_up_r in Hu3.
        eapply returns_mono; [eapply IH; [exact Hu3|simpl in Hfuel; lia]|].
        intros [] m4 [Hh Ha4]. split; [done|congruence].
      * run_getChildType.
        apply returns_bind, returns_ret.
        apply returns_bind; eapply returns_rotateRight; [exact Hg|]; intros m1 Hp1 Ha1.
        apply returns_bind; eapply returns_set_color; [exact Hp1|]; intros m2 Hp2 Ha2.
        pose proof (holds_down_r _ _ _ _ _ _ _ _ Hp2) as Hg2.
        eapply returns_set_color; [exact Hg2|]; intros m3 Hg3 Ha3.
        apply holds_up_r in Hg3. split; [by apply holds_whole|congruence].
    + run_load.
      pose proof (holds_down_l _ _ _ _ _ _ _ _ Hg) as Hu.
      apply returns_bind; eapply returns_nonnull_and_red; [exact Hu|].
      destruct (is_red uncle) eqn:Hred.
      * apply returns_bind; eapply returns_set_color; [exact Hg|]; intros m1 Hg1 Ha1.
        pose proof (holds_down_r _ _ _ _ _ _ _ _ Hg1) as Hp1.
        apply returns_bind; eapply returns_set_color; [exact Hp1|]; intros m2 Hp2 Ha2.
        pose proof (holds_down_l _ _ _ _ _ _ _ _ (holds_up_r _ _ _ _ _ _ _ _ Hp2)) as Hu2.
        apply returns_bind; eapply returns_paint;
          [exact Hu2|by apply is_red_not_Leaf|]; intros m3 Hu3 Ha3.
        apply holds_up_l in Hu3.
        eapply returns_mono; [eapply IH; [exact Hu3|simpl in Hfuel; lia]|].
        intros [] m4 [Hh Ha4]. split; [done|congruence].
      * run_getChildType.
        apply returns_bind.
        apply returns_bind; eapply returns_rotateRight; [exact Hp|]; intros m1 Hn1 Ha1.
        pose proof (holds_down_r _ _ _ _ _ _ _ _ Hn1) as Hp1.
        run_load. run_ret.
        pose proof (holds_up_r _ _ _ _ _ _ _ _ Hn1) as Hg1.
        apply returns_bind; eapply returns_rotateLeft; [exact Hg1|]; intros m2 Hn2 Ha2.
        apply returns_bind; eapply returns_set_color; [exact Hn2|]; intros m3 Hn3 Ha3.
        pose proof (holds_down_l _ _ _ _ _ _ _ _ Hn3) as Hg3.
        eapply returns_set_color; [exact Hg3|]; intros m4 Hg4 Ha4.
        apply holds_up_l in Hg4. split; [by apply holds_whole|congruence].
  - run_load. destruct pc; simpl.
    { run_ret. split; [|done].
      rewrite rebalanceInsert_tree_parent_black by done. by apply holds_whole. }
    destruct cx as [|gf cx'].
    { run_ret. split; [|done].
      rewrite rebalanceInsert_tree_short. by apply holds_whole. }
    pose proof (holds_up _ _ _ _ Hp) as Hg.
    run_getChildType.
    rewrite rebalanceInsert_tree_eq. cbn [frame_color fill].
    destruct gf as [g gc gk gv uncle|g gc uncle gk gv]; simpl in Hg |- *.
    + run_load.
      pose proof (holds_down_r _ _ _ _ _ _ _ _ Hg) as Hu.
      apply returns_bind; eapply returns_nonnull_and_red; [exact Hu|].
      destruct (is_red uncle) eqn:Hred.
      * apply returns_bind; eapply returns_set_color; [exact Hg|]; intros m1 Hg1 Ha1.
        pose proof (holds_down_l _ _ _ _ _ _ _ _ Hg1) as Hp1.
        apply returns_bind; eapply returns_set_color; [exact Hp1|]; intros m2 Hp2 Ha2.
        pose proof (holds_down_r _ _ _ _ _ _ _ _ (holds_up_l _ _ _ _ _ _ _ _ Hp2)) as Hu2.
        apply returns_bind; eapply returns_paint;
          [exact Hu2|by apply is_red_not_Leaf|]; intros m3 Hu3 Ha3.
        apply holds_up_r in Hu3.
        eapply returns_mono; [eapply IH; [exact Hu3|simpl in Hfuel; lia]|].
        intros [] m4 [Hh Ha4]. split; [done|congruence].
      * run_getChildType.
        apply returns_bind.
        apply returns_bind; eapply returns_rotateLeft; [exact Hp|]; intros m1 Hn1 Ha1.
        pose proof (holds_down_l _ _ _ _ _ _ _ _ Hn1) as Hp1.
        run_load. run_ret.
        pose proof (holds_up_l _ _ _ _ _ _ _ _ Hn1) as Hg1.
        apply returns_bind; eapply returns_rotateRight; [exact Hg1|]; intros m2 Hn2 Ha2.
        apply returns_bind; eapply returns_set_color; [exact Hn2|]; intros m3 Hn3 Ha3.
        pose proof (holds_down_r _ _ _ _ _ _ _ _ Hn3) as Hg3.
        eapply returns_set_color; [exact Hg3|]; intros m4 Hg4 Ha4.
        apply holds_up_r in Hg4. split; [by apply holds_whole|congruence].
    + run_load.
      pose proof (holds_down_l _ _ _ _ _ _ _ _ Hg) as Hu.
      apply returns_bind; eapply returns_nonnull_and_red; [exact Hu|].
      destruct (is_red uncle) eqn:Hred.
      * apply returns_bind; eapply returns_set_color; [exact Hg|]; intros m1 Hg1 Ha1.
        pose proof (holds_down_r _ _ _ _ _ _ _ _ Hg1) as Hp1.
        apply returns_bind; eapply returns_set_color; [exact Hp1|]; intros m2 Hp2 Ha2.
        pose proof (holds_down_l _ _ _ _ _ _ _ _ (holds_up_r _ _ _ _ _ _ _ _ Hp2)) as Hu2.
        apply returns_bind; eapply returns_paint;
          [exact Hu2|by apply is_red_not_Leaf|]; intros m3 Hu3 Ha3.
        apply holds_up_l in Hu3.
        eapply returns_mono; [eapply IH; [exact Hu3|simpl in Hfuel; lia]|].
        intros [] m4 [Hh Ha4]. split; [done|congruence].
      * run_getChildType.
        apply returns_bind, returns_ret.
        apply returns_bind; eapply returns_rotateLeft; [exact Hg|]; intros m1 Hp1 Ha1.
        apply returns_bind; eapply returns_set_color; [exact Hp1|]; intros m2 Hp2 Ha2.
        pose proof (holds_down_l _ _ _ _ _ _ _ _ Hp2) as Hg2.
        eapply returns_set_color; [exact Hg2|]; intros m3 Hg3 Ha3.
        apply holds_up_l in Hg3. split; [by apply holds_whole|congruence].
Qed.

End RebalanceInsert.

(** * Lookup and insertion on the store and on the tree *)

Section Insert.
#[local] Arguments rebalanceInsert_tree : simpl never.
Context {K V : Type}.
Variable compare : K → K → Z.
Variable equals : K → K → bool.
Variable new_address : gmap positive (@atMapNode K V) → positive.
Hypothesis new_address_fresh : ∀ h, h !! new_address h = None.
Implicit Types (m : @atMap K V) (t l r : @tree K V) (cx : list (@frame K V)).

(** ** The recursion budget *)

Lemma height_addrs t : (height t ≤ length (addrs t))%nat.
Proof.
  induction t as [|a c l IHl k v r IHr]; simpl; [done|].
  rewrite length_app. lia.
Qed.

Lemma tree_in_dom h par t x : tree_in h par t → x ∈ addrs t → is_Some (h !! x).
Proof.
  revert par. induction t as [|a c l IHl k v r IHr]; intros par; simpl.
  - intros _ Hx. by apply elem_of_nil in Hx.
  - intros (Ha & Hl & Hr) Hx.
    apply elem_of_cons in Hx as [->|Hx]; [by eexists|].
    apply elem_of_app in Hx as [Hx|Hx]; eauto.
Qed.

Lemma holds_dom m t x : holds m [] t → x ∈ addrs t → is_Some (store m !! x).
Proof. intros [Ht _ _ _]. by eapply tree_in_dom. Qed.

Lemma holds_size m t : holds m [] t → (length (addrs t) ≤ size (store m))%nat.
Proof.
  intros H. pose proof (holds_NoDup _ _ _ H) as Hnd. rewrite app_nil_r in Hnd.
  rewrite <- (size_list_to_set (C:=gset positive)) by done.
  rewrite <- size_dom. apply subseteq_size.
  intros x Hx. apply elem_of_list_to_set in Hx. apply elem_of_dom.
  by eapply holds_dom.
Qed.

Lemma holds_budget m t : holds m [] t → (height t < budget m)%nat.
Proof.
  intros H. unfold budget. pose proof (holds_size _ _ H). pose proof (height_addrs t). lia.
Qed.

Lemma holds_ext m m' cx t :
  store m' = store m → treeRoot m' = treeRoot m → holds m cx t → holds m' cx t.
Proof. intros Hs Hr [? ? ? ?]. split; rewrite ?Hs, ?Hr; done. Qed.

(** ** findNode *)

Lemma findNode_locate fuel m cx t key :
  holds m cx t → (height t < fuel)%nat →
  findNode compare equals fuel (root t) key m
  = Some (found (locate compare equals key cx t), m).
Proof.
  revert cx t. induction fuel as [|fuel IH]; intros cx t H Hfuel; [inversion Hfuel|].
  destruct t as [|a c l k v r]; simpl; [done|].
  unfold mbind, M_bind. rewrite (load_focus _ _ _ _ _ _ _ _ H). simpl.
  destruct (equals k key); [done|]. simpl in Hfuel.
  destruct (0 <? compare key k).
  - apply (IH _ r); [by apply holds_down_r|lia].
  - apply (IH _ l); [by apply holds_down_l|lia].
Qed.

(** ** The loop of addEntry *)

Lemma returns_addEntry_place fuel m cx a c l k v r nn key value :
  holds m cx (Node a c l k v r) →
  store m !! nn = Some (AtMapNode None None None AT_MAP_RED key value) →
  nn ∉ addrs (Node a c l k v r) ++ ctx_addrs cx →
  (height (Node a c l k v r) ≤ fuel)%nat →
  returns (addEntry_place compare equals fuel nn a) m (λ _ m',
    holds m' (place compare key cx (Node a c l k v r))
      (Node nn AT_MAP_RED Leaf key value Leaf) ∧
    treeSize m' = treeSize m ∧ destroyed m' = destroyed m ∧
    notices m' = collisions compare equals key (Node a c l k v r) ++ notices m).
Proof.
  revert m cx a c l k v r.
  induction fuel as [|fuel IH]; intros m cx a c l k v r H Hnn Hfresh Hfuel;
    [inversion Hfuel|].
  cbn [addEntry_place place collisions].
  apply returns_bind; eapply returns_load_raw; [exact Hnn|]; simpl.
  run_load.
  pose proof (holds_lookup _ _ _ _ _ _ _ _ H) as Ha.
  destruct (compare key k <? 0).
  - destruct l as [|la lc ll lk lv lr]; simpl.
    + destruct H as [Ht Hc Hnd Hr]. destruct Ht as (_ & _ & Htr).
      nodup_split.
      heap_modify. eapply returns_modify; [heap_lookup|].
      split; [|done]. holds_solve.
    + eapply returns_mono.
      { apply IH; [by apply holds_down_l|done| |simpl in *; lia].
        clear -Hfresh. nodup_split. fresh_addr. }
      simpl. intros [] m' (? & ? & ? & ?). done.
  - apply returns_seq with
      (P := λ _ m', holds m' cx (Node a c l k v r) ∧
              store m' !! nn = Some (AtMapNode None None None AT_MAP_RED key value) ∧
              treeSize m' = treeSize m ∧ destroyed m' = destroyed m ∧
              notices m' = (if equals key k then [WarnKeyCollision] else []) ++ notices m).
    { destruct (equals key k).
      - apply returns_notify. split; [by apply (holds_ext m)|done].
      - by apply returns_ret. }
    intros [] m1 (H1 & Hnn1 & Hs1 & Hd1 & Hn1).
    pose proof (holds_lookup _ _ _ _ _ _ _ _ H1) as Ha1.
    destruct r as [|ra rc rl rk rv rr]; simpl.
    + destruct H1 as [Ht Hc Hnd Hr]. destruct Ht as (_ & Htl & _).
      nodup_split.
      heap_modify. eapply returns_modify; [heap_lookup|].
      split; [holds_solve|]. simpl. by rewrite Hs1, Hd1, Hn1.
    + eapply returns_mono.
      { apply IH; [by apply holds_down_r|done| |simpl in *; lia].
        clear -Hfresh. nodup_split. fresh_addr. }
      simpl. intros [] m' (? & ? & ? & ?).
      split; [done|]. rewrite <- (assoc (++)). split_and!; congruence.
Qed.

(** ** addEntry *)

Lemma returns_get_treeRoot m (Q : option positive → @atMap K V → Prop) :
  Q (treeRoot m) m → returns get_treeRoot m Q.
Proof. intros HQ. by eexists _, _. Qed.

Lemma returns_get_treeSize m (Q : Z → @atMap K V → Prop) :
  Q (treeSize m) m → returns get_treeSize m Q.
Proof. intros HQ. by eexists _, _. Qed.

Lemma returns_put_treeSize m z (Q : unit → @atMap K V → Prop) :
  Q tt (AtMap (store m) (treeRoot m) z (notices m) (destroyed m)) →
  returns (put_treeSize z) m Q.
Proof. intros HQ. by eexists _, _. Qed.

Lemma returns_budgeted {A} (f : nat → M A) m (Q : A → @atMap K V → Prop) :
  returns (f (budget m)) m Q → returns (budgeted f) m Q.
Proof. done. Qed.

Lemma containsKey_locate m t key :
  holds m [] t →
  containsKey compare equals key m
  = Some (bool_decide (found (locate compare equals key [] t) ≠ None), m).
Proof.
  intros H. unfold containsKey, budgeted, mbind, M_bind, get_treeRoot.
  cbv beta iota. rewrite (holds_root _ _ _ H). cbn [plug].
  rewrite (findNode_locate _ _ _ _ _ H) by by apply holds_budget.
  done.
Qed.

Lemma plug_not_Leaf cx t : t ≠ Leaf → plug cx t ≠ Leaf.
Proof.
  revert t. induction cx as [|f cx IH]; intros t Ht; simpl; [done|].
  apply IH. by destruct f.
Qed.

Lemma rebalanceInsert_tree_not_Leaf cx t : t ≠ Leaf → rebalanceInsert_tree cx t ≠ Leaf.
Proof.
  remember (length cx) as n eqn:Hn. revert cx t Hn.
  induction (lt_wf n) as [n _ IH]. intros cx t -> Ht.
  rewrite rebalanceInsert_tree_eq.
  destruct t as [|a [] l k v r]; [done|by apply plug_not_Leaf|].
  destruct cx as [|pf [|gf cx']]; [done|by apply plug_not_Leaf|].
  destruct (frame_color pf); [by apply plug_not_Leaf|].
  destruct gf, (is_red _), pf;
    first [ by apply plug_not_Leaf | eapply IH; [|done..]; simpl; lia ].
Qed.

Lemma length_place key cx t :
  (length (place compare key cx t) ≤ length cx + height t)%nat.
Proof.
  revert cx. induction t as [|a c l IHl k v r IHr]; intros cx; simpl; [lia|].
  destruct (_ <? _); [specialize (IHl (InLeft a c k v r :: cx))
                     |specialize (IHr (InRight a c l k v :: cx))]; simpl in *; lia.
Qed.

Lemma returns_addEntry m t key value :
  holds m [] t →
  locate compare equals key [] t = None →
  returns (addEntry compare equals new_address key value) m (λ b m',
    b = true ∧
    holds m' [] (addEntry_tree compare (new_address (store m)) key value t) ∧
    treeSize m' = u_long (treeSize m + 1) ∧ destroyed m' = destroyed m ∧
    notices m' = collisions compare equals key t ++ notices m).
Proof.
  intros H Hloc. apply returns_budgeted.
  pose proof (holds_budget _ _ H) as Hfuel.
  revert Hfuel. generalize (budget m). intros fuel Hfuel.
  apply returns_bind. eexists _, _. split; [by apply containsKey_locate|].
  rewrite Hloc. simpl.
  set (nn := new_address (store m)).
  assert (nn ∉ addrs t) as Hnn.
  { intros Hin. eapply holds_dom in Hin as [x Hx]; [|done].
    unfold nn in Hx. by rewrite new_address_fresh in Hx. }
  apply returns_bind. eexists _, _. split; [done|]. fold nn.
  apply returns_bind, returns_get_treeRoot. simpl.
  rewrite (holds_root _ _ _ H). simpl.
  destruct t as [|a c l k v r]; simpl.
  - apply returns_bind, returns_put_treeRoot. simpl.
    apply returns_bind, returns_bind, returns_ret.
    eapply returns_modify; [simpl; apply lookup_insert_eq|].
    apply returns_bind, returns_get_treeSize. simpl.
    apply returns_bind, returns_put_treeSize. simpl.
    apply returns_ret. split; [done|]. split; [|done].
    split; simpl; [|done|apply NoDup_singleton|done].
    by rewrite lookup_insert_eq.
  - eapply returns_seq.
    { apply returns_addEntry_place with (cx := []) (key := key) (value := value).
      - eapply (holds_ext (upd m nn _)); [done|symmetry; apply (holds_root _ _ _ H)|].
        apply holds_upd_other; [done|]. by rewrite app_nil_r.
      - simpl. apply lookup_insert_eq.
      - by rewrite app_nil_r.
      - simpl in *. lia. }
    simpl. intros [] m1 (H1 & Hs1 & Hd1 & Hn1).
    eapply returns_seq.
    { eapply returns_rebalanceInsert; [exact H1|].
      pose proof (length_place key [] (Node a c l k v r)). simpl in *. lia. }
    simpl. intros [] m2 (H2 & Ha2).
    apply returns_bind, returns_get_treeRoot. rewrite (holds_root _ _ _ H2). simpl.
    apply returns_bind. eapply returns_paint;
      [exact H2|by apply rebalanceInsert_tree_not_Leaf|].
    intros m3 H3 Ha3.
    apply returns_bind, returns_get_treeSize. simpl.
    apply returns_bind, returns_put_treeSize. simpl.
    apply returns_ret. split; [done|].
    injection Ha2 as ? ? ?. injection Ha3 as ? ? ?.
    split; [by apply (holds_ext m3)|]. simpl.
    split_and!; congruence.
Qed.

Lemma addEntry_present m t key value :
  holds m [] t →
  locate compare equals key [] t ≠ None →
  addEntry compare equals new_address key value m = Some (false, m).
Proof.
  intros H Hloc. unfold addEntry, budgeted, mbind, M_bind.
  rewrite (containsKey_locate _ _ _ H).
  destruct (locate _ _ _ _ _) as [[cx' [|a c l k v r]]|] eqn:Hl; [|done..].
  exfalso. clear -Hl. revert Hl. generalize (@nil (@frame K V)).
  induction t as [|a c l IHl k v r IHr]; intros cx; simpl; [done|].
  destruct (equals k key); [done|]. destruct (_ <? _); eauto.
Qed.

End Insert.

(** * rebalanceDelete on the store and on the tree *)

Ltac run_paint H :=
  apply returns_bind; eapply returns_paint; [exact H|done|]; simpl.

Section RebalanceDelete.
#[local] Arguments rebalanceDelete_tree : simpl never.
Context {K V : Type}.
Implicit Types (m : @atMap K V) (t l r : @tree K V) (cx : list (@frame K V)).

(** The statements of [rebalanceDelete] from the last fetch of the
    sibling on, [again] being the recursive call. *)
#[local] Abbreviation left_rest again pa sibling :=
  (sa ← deref sibling;
   s ← load sa;
   lb ← null_or_black (leftChild s);
   bothBlack ← (if lb : bool then null_or_black (rightChild s) else mret false);
   if bothBlack : bool then
     modify sa (set_color AT_MAP_RED);;
     p ← load pa;
     ct ← getChildType pa;
     again (parent p) ct
   else
     lr ← nonnull_and_red (leftChild s);
     sibling' ←
       (if lr : bool then
          paint (leftChild s) AT_MAP_BLACK;;
          modify sa (set_color AT_MAP_RED);;
          rotateRight sa;;
          p ← load pa;
          mret (rightChild p)
        else mret sibling);
     rotateLeft pa;;
     p ← load pa;
     paint sibling' (color p);;
     modify pa (set_color AT_MAP_BLACK);;
     sa ← deref sibling';
     s ← load sa;
     paint (rightChild s) AT_MAP_BLACK).

#[local] Abbreviation right_rest again pa sibling :=
  (sa ← deref sibling;
   s ← load sa;
   lb ← null_or_black (leftChild s);
   bothBlack ← (if lb : bool then null_or_black (rightChild s) else mret false);
   if bothBlack : bool then
     modify sa (set_color AT_MAP_RED);;
     p ← load pa;
     ct ← getChildType pa;
     again (parent p) ct
   else
     rr ← nonnull_and_red (rightChild s);
     sibling' ←
       (if rr : bool then
          paint (rightChild s) AT_MAP_BLACK;;
          modify sa (set_color AT_MAP_RED);;
          rotateLeft sa;;
          p ← load pa;
          mret (leftChild p)
        else mret sibling);
     rotateRight pa;;
     p ← load pa;
     paint sibling' (color p);;
     modify pa (set_color AT_MAP_BLACK);;
     sa ← deref sibling';
     s ← load sa;
     paint (leftChild s) AT_MAP_BLACK).

Lemma returns_left_rest (again : option positive → atMapChildType → M unit)
    (again_tree : @tree K V → option (@tree K V)) m m0 cx p pc pk pv t sib T :
  holds m cx (Node p pc t pk pv sib) →
  aside m = aside m0 →
  rebalanceDelete_left again_tree cx p pc pk pv t sib = Some T →
  (∀ m1 s sl sk sv sr,
     sib = Node s AT_MAP_BLACK sl sk sv sr ∨ sib = Node s AT_MAP_RED sl sk sv sr →
     holds m1 cx (Node p pc t pk pv (Node s AT_MAP_RED sl sk sv sr)) →
     aside m1 = aside m0 →
     again_tree (Node p pc t pk pv (Node s AT_MAP_RED sl sk sv sr)) = Some T →
     returns (again (ctx_addr cx) (child_type cx)) m1
       (λ _ m', holds m' [] T ∧ aside m' = aside m0)) →
  returns (left_rest again p (root sib)) m
    (λ _ m', holds m' [] T ∧ aside m' = aside m0).
Proof.
  intros Hp Ha HT Hagain.
  destruct sib as [|s sc sl sk sv sr]; [done|]. simpl in HT |- *.
  run_ret.
  pose proof (holds_down_r _ _ _ _ _ _ _ _ Hp) as Hs.
  run_load.
  apply returns_bind; eapply returns_null_or_black;
    [exact (holds_down_l _ _ _ _ _ _ _ _ Hs)|].
  apply returns_seq with (P := λ b m', m' = m ∧ b = negb (is_red sl) && negb (is_red sr)).
  { destruct (is_red sl); simpl; [by apply returns_ret|].
    eapply returns_null_or_black; [exact (holds_down_r _ _ _ _ _ _ _ _ Hs)|done]. }
  intros ? ? [-> ->].
  destruct (negb (is_red sl) && negb (is_red sr)) eqn:Hbb.
  - apply returns_bind; eapply returns_set_color; [exact Hs|]; intros m1 Hs1 Ha1.
    apply holds_up_r in Hs1.
    run_load. run_getChildType.
    eapply (Hagain m1 s sl sk sv sr); [destruct sc; auto|done|congruence|done].
  - apply returns_bind; eapply returns_nonnull_and_red;
      [exact (holds_down_l _ _ _ _ _ _ _ _ Hs)|].
    destruct sl as [|x [] xl xk xv xr]; simpl.
    + destruct sr as [|y [] yl yk yv yr]; [done..|].
      injection HT as <-. run_ret.
      apply returns_bind; eapply returns_rotateLeft; [exact Hp|]; intros m1 Hs1 Ha1.
      pose proof (holds_down_l _ _ _ _ _ _ _ _ Hs1) as Hp1.
      run_load.
      apply returns_bind; eapply returns_set_color; [exact Hs1|]; intros m2 Hs2 Ha2.
      pose proof (holds_down_l _ _ _ _ _ _ _ _ Hs2) as Hp2.
      apply returns_bind; eapply returns_set_color; [exact Hp2|]; intros m3 Hp3 Ha3.
      apply holds_up_l in Hp3.
      run_ret. run_load.
      pose proof (holds_down_r _ _ _ _ _ _ _ _ Hp3) as Hy3.
      eapply returns_set_color; [exact Hy3|]; intros m4 Hy4 Ha4.
      apply holds_up_r in Hy4.
      split; [by apply holds_whole|congruence].
    + destruct sr as [|y [] yl yk yv yr]; [done..|].
      injection HT as <-. run_ret.
      apply returns_bind; eapply returns_rotateLeft; [exact Hp|]; intros m1 Hs1 Ha1.
      pose proof (holds_down_l _ _ _ _ _ _ _ _ Hs1) as Hp1.
      run_load.
      apply returns_bind; eapply returns_set_color; [exact Hs1|]; intros m2 Hs2 Ha2.
      pose proof (holds_down_l _ _ _ _ _ _ _ _ Hs2) as Hp2.
      apply returns_bind; eapply returns_set_color; [exact Hp2|]; intros m3 Hp3 Ha3.
      apply holds_up_l in Hp3.
      run_ret. run_load.
      pose proof (holds_down_r _ _ _ _ _ _ _ _ Hp3) as Hy3.
      eapply returns_set_color; [exact Hy3|]; intros m4 Hy4 Ha4.
      apply holds_up_r in Hy4.
      split; [by apply holds_whole|congruence].
    + injection HT as <-.
      apply returns_bind.
      pose proof (holds_down_l _ _ _ _ _ _ _ _ Hs) as Hx.
      apply returns_bind, returns_bind, returns_ret.
      eapply returns_set_color; [exact Hx|]; intros m1 Hx1 Ha1.
      apply holds_up_l in Hx1.
      apply returns_bind; eapply returns_set_color; [exact Hx1|]; intros m2 Hs2 Ha2.
      apply returns_bind; eapply returns_rotateRight; [exact Hs2|]; intros m3 Hx3 Ha3.
      apply holds_up_r in Hx3.
      run_load. run_ret.
      apply returns_bind; eapply returns_rotateLeft; [exact Hx3|]; intros m4 Hx4 Ha4.
      pose proof (holds_down_l _ _ _ _ _ _ _ _ Hx4) as Hp4.
      run_load.
      apply returns_bind; eapply returns_set_color; [exact Hx4|]; intros m5 Hx5 Ha5.
      pose proof (holds_down_l _ _ _ _ _ _ _ _ Hx5) as Hp5.
      apply returns_bind; eapply returns_set_color; [exact Hp5|]; intros m6 Hp6 Ha6.
      apply holds_up_l in Hp6.
      run_ret. run_load.
      pose proof (holds_down_r _ _ _ _ _ _ _ _ Hp6) as Hs6.
      eapply returns_set_color; [exact Hs6|]; intros m7 Hs7 Ha7.
      apply holds_up_r in Hs7.
      split; [by apply holds_whole|congruence].
Qed.

Lemma returns_right_rest (again : option positive → atMapChildType → M unit)
    (again_tree : @tree K V → option (@tree K V)) m m0 cx p pc pk pv t sib T :
  holds m cx (Node p pc sib pk pv t) →
  aside m = aside m0 →
  rebalanceDelete_right again_tree cx p pc pk pv sib t = Some T →
  (∀ m1 s sl sk sv sr,
     sib = Node s AT_MAP_BLACK sl sk sv sr ∨ sib = Node s AT_MAP_RED sl sk sv sr →
     holds m1 cx (Node p pc (Node s AT_MAP_RED sl sk sv sr) pk pv t) →
     aside m1 = aside m0 →
     again_tree (Node p pc (Node s AT_MAP_RED sl sk sv sr) pk pv t) = Some T →
     returns (again (ctx_addr cx) (child_type cx)) m1
       (λ _ m', holds m' [] T ∧ aside m' = aside m0)) →
  returns (right_rest again p (root sib)) m
    (λ _ m', holds m' [] T ∧ aside m' = aside m0).
Proof.
  intros Hp Ha HT Hagain.
  destruct sib as [|s sc sl sk sv sr]; [done|]. simpl in HT |- *.
  run_ret.
  pose proof (holds_down_l _ _ _ _ _ _ _ _ Hp) as Hs.
  run_load.
  apply returns_bind; eapply returns_null_or_black;
    [exact (holds_down_l _ _ _ _ _ _ _ _ Hs)|].
  apply returns_seq with (P := λ b m', m' = m ∧ b = negb (is_red sl) && negb (is_red sr)).
  { destruct (is_red sl); simpl; [by apply returns_ret|].
    eapply returns_null_or_black; [exact (holds_down_r _ _ _ _ _ _ _ _ Hs)|done]. }
  intros ? ? [-> ->].
  destruct (negb (is_red sl) && negb (is_red sr)) eqn:Hbb.
  - apply returns_bind; eapply returns_set_color; [exact Hs|]; intros m1 Hs1 Ha1.
    apply holds_up_l in Hs1.
    run_load. run_getChildType.
    eapply (Hagain m1 s sl sk sv sr); [destruct sc; auto|done|congruence|done].
  - apply returns_bind; eapply returns_nonnull_and_red;
      [exact (holds_down_r _ _ _ _ _ _ _ _ Hs)|].
    destruct sr as [|x [] xl xk xv xr]; simpl.
    + destruct sl as [|y [] yl yk yv yr]; [done..|].
      injection HT as <-. run_ret.
      apply returns_bind; eapply returns_rotateRight; [exact Hp|]; intros m1 Hs1 Ha1.
      pose proof (holds_down_r _ _ _ _ _ _ _ _ Hs1) as Hp1.
      run_load.
      apply returns_bind; eapply returns_set_color; [exact Hs1|]; intros m2 Hs2 Ha2.
      pose proof (holds_down_r _ _ _ _ _ _ _ _ Hs2) as Hp2.
      apply returns_bind; eapply returns_set_color; [exact Hp2|]; intros m3 Hp3 Ha3.
      apply holds_up_r in Hp3.
      run_ret. run_load.
      pose proof (holds_down_l _ _ _ _ _ _ _ _ Hp3) as Hy3.
      eapply returns_set_color; [exact Hy3|]; intros m4 Hy4 Ha4.
      apply holds_up_l in Hy4.
      split; [by apply holds_whole|congruence].
    + destruct sl as [|y [] yl yk yv yr]; [done..|].
      injection HT as <-. run_ret.
      apply returns_bind; eapply returns_rotateRight; [exact Hp|]; intros m1 Hs1 Ha1.
      pose proof (holds_down_r _ _ _ _ _ _ _ _ Hs1) as Hp1.
      run_load.
      apply returns_bind; eapply returns_set_color; [exact Hs1|]; intros m2 Hs2 Ha2.
      pose proof (holds_down_r _ _ _ _ _ _ _ _ Hs2) as Hp2.
      apply returns_bind; eapply returns_set_color; [exact Hp2|]; intros m3 Hp3 Ha3.
      apply holds_up_r in Hp3.
      run_ret. run_load.
      pose proof (holds_down_l _ _ _ _ _ _ _ _ Hp3) as Hy3.
      eapply returns_set_color; [exact Hy3|]; intros m4 Hy4 Ha4.
      apply holds_up_l in Hy4.
      split; [by apply holds_whole|congruence].
    + assert (T = plug cx (Node x pc (Node s AT_MAP_BLACK sl sk sv xl) xk xv
                             (Node p AT_MAP_BLACK xr pk pv t))) as ->.
      { destruct sl as [|y [] yl yk yv yr]; simpl in HT; congruence. }
      clear HT.
      apply returns_bind.
      pose proof (holds_down_r _ _ _ _ _ _ _ _ Hs) as Hx.
      apply returns_bind, returns_bind, returns_ret.
      eapply returns_set_color; [exact Hx|]; intros m1 Hx1 Ha1.
      apply holds_up_r in Hx1.
      apply returns_bind; eapply returns_set_color; [exact Hx1|]; intros m2 Hs2 Ha2.
      apply returns_bind; eapply returns_rotateLeft; [exact Hs2|]; intros m3 Hx3 Ha3.
      apply holds_up_l in Hx3.
      run_load. run_ret.
      apply returns_bind; eapply returns_rotateRight; [exact Hx3|]; intros m4 Hx4 Ha4.
      pose proof (holds_down_r _ _ _ _ _ _ _ _ Hx4) as Hp4.
      run_load.
      apply returns_bind; eapply returns_set_color; [exact Hx4|]; intros m5 Hx5 Ha5.
      pose proof (holds_down_r _ _ _ _ _ _ _ _ Hx5) as Hp5.
      apply returns_bind; eapply returns_set_color; [exact Hp5|]; intros m6 Hp6 Ha6.
      apply holds_up_r in Hp6.
      run_ret. run_load.
      pose proof (holds_down_l _ _ _ _ _ _ _ _ Hp6) as Hs6.
      eapply returns_set_color; [exact Hs6|]; intros m7 Hs7 Ha7.
      apply holds_up_l in Hs7.
      split; [by apply holds_whole|congruence].
Qed.

Lemma rebalanceDelete_tree_eq cx t :
  rebalanceDelete_tree cx t =
  match cx with
  | [] => Some t
  | f :: cx' =>
    if is_red t then Some (plug cx (paint_tree AT_MAP_BLACK t)) else
    match f with
    | InLeft p pc pk pv sib =>
      match sib with
      | Node s AT_MAP_RED sl sk sv sr =>
        let cx'' := InLeft s AT_MAP_BLACK sk sv sr :: cx' in
        rebalanceDelete_left
          (λ t', Some (plug cx'' (paint_tree AT_MAP_BLACK t')))
          cx'' p AT_MAP_RED pk pv t sl
      | _ =>
        rebalanceDelete_left (rebalanceDelete_tree cx') cx' p pc pk pv t sib
      end
    | InRight p pc sib pk pv =>
      match sib with
      | Node s AT_MAP_RED sl sk sv sr =>
        let cx'' := InRight s AT_MAP_BLACK sl sk sv :: cx' in
        rebalanceDelete_right
          (λ t', Some (plug cx'' (paint_tree AT_MAP_BLACK t')))
          cx'' p AT_MAP_RED pk pv sr t
      | _ =>
        rebalanceDelete_right (rebalanceDelete_tree cx') cx' p pc pk pv sib t
      end
    end
  end.
Proof. by destruct cx. Qed.

Lemma returns_rebalanceDelete_red fuel m cx t :
  holds m cx t → cx ≠ [] → is_red t = true →
  returns (rebalanceDelete (S fuel) (ctx_addr cx) (child_type cx)) m
    (λ _ m', holds m' [] (plug cx (paint_tree AT_MAP_BLACK t)) ∧ aside m' = aside m).
Proof.
  intros H Hcx Hred. destruct cx as [|f cx']; [done|].
  pose proof (holds_up _ _ _ _ H) as Hp.
  cbn [rebalanceDelete].
  destruct f as [p pc pk pv sib|p pc sib pk pv]; simpl in Hp |- *.
  - run_ret. run_load.
    apply returns_bind; eapply returns_nonnull_and_red; [exact H|].
    rewrite Hred. eapply returns_paint; [exact H|by apply is_red_not_Leaf|].
    intros m1 H1 Ha1. split; [by apply holds_whole in H1|done].
  - run_ret. run_load.
    apply returns_bind; eapply returns_nonnull_and_red; [exact H|].
    rewrite Hred. eapply returns_paint; [exact H|by apply is_red_not_Leaf|].
    intros m1 H1 Ha1. split; [by apply holds_whole in H1|done].
Qed.

Lemma returns_rebalanceDelete fuel m cx t T :
  holds m cx t →
  rebalanceDelete_tree cx t = Some T →
  (length cx < fuel)%nat →
  returns (rebalanceDelete fuel (ctx_addr cx) (child_type cx)) m
    (λ _ m', holds m' [] T ∧ aside m' = aside m).
Proof.
  revert m cx t T.
  induction fuel as [|fuel IH]; intros m cx t T H HT Hfuel; [inversion Hfuel|].
  destruct (is_red t) eqn:Hred.
  { destruct cx as [|f cx'].
    - injection HT as <-. by apply returns_ret.
    - rewrite rebalanceDelete_tree_eq, Hred in HT. injection HT as <-.
      by apply (returns_rebalanceDelete_red fuel m (f :: cx') t). }
  destruct cx as [|f cx'].
  { injection HT as <-. by apply returns_ret. }
  rewrite rebalanceDelete_tree_eq, Hred in HT.
  pose proof (holds_up _ _ _ _ H) as Hp.
  cbn [rebalanceDelete].
  destruct f as [p pc pk pv sib|p pc sib pk pv]; simpl in Hp, Hfuel |- *.
  - run_ret. run_load.
    apply returns_bind; eapply returns_nonnull_and_red; [exact H|].
    rewrite Hred.
    destruct sib as [|s sc sl sk sv sr]; [done|].
    pose proof (holds_down_r _ _ _ _ _ _ _ _ Hp) as Hs.
    run_ret. run_load.
    destruct sc; simpl.
    + run_ret.
      eapply returns_left_rest with (sib := Node s AT_MAP_BLACK sl sk sv sr);
        [exact Hp|done|exact HT|].
      intros m1 s' sl' sk' sv' sr' _ Hp1 Ha1 HT1.
      eapply returns_mono; [eapply IH; [exact Hp1|done|lia]|].
      simpl. intros [] m2 [H2 Ha2]. split; [done|congruence].
    + apply returns_bind.
      apply returns_bind; eapply returns_rotateLeft; [exact Hp|]; intros m1 Hs1 Ha1.
      pose proof (holds_down_l _ _ _ _ _ _ _ _ Hs1) as Hp1.
      apply returns_bind; eapply returns_set_color; [exact Hp1|]; intros m2 Hp2 Ha2.
      apply holds_up_l in Hp2.
      apply returns_bind; eapply returns_set_color; [exact Hp2|]; intros m3 Hs3 Ha3.
      pose proof (holds_down_l _ _ _ _ _ _ _ _ Hs3) as Hp3.
      run_load. run_ret.
      eapply returns_mono.
      { eapply returns_left_rest with (sib := sl); [exact Hp3|reflexivity|exact HT|].
        intros m4 s' sl' sk' sv' sr' _ Hp4 Ha4 HT4. injection HT4 as <-.
        destruct fuel as [|fuel]; [lia|].
        eapply returns_mono.
        { apply (returns_rebalanceDelete_red fuel _ (InLeft _ _ _ _ _ :: _) _ Hp4); done. }
        simpl. intros [] m5 [H5 Ha5]. split; [done|congruence]. }
      simpl. intros [] m5 [H5 Ha5]. split; [done|congruence].
  - run_ret. run_load.
    apply returns_bind; eapply returns_nonnull_and_red; [exact H|].
    rewrite Hred.
    destruct sib as [|s sc sl sk sv sr]; [done|].
    pose proof (holds_down_l _ _ _ _ _ _ _ _ Hp) as Hs.
    run_ret. run_load.
    destruct sc; simpl.
    + run_ret.
      eapply returns_right_rest with (sib := Node s AT_MAP_BLACK sl sk sv sr);
        [exact Hp|done|exact HT|].
      intros m1 s' sl' sk' sv' sr' _ Hp1 Ha1 HT1.
      eapply returns_mono; [eapply IH; [exact Hp1|done|lia]|].
      simpl. intros [] m2 [H2 Ha2]. split; [done|congruence].
    + apply returns_bind.
      apply returns_bind; eapply returns_rotateRight; [exact Hp|]; intros m1 Hs1 Ha1.
      pose proof (holds_down_r _ _ _ _ _ _ _ _ Hs1) as Hp1.
      apply returns_bind; eapply returns_set_color; [exact Hp1|]; intros m2 Hp2 Ha2.
      apply holds_up_r in Hp2.
      apply returns_bind; eapply returns_set_color; [exact Hp2|]; intros m3 Hs3 Ha3.
      pose proof (holds_down_r _ _ _ _ _ _ _ _ Hs3) as Hp3.
      run_load. run_ret.
      eapply returns_mono.
      { eapply returns_right_rest with (sib := sr); [exact Hp3|reflexivity|exact HT|].
        intros m4 s' sl' sk' sv' sr' _ Hp4 Ha4 HT4. injection HT4 as <-.
        destruct fuel as [|fuel]; [lia|].
        eapply returns_mono.
        { apply (returns_rebalanceDelete_red fuel _ (InRight _ _ _ _ _ :: _) _ Hp4); done. }
        simpl. intros [] m5 [H5 Ha5]. split; [done|congruence]. }
      simpl. intros [] m5 [H5 Ha5]. split; [done|congruence].
Qed.

End RebalanceDelete.

(** * deleteNode and removeNode on the store and on the tree *)

Section Unlink.
#[local] Arguments rebalanceDelete_tree : simpl never.
Context {K V : Type}.
Implicit Types (m : @atMap K V) (t l r : @tree K V) (cx : list (@frame K V)).

(** ** The addresses of a rebalanced tree *)

Lemma elem_of_addrs_plug (x : positive) cx t :
  x ∈ addrs (plug cx t) ↔ x ∈ addrs t ∨ x ∈ ctx_addrs cx.
Proof. by rewrite addrs_plug, elem_of_app. Qed.

Lemma elem_of_addrs_fill (x : positive) f t :
  x ∈ addrs (fill f t) ↔ x ∈ addrs t ∨ x ∈ frame_addrs f.
Proof. by rewrite addrs_fill, elem_of_app. Qed.

Lemma addrs_paint_tree c t : addrs (paint_tree c t) = addrs t.
Proof. by destruct t. Qed.

Ltac addrs_solve :=
  repeat first
    [ rewrite elem_of_addrs_plug
    | rewrite elem_of_addrs_fill
    | rewrite addrs_paint_tree
    | progress cbn [addrs ctx_addrs frame_addrs]
    | rewrite elem_of_cons
    | rewrite elem_of_app
    | rewrite elem_of_nil ];
  tauto.

Lemma rebalanceDelete_left_addrs again cx p pc pk pv t sib T (x : positive) :
  (∀ t' T', again t' = Some T' → x ∈ addrs T' → x ∈ addrs t' ∨ x ∈ ctx_addrs cx) →
  rebalanceDelete_left again cx p pc pk pv t sib = Some T →
  x ∈ addrs T → x ∈ addrs (Node p pc t pk pv sib) ∨ x ∈ ctx_addrs cx.
Proof.
  intros Hagain HT. destruct sib as [|s sc sl sk sv sr]; [done|]. simpl in HT.
  destruct (negb (is_red sl) && negb (is_red sr)).
  - intros Hx. apply (Hagain _ _ HT) in Hx. revert Hx. addrs_solve.
  - destruct sl as [|y [] yl yk yv yr]; injection HT as <-; addrs_solve.
Qed.

Lemma rebalanceDelete_right_addrs again cx p pc pk pv t sib T (x : positive) :
  (∀ t' T', again t' = Some T' → x ∈ addrs T' → x ∈ addrs t' ∨ x ∈ ctx_addrs cx) →
  rebalanceDelete_right again cx p pc pk pv sib t = Some T →
  x ∈ addrs T → x ∈ addrs (Node p pc sib pk pv t) ∨ x ∈ ctx_addrs cx.
Proof.
  intros Hagain HT. destruct sib as [|s sc sl sk sv sr]; [done|]. simpl in HT.
  destruct (negb (is_red sl) && negb (is_red sr)).
  - intros Hx. apply (Hagain _ _ HT) in Hx. revert Hx. addrs_solve.
  - destruct sr as [|y [] yl yk yv yr]; injection HT as <-; addrs_solve.
Qed.

Lemma rebalanceDelete_tree_addrs cx t T (x : positive) :
  rebalanceDelete_tree cx t = Some T →
  x ∈ addrs T → x ∈ addrs t ∨ x ∈ ctx_addrs cx.
Proof.
  revert t T. induction cx as [|f cx' IH]; intros t T HT.
  { injection HT as <-. auto. }
  rewrite rebalanceDelete_tree_eq in HT.
  destruct (is_red t); [injection HT as <-; addrs_solve|].
  destruct f as [p pc pk pv sib|p pc sib pk pv].
  - destruct sib as [|s [] sl sk sv sr].
    + done.
    + intros Hx. eapply rebalanceDelete_left_addrs in Hx; [|exact IH|exact HT].
      revert Hx. addrs_solve.
    + intros Hx. eapply rebalanceDelete_left_addrs in Hx; [| |exact HT].
      * revert Hx. addrs_solve.
      * intros t' T' [= <-]. addrs_solve.
  - destruct sib as [|s [] sl sk sv sr].
    + done.
    + intros Hx. eapply rebalanceDelete_right_addrs in Hx; [|exact IH|exact HT].
      revert Hx. addrs_solve.
    + intros Hx. eapply rebalanceDelete_right_addrs in Hx; [| |exact HT].
      * revert Hx. addrs_solve.
      * intros t' T' [= <-]. addrs_solve.
Qed.

(** ** Re-linking the parent *)

Lemma returns_rechild m cx (x : option positive) t' (Q : unit → atMap → Prop) :
  ctx_in (store m) cx x →
  tree_in (store m) (ctx_addr cx) t' →
  NoDup (addrs t' ++ ctx_addrs cx) →
  (∀ t0, cx ≠ [] → treeRoot m = root (plug cx t0)) →
  (∀ m', holds m' cx t' → aside m' = aside m → Q tt m') →
  returns (rechild (child_type cx) (ctx_addr cx) (root t')) m Q.
Proof.
  intros Hc Ht Hnd Hr HQ.
  destruct cx as [|[p pc pk pv pr|p pc pl pk pv] cx']; simpl in *.
  - apply returns_put_treeRoot. apply HQ; [|done].
    split; simpl; done.
  - destruct Hc as ((Hp & Hpr) & Hc).
    specialize (Hr t' ltac:(done)).
    apply returns_bind, returns_ret. eapply returns_modify; [exact Hp|].
    apply HQ; [|done]. nodup_split. holds_solve.
  - destruct Hc as ((Hp & Hpr) & Hc).
    specialize (Hr t' ltac:(done)).
    apply returns_bind, returns_ret. eapply returns_modify; [exact Hp|].
    apply HQ; [|done]. nodup_split. holds_solve.
Qed.

Lemma returns_delete_node m a (Q : unit → atMap → Prop) :
  Q tt (AtMap (delete a (store m)) (treeRoot m) (treeSize m) (notices m) (destroyed m)) →
  returns (delete_node a) m Q.
Proof. intros HQ. by eexists _, _. Qed.

Lemma returns_destroy m i (Q : unit → atMap → Prop) :
  Q tt (AtMap (store m) (treeRoot m) (treeSize m) (notices m) (i :: destroyed m)) →
  returns (destroy i) m Q.
Proof. intros HQ. by eexists _, _. Qed.

(** ** The in-order successor *)

Lemma leftmost_tree_app cx t :
  leftmost_tree cx t = ((leftmost_tree [] t).1 ++ cx, (leftmost_tree [] t).2).
Proof.
  revert cx. induction t as [|a c l IHl k v r _]; intros cx; [done|].
  destruct l as [|la lc ll lk lv lr]; [done|].
  change (leftmost_tree cx (Node a c (Node la lc ll lk lv lr) k v r))
    with (leftmost_tree (InLeft a c k v r :: cx) (Node la lc ll lk lv lr)).
  change (leftmost_tree [] (Node a c (Node la lc ll lk lv lr) k v r))
    with (leftmost_tree [InLeft a c k v r] (Node la lc ll lk lv lr)).
  rewrite IHl, (IHl [_]). simpl. by rewrite <- (assoc (++)).
Qed.

Lemma leftmost_tree_plug cx t : plug (leftmost_tree cx t).1 (leftmost_tree cx t).2 = plug cx t.
Proof.
  revert cx. induction t as [|a c l IHl k v r _]; intros cx; [done|].
  destruct l as [|la lc ll lk lv lr]; [done|].
  change (leftmost_tree cx (Node a c (Node la lc ll lk lv lr) k v r))
    with (leftmost_tree (InLeft a c k v r :: cx) (Node la lc ll lk lv lr)).
  by rewrite IHl.
Qed.

Lemma leftmost_tree_shape cx a c l k v r :
  ∃ cx2 s sc sk sv sr,
    leftmost_tree cx (Node a c l k v r) = (cx2, Node s sc Leaf sk sv sr) ∧
    (length cx2 < length cx + height (Node a c l k v r))%nat.
Proof.
  revert cx a c k v r. induction l as [|la lc ll IHl lk lv lr _]; intros cx a c k v r.
  - exists cx, a, c, k, v, r. split; [done|]. simpl. lia.
  - destruct (IHl (InLeft a c k v r :: cx) la lc lk lv lr)
      as (cx2 & s & sc & sk & sv & sr & Heq & Hlen).
    exists cx2, s, sc, sk, sv, sr. split; [done|]. simpl in *. lia.
Qed.

Lemma leftmost_focus fuel m cx t cx2 s sc sk sv sr a :
  holds m cx t → root t = Some a →
  leftmost_tree cx t = (cx2, Node s sc Leaf sk sv sr) →
  (height t ≤ fuel)%nat →
  leftmost fuel a m = Some (s, m).
Proof.
  revert cx t a. induction fuel as [|fuel IH]; intros cx t a H Ha Hl Hfuel.
  { destruct t; [done|]. inversion Hfuel. }
  destruct t as [|a' c l k v r]; [done|]. injection Ha as ->.
  cbn [leftmost]. unfold mbind, M_bind. rewrite (load_focus _ _ _ _ _ _ _ _ H). simpl.
  destruct l as [|la lc ll lk lv lr]; simpl.
  - by injection Hl as _ ->.
  - eapply IH; [by apply holds_down_l in H|done|exact Hl|simpl in *; lia].
Qed.

(** ** deleteNode and removeNode *)

Lemma returns_splice (d : bool) fuel m m0 cx a c k v child T :
  holds m cx child →
  aside m = aside m0 →
  a ∉ addrs child ++ ctx_addrs cx →
  splice_tree cx c child = Some T →
  (length cx < fuel)%nat →
  returns
    ((if decide (c = AT_MAP_BLACK)
      then rebalanceDelete fuel (ctx_addr cx) (child_type cx) else mret tt);;
     (if d then destroy (inl k);; destroy (inr v) else mret tt);;
     delete_node a) m
    (λ _ m', unlinked d k v m0 T m').
Proof.
  intros H Ha Hfresh HT Hfuel.
  apply returns_seq with (P := λ _ m', holds m' [] T ∧ aside m' = aside m0).
  { destruct c; simpl in HT |- *.
    - eapply returns_mono; [by eapply returns_rebalanceDelete|].
      simpl. intros [] m1 [H1 Ha1]. split; [done|congruence].
    - injection HT as <-. apply returns_ret. split; [by apply holds_whole|done]. }
  intros [] m1 [H1 Ha1]. injection Ha1 as Hs Hn Hd.
  assert (a ∉ addrs T ++ []) as HaT.
  { rewrite app_nil_r. intros Hin. apply Hfresh, elem_of_app.
    destruct c; simpl in HT.
    - by eapply rebalanceDelete_tree_addrs.
    - injection HT as <-. by apply elem_of_addrs_plug in Hin. }
  destruct d.
  - apply returns_bind, returns_bind, returns_destroy.
    apply returns_destroy. simpl. apply returns_delete_node.
    split; [|simpl; by rewrite Hs, Hn, Hd].
    apply (holds_delete_other
             (AtMap (store m1) (treeRoot m1) (treeSize m1) (notices m1)
                (inr v :: inl k :: destroyed m1))); [|done].
    by apply (holds_ext m1).
  - apply returns_bind, returns_ret. apply returns_delete_node.
    split; [|simpl; by rewrite Hs, Hn, Hd].
    by apply (holds_delete_other m1).
Qed.

Lemma returns_unlinkNode_simple (d : bool) calls fuel m cx a c l k v r T :
  l = Leaf ∨ r = Leaf →
  holds m cx (Node a c l k v r) →
  unlinkNode_tree cx (Node a c l k v r) = Some T →
  (0 < calls)%nat →
  (length cx < fuel)%nat →
  returns (unlinkNode d calls fuel a) m (λ _ m', unlinked d k v m T m').
Proof.
  intros Hleaf H HT Hcalls Hfuel. destruct calls as [|calls']; [inversion Hcalls|].
  cbn [unlinkNode].
  run_getChildType. run_load.
  pose proof (holds_lookup _ _ _ _ _ _ _ _ H) as Ha.
  destruct H as [Ht Hc Hnd Hr]. simpl in Ht, Hc. destruct Ht as (_ & Hl & Hrr).
  assert (∀ t0, cx ≠ [] → treeRoot m = root (plug cx t0)) as Hroot.
  { intros t0 Hcx. rewrite Hr. destruct cx; [done|]. apply root_plug_cons. }
  clear Hr.
  destruct l as [|la lc ll lk lv lr], r as [|ra rc rl rk rv rr]; simpl.
  - apply returns_bind. eapply (returns_rechild m cx (Some a) Leaf);
      [done|done|nodup_split; nodup_solve|done|].
    intros m1 H1 Ha1.
    eapply (returns_splice d fuel m1 m cx a c k v Leaf);
      [done|done|nodup_split; fresh_addr|done|done].
  - pose proof Hrr as (Hra & _).
    apply returns_bind. eapply returns_modify; [exact Hra|].
    apply returns_bind.
    eapply (returns_rechild _ cx (Some a) (Node ra rc rl rk rv rr)).
    + nodup_split. simpl. apply ctx_in_insert; [fresh_addr|done].
    + apply (tree_in_reparent _ _ (ctx_addr cx)) in Hrr; [done|].
      nodup_split. nodup_solve.
    + nodup_split. nodup_solve.
    + done.
    + intros m1 H1 Ha1.
      eapply (returns_splice d fuel m1 m cx a c k v (Node ra rc rl rk rv rr));
        [done|done|nodup_split; fresh_addr|done|done].
  - pose proof Hl as (Hla & _).
    apply returns_bind. eapply returns_modify; [exact Hla|].
    apply returns_bind.
    eapply (returns_rechild _ cx (Some a) (Node la lc ll lk lv lr)).
    + nodup_split. simpl. apply ctx_in_insert; [fresh_addr|done].
    + apply (tree_in_reparent _ _ (ctx_addr cx)) in Hl; [done|].
      nodup_split. nodup_solve.
    + nodup_split. nodup_solve.
    + done.
    + intros m1 H1 Ha1.
      eapply (returns_splice d fuel m1 m cx a c k v (Node la lc ll lk lv lr));
        [done|done|nodup_split; fresh_addr|done|done].
  - by destruct Hleaf.
Qed.

#[local] Arguments leftmost : simpl never.

Lemma unlinkNode_tree_two cx a c la lc ll lk lv lr k v ra rc rl rk rv rr T :
  unlinkNode_tree cx
    (Node a c (Node la lc ll lk lv lr) k v (Node ra rc rl rk rv rr)) = Some T →
  ∃ cx2 s sc sk sv sr,
    leftmost_tree [] (Node ra rc rl rk rv rr) = (cx2, Node s sc Leaf sk sv sr) ∧
    (length cx2 < height (Node ra rc rl rk rv rr))%nat ∧
    unlinkNode_tree (cx2 ++ InRight a c (Node la lc ll lk lv lr) sk sv :: cx)
      (Node s sc Leaf k v sr) = Some T.
Proof.
  intros HT.
  destruct (leftmost_tree_shape [] ra rc rl rk rv rr)
    as (cx2 & s & sc & sk & sv & sr & Heq & Hlen).
  exists cx2, s, sc, sk, sv, sr. split; [done|]. split; [done|].
  cbn [unlinkNode_tree] in HT |- *. by rewrite Heq in HT.
Qed.

Lemma returns_unlinkNode (d : bool) calls fuel m cx a c l k v r T :
  holds m cx (Node a c l k v r) →
  unlinkNode_tree cx (Node a c l k v r) = Some T →
  (1 < calls)%nat →
  (length cx + height (Node a c l k v r) < fuel)%nat →
  returns (unlinkNode d calls fuel a) m (λ _ m', unlinked d k v m T m').
Proof.
  intros H HT Hcalls Hfuel.
  destruct l as [|la lc ll lk lv lr].
  { eapply returns_unlinkNode_simple; [by left|done|done|lia|lia]. }
  destruct r as [|ra rc rl rk rv rr].
  { eapply returns_unlinkNode_simple; [by right|done|done|lia|lia]. }
  destruct calls as [|calls']; [lia|].
  assert (0 < calls')%nat as Hcalls' by lia.
  apply unlinkNode_tree_two in HT as (cx2 & s & sc & sk & sv & sr & Heq & Hlen & HT).
  set (l := Node la lc ll lk lv lr) in *.
  assert (Node ra rc rl rk rv rr = plug cx2 (Node s sc Leaf sk sv sr)) as Hr.
  { pose proof (leftmost_tree_plug [] (Node ra rc rl rk rv rr)) as Hp.
    by rewrite Heq in Hp. }
  cbn [unlinkNode].
  run_getChildType. run_load.
  apply returns_bind. unfold getInorderSuccessor.
  run_load.
  pose proof (holds_down_r _ _ _ _ _ _ _ _ H) as Hra.
  assert (holds m (cx2 ++ InRight a c l k v :: cx) (Node s sc Leaf sk sv sr)) as Hs.
  { apply holds_app. by rewrite <- Hr. }
  apply returns_bind. eexists _, _. split.
  { eapply (leftmost_focus _ _ _ _ _ _ _ _ _ _ _ Hra); [done| |simpl in *; lia].
    rewrite leftmost_tree_app, Heq. done. }
  apply returns_ret. simpl. run_ret. run_load.
  rewrite Hr in H.
  apply returns_bind; eapply returns_set_nodeKey; [exact H|]; intros m1 H1 Ha1.
  apply holds_down_r, holds_app in H1.
  apply returns_bind; eapply returns_set_nodeKey; [exact H1|]; intros m2 H2 Ha2.
  apply holds_app, holds_up_r in H2.
  apply returns_bind; eapply returns_set_nodeValue; [exact H2|]; intros m3 H3 Ha3.
  apply holds_down_r, holds_app in H3.
  apply returns_bind; eapply returns_set_nodeValue; [exact H3|]; intros m4 H4 Ha4.
  eapply returns_mono.
  { eapply returns_unlinkNode_simple; [by left|exact H4|exact HT|exact Hcalls'|].
    rewrite length_app. simpl in *. lia. }
  simpl. intros [] m5 (H5 & Hs5 & Hn5 & Hd5).
  injection Ha1 as ? ? ?. injection Ha2 as ? ? ?.
  injection Ha3 as ? ? ?. injection Ha4 as ? ? ?.
  split; [done|]. split_and!; congruence.
Qed.

End Unlink.

(** * The public member functions on the store and on the tree *)

Section Public.
#[local] Arguments rebalanceDelete_tree : simpl never.
#[local] Arguments unlinkNode_tree : simpl never.
#[local] Arguments unlinkNode : simpl never.
#[local] Arguments findNode : simpl never.
Context {K V : Type}.
Variable compare : K → K → Z.
Variable equals : K → K → bool.
Variable different_object : K → K → bool.
Implicit Types (m : @atMap K V) (t l r : @tree K V) (cx : list (@frame K V)).

Lemma locate_holds m cx0 t key cx n :
  holds m cx0 t →
  locate compare equals key cx0 t = Some (cx, n) →
  holds m cx n ∧
  (∃ a c l k v r, n = Node a c l k v r ∧ equals k key = true) ∧
  (length cx + height n ≤ length cx0 + height t)%nat.
Proof.
  revert cx0. induction t as [|a c l IHl k v r IHr]; intros cx0 H Hloc; [done|].
  simpl in Hloc. destruct (equals k key) eqn:Heq.
  - injection Hloc as <- <-. split; [done|]. split; [|done]. by exists a, c, l, k, v, r.
  - destruct (0 <? compare key k).
    + apply IHr in Hloc as (? & ? & ?); [|by apply holds_down_r].
      split; [done|]. split; [done|]. simpl in *. lia.
    + apply IHl in Hloc as (? & ? & ?); [|by apply holds_down_l].
      split; [done|]. split; [done|]. simpl in *. lia.
Qed.

Lemma returns_findNode m t key (Q : option positive → @atMap K V → Prop) :
  holds m [] t →
  Q (found (locate compare equals key [] t)) m →
  returns (findNode compare equals (budget m) (root t) key) m Q.
Proof.
  intros H HQ. eexists _, _. split; [|exact HQ].
  apply findNode_locate; [done|by apply holds_budget].
Qed.

(** The last statements of [deleteEntry] and [removeEntry]. *)
Lemma returns_blacken_root {A} m T (rest : M A) (Q : A → @atMap K V → Prop) :
  holds m [] T →
  (∀ m', holds m' [] (paint_tree AT_MAP_BLACK T) → aside m' = aside m →
         returns rest m' Q) →
  returns (root ← get_treeRoot;
           match root with
           | Some r => modify r (set_color AT_MAP_BLACK)
           | None => mret tt
           end;;
           rest) m Q.
Proof.
  intros H HQ. apply returns_bind, returns_get_treeRoot.
  rewrite (holds_root _ _ _ H). simpl.
  destruct T as [|a c l k v r]; simpl.
  - apply returns_bind, returns_ret. by apply HQ.
  - apply returns_bind. eapply returns_set_color; [exact H|]. done.
Qed.

Lemma returns_deleteEntry m t key cx a c l k v r T :
  holds m [] t →
  locate compare equals key [] t = Some (cx, Node a c l k v r) →
  deleteEntry_tree compare equals key t = Some T →
  returns (deleteEntry compare equals key) m (λ b m',
    b = true ∧ holds m' [] T ∧
    treeSize m' = u_long (treeSize m - 1) ∧ notices m' = notices m ∧
    destroyed m' = [inr v; inl k] ++ destroyed m).
Proof.
  intros H Hloc HT. apply returns_budgeted.
  apply returns_bind, returns_get_treeRoot. rewrite (holds_root _ _ _ H). simpl.
  apply returns_bind, returns_findNode; [done|]. rewrite Hloc. simpl.
  unfold deleteEntry_tree in HT. rewrite Hloc in HT.
  destruct (unlinkNode_tree _ _) as [T'|] eqn:HT'; [|done]. injection HT as <-.
  destruct (locate_holds _ _ _ _ _ _ H Hloc) as (Hn & _ & Hlen).
  eapply returns_seq.
  { pose proof (holds_budget _ _ H).
    eapply (returns_unlinkNode true); [exact Hn|exact HT'|simpl in *; lia..]. }
  simpl. intros [] m1 (H1 & Hs1 & Hn1 & Hd1).
  eapply returns_blacken_root; [exact H1|].
  intros m2 H2 Ha2. injection Ha2 as ? ? ?.
  apply returns_bind, returns_get_treeSize.
  apply returns_bind, returns_put_treeSize. apply returns_ret.
  split; [done|]. split; [by apply (holds_ext m2)|]. simpl in *.
  split_and!; congruence.
Qed.

Lemma deleteEntry_absent m t key :
  holds m [] t →
  locate compare equals key [] t = None →
  deleteEntry compare equals key m = Some (false, m).
Proof.
  intros H Hloc. unfold deleteEntry, budgeted, mbind, M_bind, get_treeRoot.
  cbv beta iota. rewrite (holds_root _ _ _ H). cbn [plug].
  rewrite (findNode_locate _ _ _ _ _ _ _ H) by by apply holds_budget.
  by rewrite Hloc.
Qed.

Lemma removeEntry_absent m t key :
  holds m [] t →
  locate compare equals key [] t = None →
  removeEntry compare equals different_object key m = Some (None, m).
Proof.
  intros H Hloc. unfold removeEntry, budgeted, mbind, M_bind, get_treeRoot.
  cbv beta iota. rewrite (holds_root _ _ _ H). cbn [plug].
  rewrite (findNode_locate _ _ _ _ _ _ _ H) by by apply holds_budget.
  by rewrite Hloc.
Qed.

Lemma returns_removeEntry m t key cx a c l k v r T :
  holds m [] t →
  locate compare equals key [] t = Some (cx, Node a c l k v r) →
  deleteEntry_tree compare equals key t = Some T →
  returns (removeEntry compare equals different_object key) m (λ x m',
    x = Some v ∧ holds m' [] T ∧
    treeSize m' = u_long (treeSize m - 1) ∧ notices m' = notices m ∧
    destroyed m' = (if different_object key k then [inl k] else []) ++ destroyed m).
Proof.
  intros H Hloc HT. apply returns_budgeted.
  apply returns_bind, returns_get_treeRoot. rewrite (holds_root _ _ _ H). simpl.
  apply returns_bind, returns_findNode; [done|]. rewrite Hloc. simpl.
  unfold deleteEntry_tree in HT. rewrite Hloc in HT.
  destruct (unlinkNode_tree _ _) as [T'|] eqn:HT'; [|done]. injection HT as <-.
  destruct (locate_holds _ _ _ _ _ _ H Hloc) as (Hn & _ & Hlen).
  run_load.
  eapply returns_seq.
  { pose proof (holds_budget _ _ H).
    eapply (returns_unlinkNode false); [exact Hn|exact HT'|simpl in *; lia..]. }
  simpl. intros [] m1 (H1 & Hs1 & Hn1 & Hd1).
  apply returns_seq with
    (P := λ _ m', holds m' [] T' ∧ treeSize m' = treeSize m ∧ notices m' = notices m ∧
            destroyed m' = (if different_object key k then [inl k] else []) ++ destroyed m).
  { destruct (different_object key k).
    - apply returns_destroy. split; [by apply (holds_ext m1)|]. simpl. by rewrite Hd1.
    - by apply returns_ret. }
  intros [] m2 (H2 & Hs2 & Hn2 & Hd2).
  eapply returns_blacken_root; [exact H2|].
  intros m3 H3 Ha3. injection Ha3 as ? ? ?.
  apply returns_bind, returns_get_treeSize.
  apply returns_bind, returns_put_treeSize. apply returns_ret.
  split; [done|]. split; [by apply (holds_ext m3)|]. simpl in *.
  split_and!; congruence.
Qed.

(** ** getValue and changeValue *)

Lemma getValue_locate m t key :
  holds m [] t →
  getValue compare equals key m
  = Some (found_value (locate compare equals key [] t), m).
Proof.
  intros H. unfold getValue, budgeted, mbind, M_bind, get_treeRoot.
  cbv beta iota. rewrite (holds_root _ _ _ H). cbn [plug].
  rewrite (findNode_locate _ _ _ _ _ _ _ H) by by apply holds_budget.
  destruct (locate _ _ _ _ _) as [[cx n]|] eqn:Hloc; [|done].
  destruct (locate_holds _ _ _ _ _ _ H Hloc) as (Hn & (a & c & l & k & v & r & -> & _) & _).
  simpl. by rewrite (load_focus _ _ _ _ _ _ _ _ Hn).
Qed.

Lemma changeValue_absent m t key newValue :
  holds m [] t →
  locate compare equals key [] t = None →
  changeValue compare equals key newValue m = Some (None, m).
Proof.
  intros H Hloc. unfold changeValue, budgeted, mbind, M_bind, get_treeRoot.
  cbv beta iota. rewrite (holds_root _ _ _ H). cbn [plug].
  rewrite (findNode_locate _ _ _ _ _ _ _ H) by by apply holds_budget.
  by rewrite Hloc.
Qed.

Lemma returns_changeValue m t key newValue cx a c l k v r :
  holds m [] t →
  locate compare equals key [] t = Some (cx, Node a c l k v r) →
  returns (changeValue compare equals key newValue) m (λ x m',
    x = Some v ∧ holds m' [] (plug cx (Node a c l k newValue r)) ∧
    aside m' = aside m).
Proof.
  intros H Hloc. apply returns_budgeted.
  apply returns_bind, returns_get_treeRoot. rewrite (holds_root _ _ _ H). simpl.
  apply returns_bind, returns_findNode; [done|]. rewrite Hloc. simpl.
  destruct (locate_holds _ _ _ _ _ _ H Hloc) as (Hn & _ & _).
  run_load.
  apply returns_bind; eapply returns_set_nodeValue; [exact Hn|]; intros m1 H1 Ha1.
  apply returns_ret. split; [done|]. split; [by apply holds_whole|done].
Qed.

(** ** getSortedList *)

Lemma fillLists_entries fuel m cx t (kl : option (list K)) (vl : option (list V)) :
  holds m cx t → (height t < fuel)%nat →
  fillLists fuel (root t) kl vl m
  = Some (((λ ks, ks ++ keys t) <$> kl, (λ vs, vs ++ values t) <$> vl), m).
Proof.
  revert cx t kl vl. induction fuel as [|fuel IH]; intros cx t kl vl H Hfuel;
    [inversion Hfuel|].
  destruct t as [|a c l k v r]; cbn [fillLists root].
  { unfold keys, values. simpl. destruct kl, vl; simpl; by rewrite ?app_nil_r. }
  unfold mbind, M_bind. rewrite (load_focus _ _ _ _ _ _ _ _ H). simpl in Hfuel |- *.
  rewrite (IH (InLeft a c k v r :: cx) l) by (first [by apply holds_down_l|lia]).
  rewrite (IH (InRight a c l k v :: cx) r) by (first [by apply holds_down_r|lia]).
  unfold keys, values. simpl. rewrite !fmap_app. simpl.
  destruct kl, vl; simpl; by rewrite <- ?(assoc (++)).
Qed.

End Public.

(** * The entries of the tree, in order *)

Section Entries.
#[local] Arguments rebalanceDelete_tree : simpl never.
#[local] Arguments rebalanceInsert_tree : simpl never.
Context {K V : Type}.
Variable compare : K → K → Z.
Implicit Types (t l r : @tree K V) (cx : list (@frame K V)).

Lemma entries_fill f t :
  entries (fill f t) = entries_before [f] ++ entries t ++ entries_after [f].
Proof.
  destruct f; simpl; rewrite ?app_nil_r; [done|].
  by rewrite <- (assoc (++)).
Qed.

Lemma entries_plug cx t :
  entries (plug cx t) = entries_before cx ++ entries t ++ entries_after cx.
Proof.
  revert t. induction cx as [|f cx IH]; intros t; simpl.
  - by rewrite app_nil_r.
  - rewrite IH. destruct f; simpl; rewrite <- ?(assoc (++)); done.
Qed.

Lemma entries_paint_tree c t : entries (paint_tree c t) = entries t.
Proof. by destruct t. Qed.

Lemma entries_before_app cx1 cx2 :
  entries_before (cx1 ++ cx2) = entries_before cx2 ++ entries_before cx1.
Proof.
  induction cx1 as [|f cx1 IH]; simpl; [by rewrite app_nil_r|].
  destruct f; [done|]. by rewrite IH, <- ?app_assoc.
Qed.

Lemma entries_after_app cx1 cx2 :
  entries_after (cx1 ++ cx2) = entries_after cx1 ++ entries_after cx2.
Proof.
  induction cx1 as [|f cx1 IH]; simpl; [done|].
  destruct f; [|done]. by rewrite IH, <- app_comm_cons, <- ?app_assoc.
Qed.

End Entries.

Ltac entries_solve :=
  repeat first
    [ rewrite entries_plug
    | rewrite entries_paint_tree
    | rewrite entries_fill
    | progress cbn [entries entries_before entries_after app]
    | rewrite <- app_assoc
    | rewrite app_nil_r ];
  reflexivity.

Section EntriesRebalance.
#[local] Arguments rebalanceDelete_tree : simpl never.
#[local] Arguments rebalanceInsert_tree : simpl never.
Context {K V : Type}.
Variable compare : K → K → Z.
Implicit Types (t l r : @tree K V) (cx : list (@frame K V)).

Lemma entries_rebalanceInsert_tree cx t :
  entries (rebalanceInsert_tree cx t) = entries (plug cx t).
Proof.
  remember (length cx) as n eqn:Hn. revert cx t Hn.
  induction (lt_wf n) as [n _ IH]. intros cx t ->.
  rewrite rebalanceInsert_tree_eq.
  destruct t as [|a [] l k v r]; [done..|].
  destruct cx as [|pf [|gf cx']]; [done..|].
  destruct (frame_color pf); [done|].
  destruct gf, (is_red _), pf;
    try rewrite (IH (length cx') ltac:(simpl; lia) cx' _ eq_refl); entries_solve.
Qed.

Lemma entries_rebalanceDelete_left again cx p pc pk pv t sib T :
  (∀ t' T', again t' = Some T' → entries T' = entries (plug cx t')) →
  rebalanceDelete_left again cx p pc pk pv t sib = Some T →
  entries T = entries (plug cx (Node p pc t pk pv sib)).
Proof.
  intros Hagain HT. destruct sib as [|s sc sl sk sv sr]; [done|]. simpl in HT.
  destruct (negb (is_red sl) && negb (is_red sr)).
  - rewrite (Hagain _ _ HT). entries_solve.
  - destruct sl as [|y [] yl yk yv yr]; injection HT as <-; entries_solve.
Qed.

Lemma entries_rebalanceDelete_right again cx p pc pk pv t sib T :
  (∀ t' T', again t' = Some T' → entries T' = entries (plug cx t')) →
  rebalanceDelete_right again cx p pc pk pv sib t = Some T →
  entries T = entries (plug cx (Node p pc sib pk pv t)).
Proof.
  intros Hagain HT. destruct sib as [|s sc sl sk sv sr]; [done|]. simpl in HT.
  destruct (negb (is_red sl) && negb (is_red sr)).
  - rewrite (Hagain _ _ HT). entries_solve.
  - destruct sr as [|y [] yl yk yv yr]; injection HT as <-; entries_solve.
Qed.

Lemma entries_rebalanceDelete_tree cx t T :
  rebalanceDelete_tree cx t = Some T → entries T = entries (plug cx t).
Proof.
  revert t T. induction cx as [|f cx' IH]; intros t T HT.
  { by injection HT as <-. }
  rewrite rebalanceDelete_tree_eq in HT.
  destruct f as [p pc pk pv sib|p pc sib pk pv];
    (destruct (is_red t); [injection HT as <-; entries_solve|]).
  - destruct sib as [|s [] sl sk sv sr]; [done|..].
    + apply entries_rebalanceDelete_left in HT; [|exact IH].
      rewrite HT. entries_solve.
    + apply entries_rebalanceDelete_left in HT.
      * rewrite HT. entries_solve.
      * intros t' T' [= <-]. entries_solve.
  - destruct sib as [|s [] sl sk sv sr]; [done|..].
    + apply entries_rebalanceDelete_right in HT; [|exact IH].
      rewrite HT. entries_solve.
    + apply entries_rebalanceDelete_right in HT.
      * rewrite HT. entries_solve.
      * intros t' T' [= <-]. entries_solve.
Qed.

Lemma plug_place key cx t n :
  plug (place compare key cx t) n = plug cx (attach compare key n t).
Proof.
  revert cx. induction t as [|a c l IHl k v r IHr]; intros cx; simpl; [done|].
  destruct (_ <? _); [apply IHl|apply IHr].
Qed.

Lemma entries_splice_tree cx c child T :
  splice_tree cx c child = Some T → entries T = entries (plug cx child).
Proof.
  destruct c; simpl; [apply entries_rebalanceDelete_tree|by intros [= <-]].
Qed.

Lemma leftmost_tree_before cx0 r cx2 s :
  leftmost_tree cx0 r = (cx2, s) → entries_before cx2 = entries_before cx0.
Proof.
  revert cx0. induction r as [|a c l IHl k v r' _]; intros cx0 Heq.
  - by injection Heq as <-.
  - destruct l as [|la lc ll lk lv lr].
    + by injection Heq as <-.
    + by apply (IHl (InLeft a c k v r' :: cx0)).
Qed.

Lemma leftmost_tree_entries cx2 r s sc sk sv sr :
  leftmost_tree [] r = (cx2, Node s sc Leaf sk sv sr) →
  entries_before cx2 = [] ∧ entries r = (sk, sv) :: entries sr ++ entries_after cx2.
Proof.
  intros Heq. pose proof (leftmost_tree_plug [] r) as Hp. rewrite Heq in Hp.
  simpl in Hp. pose proof (leftmost_tree_before _ _ _ _ Heq) as Hb. simpl in Hb.
  split; [done|]. rewrite <- Hp, entries_plug, Hb. done.
Qed.

Lemma entries_unlinkNode_tree cx a c l k v r T :
  unlinkNode_tree cx (Node a c l k v r) = Some T →
  entries T = entries_before cx ++ entries l ++ entries r ++ entries_after cx.
Proof.
  intros HT.
  destruct l as [|la lc ll lk lv lr].
  { apply entries_splice_tree in HT. rewrite HT. entries_solve. }
  destruct r as [|ra rc rl rk rv rr].
  { apply entries_splice_tree in HT. rewrite HT. entries_solve. }
  apply unlinkNode_tree_two in HT as (cx2 & s & sc & sk & sv & sr & Heq & _ & HT).
  apply entries_splice_tree in HT. rewrite HT.
  apply leftmost_tree_entries in Heq as [Hb ->].
  rewrite entries_plug, entries_before_app, entries_after_app, Hb.
  entries_solve.
Qed.

End EntriesRebalance.

(** * Ordering of the keys *)

Section Pairwise.
#[local] Arguments rebalanceDelete_tree : simpl never.
#[local] Arguments rebalanceInsert_tree : simpl never.
Context {A : Type}.
Implicit Types (R : A → A → Prop) (l : list A).

Lemma pairwise_Permutation R l l' : l ≡ₚ l' → pairwise R l → pairwise R l'.
Proof.
  intros Hp Hl i j x y Hi Hj Hij.
  symmetry in Hp. apply Permutation_inj in Hp as (_ & f & Hf & Hlook).
  rewrite Hlook in Hi, Hj. eapply Hl; [done..|]. intros Heq. by apply Hf in Heq.
Qed.

Lemma pairwise_app R l1 l2 :
  pairwise R (l1 ++ l2) →
  pairwise R l1 ∧ pairwise R l2 ∧ ∀ x y, x ∈ l1 → y ∈ l2 → R x y ∧ R y x.
Proof.
  intros H. split_and!.
  - intros i j x y Hi Hj Hij. eapply (H i j); [by apply lookup_app_l_Some..|done].
  - intros i j x y Hi Hj Hij.
    eapply (H (length l1 + i)%nat (length l1 + j)%nat);
      [by rewrite lookup_app_r, Nat.add_comm, Nat.add_sub by lia..|lia].
  - intros x y Hx Hy.
    apply list_elem_of_lookup in Hx as [i Hi]. apply list_elem_of_lookup in Hy as [j Hj].
    pose proof (lookup_lt_Some _ _ _ Hi).
    split.
    + eapply (H i (length l1 + j)%nat); [by apply lookup_app_l_Some| |lia].
      by rewrite lookup_app_r, Nat.add_comm, Nat.add_sub by lia.
    + eapply (H (length l1 + j)%nat i); [|by apply lookup_app_l_Some|lia].
      by rewrite lookup_app_r, Nat.add_comm, Nat.add_sub by lia.
Qed.

Lemma pairwise_cons R x l :
  pairwise R (x :: l) → pairwise R l ∧ ∀ y, y ∈ l → R x y ∧ R y x.
Proof.
  intros H. apply (pairwise_app R [x] l) in H as (_ & ? & H). split; [done|].
  intros y Hy. apply H; [by apply list_elem_of_singleton|done].
Qed.

Lemma pairwise_mono (R R' : A → A → Prop) l :
  (∀ x y, R x y → R' x y) → pairwise R l → pairwise R' l.
Proof. intros HR H i j x y Hi Hj Hij. eauto. Qed.

Lemma StronglySorted_pairwise R l :
  StronglySorted R l → pairwise (λ x y, R x y ∨ R y x) l.
Proof.
  induction 1 as [|x l Hl IH Hx]; intros i j a b Hi Hj Hij; [done|].
  rewrite Forall_forall in Hx.
  destruct i as [|i], j as [|j]; simpl in *; simplify_eq.
  - left. apply Hx. by eapply list_elem_of_lookup_2.
  - right. apply Hx. by eapply list_elem_of_lookup_2.
  - eapply (IH i j); eauto.
Qed.

End Pairwise.

Section Order.
#[local] Arguments rebalanceDelete_tree : simpl never.
#[local] Arguments rebalanceInsert_tree : simpl never.
Context {K V : Type}.
Variable compare : K → K → Z.
Variable equals : K → K → bool.
Implicit Types (t l r : @tree K V) (cx : list (@frame K V)).

(** [compare] is a three-way comparison for a total preorder. *)
Hypothesis compare_antisym : ∀ a b, compare a b < 0 ↔ 0 < compare b a.
Hypothesis compare_trans :
  ∀ a b c, compare a b ≤ 0 → compare b c ≤ 0 → compare a c ≤ 0.

#[local] Abbreviation before := (before compare).

Lemma compare_zero_sym a b : compare a b = 0 → compare b a = 0.
Proof.
  intros H. pose proof (compare_antisym a b). pose proof (compare_antisym b a). lia.
Qed.

Lemma before_trans a b c : before a b → before b c → before a c.
Proof.
  unfold before. intros Hab Hbc.
  pose proof (compare_trans a b c).
  destruct (Z.lt_trichotomy (compare a c) 0) as [?|[Hz|Hp]]; [done|..].
  - apply compare_zero_sym in Hz. pose proof (compare_trans c a b).
    apply compare_antisym in Hbc. apply compare_antisym in Hbc. 
    pose proof (compare_antisym b c). lia.
  - lia.
Qed.

#[local] Instance before_Transitive : Transitive before.
Proof. intros a b c. apply before_trans. Qed.

Lemma before_irrefl a : ¬ before a a.
Proof. unfold before. intros H. pose proof (compare_antisym a a). lia. Qed.

Lemma before_zero_l a b c : compare a b = 0 → before b c → before a c.
Proof.
  unfold before. intros Hab Hbc.
  pose proof (compare_trans a b c).
  destruct (Z.lt_trichotomy (compare a c) 0) as [?|[Hz|Hp]]; [done|..].
  - apply compare_zero_sym in Hz. pose proof (compare_trans c a b).
    pose proof (compare_antisym b c). lia.
  - lia.
Qed.

Lemma before_zero_r a b c : before a b → compare b c = 0 → before a c.
Proof.
  unfold before. intros Hab Hbc.
  pose proof (compare_trans a b c).
  destruct (Z.lt_trichotomy (compare a c) 0) as [?|[Hz|Hp]]; [done|..].
  - apply compare_zero_sym in Hz. pose proof (compare_trans b c a).
    pose proof (compare_antisym a b). lia.
  - lia.
Qed.

Lemma keys_Node a c l k v r : keys (Node a c l k v r) = keys l ++ k :: keys r.
Proof. unfold keys. simpl. by rewrite fmap_app. Qed.

Lemma sorted_bst_ordered t : StronglySorted before (keys t) → bst_ordered compare t.
Proof.
  induction t as [|a c l IHl k v r IHr]; [done|].
  rewrite keys_Node. intros H. apply StronglySorted_app in H as (Hlr & Hl & Hr).
  apply StronglySorted_cons in Hr as [Hk Hr]. rewrite Forall_forall in Hk.
  simpl. split_and!; [|  |by apply IHl|by apply IHr].
  - intros x Hx. apply Hlr; [done|left].
  - intros x Hx. apply Hk in Hx. apply compare_antisym in Hx. lia.
Qed.

Lemma bst_ordered_sorted t :
  bst_ordered compare t →
  pairwise (λ x y, compare x y ≠ 0) (keys t) →
  StronglySorted before (keys t).
Proof.
  induction t as [|a c l IHl k v r IHr]; [constructor|].
  rewrite keys_Node. intros (Hlk & Hkr & Hl & Hr) Hp.
  apply pairwise_app in Hp as (Hpl & Hpr & Hplr).
  apply pairwise_cons in Hpr as (Hpr & Hpk).
  assert (∀ y, y ∈ keys r → before k y) as Hkr'.
  { intros y Hy. apply compare_antisym. specialize (Hkr y Hy).
    destruct (Hpk y Hy) as [_ ?]. lia. }
  apply StronglySorted_app. split_and!.
  - intros x y Hx Hy. apply elem_of_cons in Hy as [->|Hy]; [by apply Hlk|].
    eapply before_trans; [by apply Hlk|by apply Hkr'].
  - by apply IHl.
  - apply StronglySorted_cons. split; [by apply Forall_forall|by apply IHr].
Qed.

(** ** The loop of addEntry keeps the keys sorted *)

Lemma entries_attach key n t :
  ∃ e1 e2, entries t = e1 ++ e2 ∧ entries (attach compare key n t) = e1 ++ entries n ++ e2.
Proof.
  induction t as [|a c l IHl k v r IHr]; simpl.
  - exists [], []. simpl. by rewrite app_nil_r.
  - destruct (_ <? _); simpl.
    + destruct IHl as (e1 & e2 & -> & ->). exists e1, (e2 ++ (k, v) :: entries r).
      by rewrite <- ?app_assoc.
    + destruct IHr as (e1 & e2 & -> & ->). exists (entries l ++ (k, v) :: e1), e2.
      by rewrite <- ?app_assoc.
Qed.

Lemma keys_attach_sorted key n t :
  keys n = [key] →
  StronglySorted before (keys t) →
  (∀ x, x ∈ keys t → compare key x ≠ 0) →
  StronglySorted before (keys (attach compare key n t)).
Proof.
  intros Hn. induction t as [|a c l IHl k v r IHr]; simpl.
  { intros _ _. rewrite Hn. repeat constructor. }
  rewrite keys_Node. intros H Hne.
  apply StronglySorted_app in H as (Hlr & Hl & Hr).
  apply StronglySorted_cons in Hr as [Hk Hr]. rewrite Forall_forall in Hk.
  assert (∀ x, x ∈ keys (attach compare key n l) → x = key ∨ x ∈ keys l) as Hinl.
  { intros x. unfold keys. destruct (entries_attach key n l) as (e1 & e2 & -> & ->).
    fold (keys n). rewrite !fmap_app. fold (keys n). rewrite Hn. set_solver. }
  assert (∀ x, x ∈ keys (attach compare key n r) → x = key ∨ x ∈ keys r) as Hinr.
  { intros x. unfold keys. destruct (entries_attach key n r) as (e1 & e2 & -> & ->).
    rewrite !fmap_app. fold (keys n). rewrite Hn. set_solver. }
  destruct (compare key k <? 0) eqn:Hc; rewrite keys_Node.
  - apply Z.ltb_lt in Hc.
    apply StronglySorted_app. split_and!.
    + intros x y Hx Hy. apply Hinl in Hx as [->|Hx].
      * apply elem_of_cons in Hy as [->|Hy]; [done|].
        eapply before_trans; [exact Hc|by apply Hk].
      * apply Hlr; [done|]. done.
    + apply IHl; [done|]. intros x Hx. apply Hne. set_solver.
    + apply StronglySorted_cons. by rewrite Forall_forall.
  - apply Z.ltb_ge in Hc.
    assert (before k key) as Hkk.
    { apply compare_antisym. assert (compare key k ≠ 0) by (apply Hne; set_solver). lia. }
    apply StronglySorted_app. split_and!.
    + intros x y Hx Hy. apply elem_of_cons in Hy as [->|Hy]; [apply Hlr; [done|left]|].
      apply Hinr in Hy as [->|Hy].
      * eapply before_trans; [|exact Hkk]. apply Hlr; [done|left].
      * apply Hlr; [done|by right].
    + done.
    + apply StronglySorted_cons. split.
      * apply Forall_forall. intros y Hy. apply Hinr in Hy as [->|Hy]; auto.
      * apply IHr; [done|]. intros x Hx. apply Hne. set_solver.
Qed.

End Order.

(** * Colours and black-heights: insertion *)

Section Colours.
#[local] Arguments rebalanceDelete_tree : simpl never.
#[local] Arguments rebalanceInsert_tree : simpl never.
Context {K V : Type}.
Implicit Types (t l r : @tree K V) (cx : list (@frame K V)).

Lemma black_height_counts h t x : black_height h t → x ∈ black_counts t → x = h.
Proof.
  revert h x. induction t as [|a c l IHl k v r IHr]; intros h x; simpl.
  - intros -> Hx. by apply list_elem_of_singleton in Hx.
  - intros H Hx. apply list_elem_of_fmap in Hx as (y & -> & Hy).
    destruct c, h as [|h']; simpl; try done; destruct H as [Hl Hr];
      apply elem_of_app in Hy as [Hy|Hy];
      first [ f_equal; by eapply IHl | f_equal; by eapply IHr
            | by eapply IHl | by eapply IHr ].
Qed.

Lemma black_height_balanced h t : black_height h t → black_balanced t.
Proof.
  intros H x y Hx Hy.
  by rewrite (black_height_counts _ _ _ H Hx), (black_height_counts _ _ _ H Hy).
Qed.

Lemma black_counts_nonempty t : ∃ x, x ∈ black_counts t.
Proof.
  induction t as [|a c l [x Hx] k v r _]; simpl.
  - exists O. left.
  - exists (count_black c x). apply list_elem_of_fmap. exists x. split; [done|].
    apply elem_of_app. by left.
Qed.

Lemma counts_black_height h t : (∀ x, x ∈ black_counts t → x = h) → black_height h t.
Proof.
  revert h. induction t as [|a c l IHl k v r IHr]; intros h H; simpl in *.
  - symmetry. apply H. left.
  - assert (∀ y, y ∈ black_counts l ++ black_counts r → count_black c y = h) as H'.
    { intros y Hy. apply H, list_elem_of_fmap. eauto. }
    destruct c; simpl in H'.
    + destruct h as [|h'].
      * destruct (black_counts_nonempty l) as [x Hx].
        specialize (H' x ltac:(apply elem_of_app; auto)). done.
      * split; [apply IHl|apply IHr]; intros x Hx;
          specialize (H' x ltac:(apply elem_of_app; auto)); lia.
    + split; [apply IHl|apply IHr]; intros x Hx; apply H', elem_of_app; auto.
Qed.

Lemma black_balanced_height t : black_balanced t → ∃ h, black_height h t.
Proof.
  intros H. destruct (black_counts_nonempty t) as [h Hh].
  exists h. apply counts_black_height. intros x Hx. by apply H.
Qed.

Lemma black_height_paint_tree h c t :
  black_height h t → t ≠ Leaf →
  black_height (count_black c (h - (if is_red t then 0 else 1))) (paint_tree c t).
Proof.
  destruct t as [|a [] l k v r]; [done|..]; simpl; intros H _.
  - destruct h as [|h']; [done|]. simpl. rewrite Nat.sub_0_r. by destruct c.
  - rewrite Nat.sub_0_r. by destruct c.
Qed.

Lemma no_red_red_paint_black t : no_red_red_below t → no_red_red (paint_tree AT_MAP_BLACK t).
Proof. destruct t; [done|]. simpl. intros [? ?]. done. Qed.

Lemma no_red_red_below_weaken t : no_red_red t → no_red_red_below t.
Proof. destruct t; [done|]. simpl. tauto. Qed.

(** A tree that fits its context makes a red-black tree, but for the
    colour of the root. *)
Lemma plug_balanced h cx t :
  ctx_balanced h cx → black_height h t → no_red_red t →
  (is_red t = true → ctx_color cx = AT_MAP_BLACK) →
  ∃ h', black_height h' (plug cx t) ∧ no_red_red (plug cx t).
Proof.
  revert h t. induction cx as [|f cx' IH]; intros h t Hcx Hh Hrr Hred; simpl.
  { eauto. }
  destruct f as [a c k v s|a c s k v]; simpl in Hcx, Hred;
    destruct Hcx as (Hs & Hsrr & Hc & Hcx');
    (eapply IH; [exact Hcx'| | |]; simpl).
  - destruct c; simpl; done.
  - split_and!; [|done..]. intros ->. split; [|by apply Hc].
    destruct (is_red t); [by specialize (Hred eq_refl)|done].
  - destruct c; [done|]. intros _. by apply Hc.
  - destruct c; simpl; done.
  - split_and!; [|done..]. intros ->. split; [by apply Hc|].
    destruct (is_red t); [by specialize (Hred eq_refl)|done].
  - destruct c; [done|]. intros _. by apply Hc.
Qed.

(** The position that the loop of addEntry stops at takes a red leaf. *)
Lemma place_balanced (compare : K → K → Z) key h cx t :
  ctx_balanced h cx → black_height h t → no_red_red t →
  (is_red t = true → ctx_color cx = AT_MAP_BLACK) →
  ctx_balanced 0 (place compare key cx t).
Proof.
  revert h cx. induction t as [|a c l IHl k v r IHr]; intros h cx Hcx Hh Hrr Hred; simpl.
  { simpl in Hh. by subst. }
  simpl in Hrr. destruct Hrr as (Hc & Hl & Hr).
  destruct (_ <? _).
  - destruct c; simpl in Hh.
    + destruct h as [|h']; [done|]. destruct Hh as [Hhl Hhr].
      eapply (IHl h'); [simpl|done|done|done]. split_and!; done.
    + destruct Hh as [Hhl Hhr].
      eapply (IHl h); [simpl|done|done|].
      * split_and!; [done..| |done]. intros _. split; [by apply Hc|by apply Hred].
      * intros Hlred. destruct Hc as [Hc _]; [done|]. congruence.
  - destruct c; simpl in Hh.
    + destruct h as [|h']; [done|]. destruct Hh as [Hhl Hhr].
      eapply (IHr h'); [simpl|done|done|done]. split_and!; done.
    + destruct Hh as [Hhl Hhr].
      eapply (IHr h); [simpl|done|done|].
      * split_and!; [done..| |done]. intros _. split; [by apply Hc|by apply Hred].
      * intros Hrred. destruct Hc as [_ Hc]; [done|]. congruence.
Qed.

Lemma rebalanceInsert_tree_balanced h cx t :
  ctx_balanced h cx → black_height h t → no_red_red t →
  ∃ h', black_height h' (rebalanceInsert_tree cx t) ∧
        no_red_red_below (rebalanceInsert_tree cx t).
Proof.
  remember (length cx) as n eqn:Hn. revert h cx t Hn.
  induction (lt_wf n) as [n _ IH]. intros h cx t -> Hcx Hh Hrr.
  assert (∀ h cx t, ctx_balanced h cx → black_height h t → no_red_red t →
                    (is_red t = true → ctx_color cx = AT_MAP_BLACK) →
                    ∃ h', black_height h' (plug cx t) ∧ no_red_red_below (plug cx t))
    as Hplug.
  { intros h0 cx0 t0 ? ? ? ?.
    destruct (plug_balanced h0 cx0 t0) as (h' & ? & ?); [done..|].
    exists h'. split; [done|by apply no_red_red_below_weaken]. }
  rewrite rebalanceInsert_tree_eq.
  destruct t as [|a [] l k v r]; [by apply (Hplug h)..|].
  destruct cx as [|pf [|gf cx']]; [by apply (Hplug h)| |].
  { destruct pf as [p pc pk pv s|p pc s pk pv]; simpl in *;
      destruct Hcx as (? & ? & ? & _), Hh, Hrr as (? & ? & ?);
      exists (count_black pc h); (split; [by destruct pc|done]). }
  destruct (frame_color pf) eqn:Hpc.
  { apply (Hplug h); [done..|]. intros _. done. }
  simpl in Hh. destruct Hh as [Hhl Hhr].
  simpl in Hrr. destruct Hrr as (Hred & Hl & Hr). destruct Hred as [Hlr Hrrd]; [done|].
  destruct gf as [g gc gk gv u|g gc u gk gv];
    destruct pf as [p pc pk pv s|p pc s pk pv]; simpl in Hpc; subst pc;
    simpl in Hcx; destruct Hcx as (Hhs & Hs & Hsc & Hhu & Hu & Hgc & Hcx');
    destruct Hsc as [Hsr Hg]; try done; simpl in Hg; subst gc; simpl in Hcx';
    destruct (is_red u) eqn:Hur.
  all: try (eapply (IH (length cx')); [simpl; lia|done|exact Hcx'|..]; simpl;
            destruct u as [|ua [] ul uk uv ur]; try done; simpl in *;
            destruct Hhu, Hu as (? & ? & ?); by split_and!).
  all: eapply (Hplug (S h)); [done|simpl; by split_and!|simpl; split_and!; done|done].
Qed.

End Colours.

(** * Colours and black-heights: deletion *)

Ltac rb_simpl :=
  simpl in *;
  repeat match goal with
  | H : ?c = ?c → _ |- _ => specialize (H eq_refl)
  | H : _ ∧ _ |- _ => destruct H
  | H : AT_MAP_BLACK = AT_MAP_RED |- _ => discriminate H
  | H : AT_MAP_RED = AT_MAP_BLACK |- _ => discriminate H
  | H : true = false |- _ => discriminate H
  | H : false = true |- _ => discriminate H
  | H : False |- _ => destruct H
  | H : ?h = O |- _ => is_var h; subst h; simpl in *
  | H : O = ?h |- _ => is_var h; subst h; simpl in *
  end.

Ltac rb_solve :=
  rb_simpl; split_and?;
  first [ done | congruence | intros; rb_simpl; split_and?; first [ done | congruence ] ].

Section ColoursDelete.
#[local] Arguments rebalanceDelete_tree : simpl never.
#[local] Arguments rebalanceInsert_tree : simpl never.
Context {K V : Type}.
Implicit Types (t l r : @tree K V) (cx : list (@frame K V)).

Lemma balanced_result_plug h cx t :
  ctx_balanced h cx → black_height h t → no_red_red t →
  (is_red t = true → ctx_color cx = AT_MAP_BLACK) →
  balanced_result (Some (plug cx t)).
Proof.
  intros. destruct (plug_balanced h cx t) as (h' & ? & ?); [done..|].
  exists (plug cx t). split; [done|]. exists h'. split; [done|].
  by apply no_red_red_below_weaken.
Qed.

Lemma black_height_S_Node h t : black_height (S h) t → t ≠ Leaf.
Proof. by destruct t. Qed.

Lemma rebalanceDelete_left_balanced again cx p pc pk pv t sib h :
  black_height h t → no_red_red_below t → is_red t = false →
  black_height (S h) sib → no_red_red sib → is_red sib = false →
  ctx_balanced (count_black pc (S h)) cx →
  (pc = AT_MAP_RED → ctx_color cx = AT_MAP_BLACK) →
  (∀ s sl sk sv sr,
     black_height h sl → black_height h sr → no_red_red sl → no_red_red sr →
     is_red sl = false → is_red sr = false →
     balanced_result (again (Node p pc t pk pv (Node s AT_MAP_RED sl sk sv sr)))) →
  balanced_result (rebalanceDelete_left again cx p pc pk pv t sib).
Proof.
  intros Hht Htb Htr Hhs Hsrr Hsb Hcx Hpc Hagain.
  assert (no_red_red t) as Htrr.
  { destruct t as [|? [] ? ? ? ?]; simpl in *; done. }
  destruct sib as [|s [] sl sk sv sr]; [done| |done].
  cbn [rebalanceDelete_left].
  destruct (is_red sl) eqn:Hlr; cbn [negb andb].
  - destruct sl as [|x [] xl xk xv xr]; try done.
    eapply (balanced_result_plug (count_black pc (S h))); [done|..].
    + destruct pc; rb_solve.
    + rb_solve.
    + intros Hred. apply Hpc. by destruct pc.
  - destruct (is_red sr) eqn:Hrr; cbn [negb andb].
    + destruct sr as [|y [] yl yk yv yr]; try done.
      destruct sl as [|x [] xl xk xv xr]; try done;
        (eapply (balanced_result_plug (count_black pc (S h))); [done|..];
         [ destruct pc; rb_solve | rb_solve
         | intros Hred; apply Hpc; by destruct pc ]).
    + apply Hagain; rb_solve.
Qed.

Lemma rebalanceDelete_right_balanced again cx p pc pk pv t sib h :
  black_height h t → no_red_red_below t → is_red t = false →
  black_height (S h) sib → no_red_red sib → is_red sib = false →
  ctx_balanced (count_black pc (S h)) cx →
  (pc = AT_MAP_RED → ctx_color cx = AT_MAP_BLACK) →
  (∀ s sl sk sv sr,
     black_height h sl → black_height h sr → no_red_red sl → no_red_red sr →
     is_red sl = false → is_red sr = false →
     balanced_result (again (Node p pc (Node s AT_MAP_RED sl sk sv sr) pk pv t))) →
  balanced_result (rebalanceDelete_right again cx p pc pk pv sib t).
Proof.
  intros Hht Htb Htr Hhs Hsrr Hsb Hcx Hpc Hagain.
  assert (no_red_red t) as Htrr.
  { destruct t as [|? [] ? ? ? ?]; simpl in *; done. }
  destruct sib as [|s [] sl sk sv sr]; [done| |done].
  cbn [rebalanceDelete_right].
  destruct (is_red sr) eqn:Hrr.
  - rewrite andb_false_r.
    destruct sr as [|x [] xl xk xv xr]; try done.
    eapply (balanced_result_plug (count_black pc (S h))); [done|..].
    + destruct pc; rb_solve.
    + rb_solve.
    + intros Hred. apply Hpc. by destruct pc.
  - destruct (is_red sl) eqn:Hlr; cbn [negb andb].
    + destruct sl as [|y [] yl yk yv yr]; try done.
      destruct sr as [|x [] xl xk xv xr]; try done;
        (eapply (balanced_result_plug (count_black pc (S h))); [done|..];
         [ destruct pc; rb_solve | rb_solve
         | intros Hred; apply Hpc; by destruct pc ]).
    + apply Hagain; rb_solve.
Qed.

Lemma rebalanceDelete_tree_balanced h cx t :
  ctx_balanced (S h) cx → black_height h t → no_red_red_below t →
  balanced_result (rebalanceDelete_tree cx t).
Proof.
  revert h t. induction cx as [|f cx' IH]; intros h t Hcx Hh Hrr.
  { exists t. split; [done|]. eauto. }
  rewrite rebalanceDelete_tree_eq.
  destruct (is_red t) eqn:Hred.
  { destruct t as [|a [] l k v r]; try done.
    eapply (balanced_result_plug (S h)); [done|rb_solve|rb_solve|done]. }
  assert (no_red_red t) as Htrr.
  { destruct t as [|? [] ? ? ? ?]; simpl in *; done. }
  destruct f as [p pc pk pv sib|p pc sib pk pv]; cbn [ctx_balanced] in Hcx;
    destruct Hcx as (Hhs & Hsrr & Hpc & Hcx').
  - destruct sib as [|s [] sl sk sv sr]; [done| |].
    + eapply (rebalanceDelete_left_balanced _ _ _ _ _ _ _ _ h);
        [done..|intros Hc; by destruct (Hpc Hc)|].
      intros s' sl' sk' sv' sr' ? ? ? ? ? ?.
      destruct pc.
      * eapply (IH (S h)); [done|rb_solve|rb_solve].
      * eapply (IH h); [done|rb_solve|rb_solve].
    + destruct pc; [|by destruct Hpc].
      destruct sl as [|x [] xl xk xv xr]; try (rb_simpl; done).
      eapply (rebalanceDelete_left_balanced _ _ p AT_MAP_RED _ _ _ _ h);
        [done|done|done|rb_solve|rb_solve|done|rb_solve|done|].
      * intros s' sl' sk' sv' sr' ? ? ? ? ? ?.
        eapply (balanced_result_plug (S h)); [|rb_solve|rb_solve|done].
        rb_solve.
  - destruct sib as [|s [] sl sk sv sr]; [done| |].
    + eapply (rebalanceDelete_right_balanced _ _ _ _ _ _ _ _ h);
        [done..|intros Hc; by destruct (Hpc Hc)|].
      intros s' sl' sk' sv' sr' ? ? ? ? ? ?.
      destruct pc.
      * eapply (IH (S h)); [done|rb_solve|rb_solve].
      * eapply (IH h); [done|rb_solve|rb_solve].
    + destruct pc; [|by destruct Hpc].
      destruct sr as [|x [] xl xk xv xr]; try (rb_simpl; done).
      eapply (rebalanceDelete_right_balanced _ _ p AT_MAP_RED _ _ _ _ h);
        [done|done|done|rb_solve|rb_solve|done|rb_solve|done|].
      * intros s' sl' sk' sv' sr' ? ? ? ? ? ?.
        eapply (balanced_result_plug (S h)); [|rb_solve|rb_solve|done].
        rb_solve.
Qed.

(** ** Moving the focus in a red-black tree *)

Lemma fits_down_l h cx a c l k v r :
  fits h cx (Node a c l k v r) → ∃ h', fits h' (InLeft a c k v r :: cx) l.
Proof.
  intros (Hcx & Hh & Hrr & Hred). destruct c.
  - destruct h as [|h']; [done|]. exists h'. unfold fits. rb_solve.
  - exists h. unfold fits. rb_solve.
Qed.

Lemma fits_down_r h cx a c l k v r :
  fits h cx (Node a c l k v r) → ∃ h', fits h' (InRight a c l k v :: cx) r.
Proof.
  intros (Hcx & Hh & Hrr & Hred). destruct c.
  - destruct h as [|h']; [done|]. exists h'. unfold fits. rb_solve.
  - exists h. unfold fits. rb_solve.
Qed.

Lemma fits_content h cx a c l k v r k' v' :
  fits h cx (Node a c l k v r) → fits h cx (Node a c l k' v' r).
Proof. done. Qed.

Lemma fits_leftmost h cx t cx2 s :
  fits h cx t → leftmost_tree cx t = (cx2, s) → ∃ h', fits h' cx2 s.
Proof.
  revert h cx. induction t as [|a c l IHl k v r _]; intros h cx Hf Heq.
  - injection Heq as <- <-. eauto.
  - destruct l as [|la lc ll lk lv lr].
    + injection Heq as <- <-. eauto.
    + apply fits_down_l in Hf as [h' Hf]. by eapply IHl.
Qed.

Lemma fits_locate (compare : K → K → Z) (equals : K → K → bool) h cx t key cx' n :
  fits h cx t → locate compare equals key cx t = Some (cx', n) → ∃ h', fits h' cx' n.
Proof.
  revert h cx. induction t as [|a c l IHl k v r IHr]; intros h cx Hf Hloc; [done|].
  simpl in Hloc. destruct (equals k key).
  - injection Hloc as <- <-. eauto.
  - destruct (0 <? compare key k).
    + apply fits_down_r in Hf as [h' Hf]. by eapply IHr.
    + apply fits_down_l in Hf as [h' Hf]. by eapply IHl.
Qed.

Lemma fits_whole t :
  black_balanced t → no_red_red t → ∃ h, fits h [] t.
Proof.
  intros [h Hh]%black_balanced_height Hrr. exists h. by split_and!.
Qed.

(** ** deleteNode and removeNode keep the balance *)

Lemma splice_tree_balanced h cx a c l k v r :
  fits h cx (Node a c l k v r) → l = Leaf ∨ r = Leaf →
  balanced_result (unlinkNode_tree cx (Node a c l k v r)).
Proof.
  intros (Hcx & Hh & Hrr & Hred) Hleaf.
  destruct l as [|la lc ll lk lv lr], r as [|ra rc rl rk rv rr];
    [| | |by destruct Hleaf]; cbn [unlinkNode_tree].
  - destruct c; cbn [splice_tree].
    + destruct h as [|h']; [done|].
      eapply (rebalanceDelete_tree_balanced h'); [done|rb_solve|done].
    + eapply (balanced_result_plug h); [done|rb_solve|done|done].
  - destruct c, rc, h as [|h']; try (rb_simpl; done); cbn [splice_tree].
    eapply (rebalanceDelete_tree_balanced 0); [rb_simpl; by subst|rb_solve|rb_solve].
  - destruct c, lc, h as [|h']; try (rb_simpl; done); cbn [splice_tree].
    eapply (rebalanceDelete_tree_balanced 0); [rb_simpl; by subst|rb_solve|rb_solve].
Qed.

Lemma unlinkNode_tree_balanced h cx a c l k v r :
  fits h cx (Node a c l k v r) →
  balanced_result (unlinkNode_tree cx (Node a c l k v r)).
Proof.
  intros Hf.
  destruct l as [|la lc ll lk lv lr].
  { eapply splice_tree_balanced; [done|by left]. }
  destruct r as [|ra rc rl rk rv rr].
  { eapply splice_tree_balanced; [done|by right]. }
  destruct (leftmost_tree_shape [] ra rc rl rk rv rr)
    as (cx2 & s & sc & sk & sv & sr & Heq & _).
  cbn [unlinkNode_tree]. rewrite Heq.
  apply (fits_content _ _ _ _ _ _ _ _ sk sv) in Hf.
  apply fits_down_r in Hf as [h1 Hf].
  eapply fits_leftmost in Hf as [h2 Hf]; [|by rewrite leftmost_tree_app, Heq].
  simpl in Hf.
  apply (fits_content _ _ _ _ _ _ _ _ k v) in Hf.
  apply splice_tree_balanced in Hf; [|by left].
  exact Hf.
Qed.

End ColoursDelete.

(** * The red-black invariants across insertion and deletion *)

Section PairwiseMore.
#[local] Arguments rebalanceDelete_tree : simpl never.
#[local] Arguments rebalanceInsert_tree : simpl never.
#[local] Arguments unlinkNode_tree : simpl never.
Context {A : Type}.
Implicit Types (R : A → A → Prop) (l : list A).

Lemma pairwise_cons_2 R x l :
  (∀ y, y ∈ l → R x y ∧ R y x) → pairwise R l → pairwise R (x :: l).
Proof.
  intros Hx Hl [|i] [|j] a b Ha Hb Hij; simplify_eq/=.
  - apply Hx. by eapply list_elem_of_lookup_2.
  - apply Hx. by eapply list_elem_of_lookup_2.
  - eapply Hl; [done..|]. congruence.
Qed.

Lemma pairwise_middle R x l1 l2 :
  pairwise R (l1 ++ x :: l2) →
  pairwise R (l1 ++ l2) ∧ ∀ y, y ∈ l1 ++ l2 → R x y ∧ R y x.
Proof.
  intros H. apply (pairwise_Permutation R _ (x :: l1 ++ l2)) in H.
  - by apply pairwise_cons.
  - by rewrite Permutation_middle.
Qed.

Lemma StronglySorted_middle R x l1 l2 :
  StronglySorted R (l1 ++ x :: l2) → StronglySorted R (l1 ++ l2).
Proof.
  intros (H1 & H2 & H3)%StronglySorted_app.
  apply StronglySorted_cons in H3 as [H3 H4].
  apply StronglySorted_app. split_and!; [|done..].
  intros a b Ha Hb. apply H1; [done|]. by right.
Qed.

End PairwiseMore.

Section Invariants.
#[local] Arguments rebalanceDelete_tree : simpl never.
#[local] Arguments rebalanceInsert_tree : simpl never.
#[local] Arguments unlinkNode_tree : simpl never.
Context {K V : Type}.
Variable compare : K → K → Z.
Variable equals : K → K → bool.
Hypothesis compare_antisym : ∀ a b, compare a b < 0 ↔ 0 < compare b a.
Hypothesis compare_trans :
  ∀ a b c, compare a b ≤ 0 → compare b c ≤ 0 → compare a c ≤ 0.

Implicit Types (t l r n T : @tree K V) (cx : list (@frame K V)).
Implicit Types (k key : K) (v value : V).

#[local] Abbreviation before := (before compare).
#[local] Abbreviation locate := (locate compare equals).
#[local] Abbreviation red_black := (red_black compare equals).

(** ** findNode *)

Lemma locate_plug key cx t cx' n :
  locate key cx t = Some (cx', n) → plug cx' n = plug cx t.
Proof.
  revert cx. induction t as [|a c l IHl k v r IHr]; intros cx Hloc; [done|].
  simpl in Hloc. destruct (equals k key); [by injection Hloc as <- <-|].
  destruct (0 <? _); [by rewrite (IHr _ Hloc)|by rewrite (IHl _ Hloc)].
Qed.

Lemma locate_absent key cx t :
  (∀ k, k ∈ keys t → equals k key = false) → locate key cx t = None.
Proof.
  revert cx. induction t as [|a c l IHl k v r IHr]; intros cx Hk; [done|].
  simpl. rewrite keys_Node in Hk.
  rewrite (Hk k) by (rewrite elem_of_app, elem_of_cons; auto).
  destruct (0 <? _); [apply IHr|apply IHl];
    intros x Hx; apply Hk; rewrite elem_of_app, elem_of_cons; auto.
Qed.

Lemma locate_entries key t cx a c l k v r :
  locate key [] t = Some (cx, Node a c l k v r) →
  entries t = (entries_before cx ++ entries l) ++ (k, v) :: (entries r ++ entries_after cx).
Proof.
  intros Hloc%locate_plug. simpl in Hloc. rewrite <- Hloc, entries_plug. simpl.
  by rewrite <- !app_assoc.
Qed.

(** ** addEntry *)

Lemma entries_addEntry_tree a key value t :
  ∃ e1 e2, entries t = e1 ++ e2 ∧
    entries (addEntry_tree compare a key value t) = e1 ++ (key, value) :: e2.
Proof.
  unfold addEntry_tree.
  rewrite entries_paint_tree, entries_rebalanceInsert_tree, plug_place. simpl.
  destruct (entries_attach compare key (Node a AT_MAP_RED Leaf key value Leaf) t)
    as (e1 & e2 & H1 & H2).
  exists e1, e2. by rewrite H2.
Qed.

Lemma keys_addEntry_tree a key value t :
  keys (addEntry_tree compare a key value t) ≡ₚ key :: keys t.
Proof.
  destruct (entries_addEntry_tree a key value t) as (e1 & e2 & H1 & H2).
  unfold keys. rewrite H1, H2, !fmap_app, fmap_cons. simpl.
  by rewrite Permutation_middle.
Qed.

Lemma addEntry_tree_sorted a key value t :
  StronglySorted before (keys t) →
  (∀ x, x ∈ keys t → compare key x ≠ 0) →
  StronglySorted before (keys (addEntry_tree compare a key value t)).
Proof.
  intros Hs Hk.
  assert (keys (addEntry_tree compare a key value t)
          = keys (attach compare key (Node a AT_MAP_RED Leaf key value Leaf) t)) as ->.
  { unfold keys, addEntry_tree.
    by rewrite entries_paint_tree, entries_rebalanceInsert_tree, plug_place. }
  by apply keys_attach_sorted.
Qed.

Lemma addEntry_tree_colours a key value t :
  root_black t → no_red_red t → black_balanced t →
  let T := addEntry_tree compare a key value t in
  root_black T ∧ no_red_red T ∧ black_balanced T.
Proof.
  intros Hroot Hrr [h Hh]%black_balanced_height. unfold addEntry_tree.
  destruct (rebalanceInsert_tree_balanced 0%nat (place compare key [] t)
              (Node a AT_MAP_RED Leaf key value Leaf)) as (h' & Hh' & Hbelow).
  - apply (place_balanced compare key h [] t); [done..|].
    intros Hred. unfold root_black in Hroot. congruence.
  - done.
  - done.
  - split_and!.
    + by destruct (rebalanceInsert_tree _ _) as [|? []].
    + by apply no_red_red_paint_black.
    + eapply black_height_balanced, black_height_paint_tree; [done|].
      by apply rebalanceInsert_tree_not_Leaf.
Qed.

Lemma addEntry_tree_red_black a key value t :
  red_black t →
  pairwise (λ x y, compare x y ≠ 0) (keys t) →
  (∀ x, x ∈ keys t → compare key x ≠ 0 ∧ equals key x = false ∧ equals x key = false) →
  red_black (addEntry_tree compare a key value t).
Proof.
  intros [Hord Huniq Hroot Hrr Hbal] Hpw Hk.
  destruct (addEntry_tree_colours a key value t) as (? & ? & ?); [done..|].
  split; [| |done..].
  - apply sorted_bst_ordered; [done..|]. apply addEntry_tree_sorted.
    + by apply bst_ordered_sorted.
    + intros x Hx. by apply Hk.
  - unfold unique_keys. change (pairwise (λ x y, equals x y = false)
      (keys (addEntry_tree compare a key value t))).
    eapply pairwise_Permutation; [symmetry; apply keys_addEntry_tree|].
    apply pairwise_cons_2; [|done].
    intros y Hy. split; by apply Hk.
Qed.

(** ** deleteEntry and removeEntry *)

Lemma locate_equals key cx t cx' a c l k v r :
  locate key cx t = Some (cx', Node a c l k v r) → equals k key = true.
Proof.
  revert cx. induction t as [|a0 c0 l0 IHl k0 v0 r0 IHr]; intros cx Hloc; [done|].
  simpl in Hloc. destruct (equals k0 key) eqn:He; [by simplify_eq|].
  destruct (0 <? _); [by eapply IHr|by eapply IHl].
Qed.

Lemma entries_deleteEntry_tree key t cx a c l k v r T :
  locate key [] t = Some (cx, Node a c l k v r) →
  deleteEntry_tree compare equals key t = Some T →
  ∃ e1 e2, entries t = e1 ++ (k, v) :: e2 ∧ entries T = e1 ++ e2.
Proof.
  intros Hloc HT. unfold deleteEntry_tree in HT. rewrite Hloc in HT.
  destruct (unlinkNode_tree cx _) as [T0|] eqn:HT0; [|done].
  injection HT as <-. apply entries_unlinkNode_tree in HT0.
  eexists _, _. split; [by apply (locate_entries key t cx a c)|].
  by rewrite entries_paint_tree, HT0, <- !app_assoc.
Qed.

Lemma deleteEntry_tree_colours key t cx a c l k v r :
  no_red_red t → black_balanced t →
  locate key [] t = Some (cx, Node a c l k v r) →
  ∃ T, deleteEntry_tree compare equals key t = Some T ∧
       root_black T ∧ no_red_red T ∧ black_balanced T.
Proof.
  intros Hrr Hbal Hloc.
  destruct (fits_whole t Hbal Hrr) as [h Hf].
  destruct (fits_locate _ _ _ _ _ _ _ _ Hf Hloc) as [h' Hf'].
  apply unlinkNode_tree_balanced in Hf' as (T0 & HT0 & h0 & Hh0 & Hb0).
  exists (paint_tree AT_MAP_BLACK T0). unfold deleteEntry_tree.
  rewrite Hloc, HT0. split; [done|]. split_and!.
  - by destruct T0.
  - by apply no_red_red_paint_black.
  - destruct T0 as [|a0 c0 l0 k0 v0 r0].
    + by apply (black_height_balanced 0).
    + eapply black_height_balanced.
      by apply (black_height_paint_tree h0 AT_MAP_BLACK (Node a0 c0 l0 k0 v0 r0)).
Qed.

Lemma deleteEntry_tree_red_black key t cx a c l k v r :
  red_black t →
  pairwise (λ x y, compare x y ≠ 0) (keys t) →
  locate key [] t = Some (cx, Node a c l k v r) →
  ∃ T e1 e2, deleteEntry_tree compare equals key t = Some T ∧ red_black T ∧
    entries t = e1 ++ (k, v) :: e2 ∧ entries T = e1 ++ e2.
Proof.
  intros [Hord Huniq Hroot Hrr Hbal] Hpw Hloc.
  destruct (deleteEntry_tree_colours key t cx a c l k v r)
    as (T & HT & ? & ? & ?); [done..|].
  destruct (entries_deleteEntry_tree key t cx a c l k v r T)
    as (e1 & e2 & He & HeT); [done..|].
  exists T, e1, e2. split_and!; [done| |done..].
  assert (keys t = e1.*1 ++ k :: e2.*1) as Hk.
  { unfold keys. by rewrite He, fmap_app, fmap_cons. }
  assert (keys T = e1.*1 ++ e2.*1) as HkT.
  { unfold keys. by rewrite HeT, fmap_app. }
  split; [| |done..].
  - apply sorted_bst_ordered; [done..|]. rewrite HkT.
    apply (StronglySorted_middle _ k). rewrite <- Hk.
    by apply bst_ordered_sorted.
  - unfold unique_keys in *. rewrite HkT. rewrite Hk in Huniq.
    by apply (pairwise_middle (λ x y, equals x y = false) k).
Qed.

End Invariants.

(** * Lookup when [equals] agrees with [compare] *)

Section Agreement.
#[local] Arguments rebalanceDelete_tree : simpl never.
#[local] Arguments rebalanceInsert_tree : simpl never.
#[local] Arguments unlinkNode_tree : simpl never.
Context {K V : Type}.
Variable compare : K → K → Z.
Variable equals : K → K → bool.
Hypothesis compare_antisym : ∀ a b, compare a b < 0 ↔ 0 < compare b a.
Hypothesis compare_trans :
  ∀ a b c, compare a b ≤ 0 → compare b c ≤ 0 → compare a c ≤ 0.
Hypothesis equals_compare : ∀ a b, equals a b = true ↔ compare a b = 0.

Implicit Types (t l r n T : @tree K V) (cx : list (@frame K V)).
Implicit Types (k key : K) (v value : V).

#[local] Abbreviation locate := (locate compare equals).
#[local] Abbreviation red_black := (red_black compare equals).

Lemma compare_zero_trans a b c : compare a b = 0 → compare b c = 0 → compare a c = 0.
Proof.
  intros Hab Hbc.
  pose proof (compare_zero_sym compare compare_antisym _ _ Hab).
  pose proof (compare_zero_sym compare compare_antisym _ _ Hbc).
  pose proof (compare_trans a b c). pose proof (compare_trans c b a).
  pose proof (compare_antisym a c). pose proof (compare_antisym c a). lia.
Qed.

Lemma equals_sym a b : equals a b = true → equals b a = true.
Proof.
  rewrite !equals_compare. apply compare_zero_sym, compare_antisym.
Qed.

Lemma equals_false_sym a b : equals a b = false → equals b a = false.
Proof.
  intros H. destruct (equals b a) eqn:E; [|done].
  apply equals_sym in E. congruence.
Qed.

Lemma unique_keys_compare t :
  unique_keys equals t → pairwise (λ x y, compare x y ≠ 0) (keys t).
Proof.
  apply pairwise_mono. intros x y Hxy Hc. apply equals_compare in Hc. congruence.
Qed.

Lemma red_black_sorted t : red_black t → StronglySorted (before compare) (keys t).
Proof.
  intros [Hord Huniq _ _ _]. apply bst_ordered_sorted; [done..|].
  by apply unique_keys_compare.
Qed.

(** [findNode] finds the node of every key that the tree holds. *)
Lemma locate_present key cx t k v :
  StronglySorted (before compare) (keys t) → (k, v) ∈ entries t → equals k key = true →
  ∃ cx' a c l r, locate key cx t = Some (cx', Node a c l k v r).
Proof.
  intros Hs Hin Hkey. apply equals_compare in Hkey.
  revert cx Hs Hin. induction t as [|a c l IHl k0 v0 r IHr]; intros cx Hs Hin.
  { by apply elem_of_nil in Hin. }
  rewrite keys_Node in Hs. apply StronglySorted_app in Hs as (Hlr & Hl & Hr).
  apply StronglySorted_cons in Hr as [Hk0 Hr]. rewrite Forall_forall in Hk0.
  simpl in Hin. apply elem_of_app in Hin as [Hin|Hin]; [|apply elem_of_cons in Hin as [Hin|Hin]].
  - assert (before compare k k0) as Hb.
    { apply Hlr; [|by left]. apply list_elem_of_fmap. by exists (k, v). }
    assert (before compare key k0) as Hb'.
    { eapply before_zero_l; [done..| |done].
      by apply compare_zero_sym. }
    simpl. destruct (equals k0 key) eqn:He.
    { apply equals_compare in He. unfold before in *.
      pose proof (compare_zero_sym compare compare_antisym _ _ He). lia. }
    unfold before in Hb'.
    destruct (Z.ltb_spec 0 (compare key k0)); [lia|].
    by apply IHl.
  - simplify_eq. simpl. apply equals_compare in Hkey. rewrite Hkey. by eexists _, _, _, _, _.
  - assert (before compare k0 k) as Hb.
    { apply Hk0. apply list_elem_of_fmap. by exists (k, v). }
    assert (before compare k0 key) as Hb'.
    { eapply before_zero_r; [done..|]. done. }
    simpl. destruct (equals k0 key) eqn:He.
    { apply equals_compare in He. unfold before in *. lia. }
    unfold before in Hb'. apply compare_antisym in Hb'.
    destruct (Z.ltb_spec 0 (compare key k0)); [|lia].
    by apply IHr.
Qed.

(** Once its node is unlinked, a key is no longer found. *)
Lemma locate_deleted key t cx a c l k v r T :
  unique_keys equals t →
  locate key [] t = Some (cx, Node a c l k v r) →
  deleteEntry_tree compare equals key t = Some T →
  locate key [] T = None.
Proof.
  intros Huniq Hloc HT.
  destruct (entries_deleteEntry_tree compare equals key t cx a c l k v r T)
    as (e1 & e2 & He & HeT); [done..|].
  apply locate_equals in Hloc.
  apply locate_absent. intros k' Hk'.
  unfold unique_keys, keys in *. rewrite He, fmap_app, fmap_cons in Huniq.
  apply (pairwise_middle (λ x y, equals x y = false)) in Huniq as [_ Huniq].
  rewrite HeT, fmap_app in Hk'. destruct (Huniq k' Hk') as [_ Hne]. simpl in Hne.
  destruct (equals k' key) eqn:E; [|done].
  apply equals_compare in E, Hloc.
  assert (equals k' k = true); [|congruence].
  apply equals_compare. eapply compare_zero_trans; [done|].
  by apply compare_zero_sym.
Qed.

(** A key that [findNode] does not find meets no equal key on the way
    down in [addEntry]. *)
Lemma collisions_absent key cx t :
  locate key cx t = None → collisions compare equals key t = [].
Proof.
  revert cx. induction t as [|a c l IHl k v r IHr]; intros cx Hloc; [done|].
  simpl in *. destruct (equals k key) eqn:He; [done|].
  apply equals_false_sym in He as He'. rewrite He'.
  assert (compare key k ≠ 0) by (rewrite <- equals_compare; congruence).
  destruct (Z.ltb_spec (compare key k) 0), (Z.ltb_spec 0 (compare key k)); try lia.
  - by eapply IHl.
  - rewrite app_nil_r. by eapply IHr.
Qed.

End Agreement.

(** * Sequences of insertions *)

Section Insertions.
Context {K V : Type}.
Variable compare : K → K → Z.
Variable equals : K → K → bool.
Variable new_address : gmap positive (@atMapNode K V) → positive.
Hypothesis compare_antisym : ∀ a b, compare a b < 0 ↔ 0 < compare b a.
Hypothesis compare_trans :
  ∀ a b c, compare a b ≤ 0 → compare b c ≤ 0 → compare a c ≤ 0.
Hypothesis new_address_fresh : ∀ h, h !! new_address h = None.

Implicit Types (m : @atMap K V) (t : @tree K V) (kvs : list (K * V)).

#[local] Abbreviation red_black_map := (red_black_map (V:=V) compare equals).
#[local] Abbreviation distinct_keys := (distinct_keys compare equals).

Lemma red_black_map_new : red_black_map atMap_new Leaf.
Proof.
  split; [| |done..].
  - split; simpl; [done|done|constructor|done].
  - split; [done| |done|done|].
    + intros i j x y Hx. by destruct i.
    + intros x y ->%list_elem_of_singleton ->%list_elem_of_singleton. done.
Qed.

Lemma u_long_id z : 0 ≤ z < 2 ^ 64 → u_long z = z.
Proof. intros. unfold u_long. by apply Z.mod_small. Qed.

Lemma returns_addEntries kvs m t :
  red_black_map m t →
  Z.of_nat (length (entries t) + length kvs) < 2 ^ 64 →
  distinct_keys (keys t ++ kvs.*1) →
  returns (addEntries compare equals new_address kvs) m (λ bs m',
    bs = replicate (length kvs) true ∧
    ∃ t', red_black_map m' t' ∧ entries t' ≡ₚ entries t ++ kvs).
Proof.
  revert m t. induction kvs as [|[key value] kvs IH]; intros m t Hm Hlen Hd.
  { apply returns_ret. split; [done|]. exists t. by rewrite app_nil_r. }
  destruct Hm as [Hholds Hrb Hsize Hrange].
  simpl in Hd. assert (Hd' := Hd).
  apply pairwise_app in Hd' as (Hdt & _ & Hcross).
  assert (∀ x, x ∈ keys t →
    compare key x ≠ 0 ∧ equals key x = false ∧ equals x key = false) as Hfresh.
  { intros x Hx. destruct (Hcross x key Hx) as [[? ?] [? ?]]; [by left|done]. }
  cbn [addEntries]. eapply returns_seq.
  { apply (returns_addEntry compare equals new_address new_address_fresh m t); [done|].
    apply locate_absent. intros x Hx. by apply Hfresh. }
  intros b m1 (-> & Hholds1 & Hsize1 & _ & _).
  set (t1 := addEntry_tree compare (new_address (store m)) key value t) in *.
  destruct (entries_addEntry_tree compare (new_address (store m)) key value t)
    as (e1 & e2 & He & He1). fold t1 in He1.
  assert (entries t1 ≡ₚ (key, value) :: entries t) as Hperm.
  { by rewrite He, He1, Permutation_middle. }
  assert (red_black_map m1 t1) as Hm1.
  { split; [done| | |].
    - apply addEntry_tree_red_black; [done..| |done].
      eapply pairwise_mono; [|exact Hdt]. by intros x y [? ?].
    - rewrite Hsize1, Hperm, Hsize, u_long_id; simpl in *; lia.
    - rewrite Hsize1. unfold u_long. by apply Z.mod_pos_bound. }
  eapply returns_seq.
  { apply (IH m1 t1 Hm1).
    - rewrite Hperm. simpl in *. lia.
    - eapply pairwise_Permutation; [|exact Hd].
      unfold keys. rewrite Hperm, fmap_cons. simpl.
      by rewrite Permutation_middle. }
  intros bs m2 (-> & t2 & Hm2 & Hperm2).
  apply returns_ret. split; [done|]. exists t2. split; [done|].
  rewrite Hperm2, Hperm. simpl. by rewrite Permutation_middle.
Qed.

(** C1: starting from the empty map, for every sequence of [addEntry]
    calls with keys that are pairwise distinct under both [compare] and
    [equals] (and shorter than the range of the [u_long] counter), after
    each call (the first [n] of them, for every [n]) all the calls so far
    have returned true, the tree satisfies the five red-black invariants,
    holds exactly the entries added so far, and the tracked size is the
    number of keys inserted so far. *)
Theorem addEntry_distinct_keeps_red_black kvs n :
  distinct_keys (kvs.*1) →
  Z.of_nat (length kvs) < 2 ^ 64 →
  (n ≤ length kvs)%nat →
  returns (addEntries compare equals new_address (take n kvs)) atMap_new (λ bs m,
    bs = replicate n true ∧
    ∃ t, holds m [] t ∧ red_black compare equals t ∧
         entries t ≡ₚ take n kvs ∧ treeSize m = Z.of_nat n).
Proof.
  intros Hd Hlen Hn.
  eapply returns_mono.
  { apply (returns_addEntries (take n kvs) atMap_new Leaf red_black_map_new).
    - simpl. rewrite length_take. lia.
    - simpl. rewrite <- (take_drop n kvs), fmap_app in Hd.
      by apply pairwise_app in Hd as (? & _ & _). }
  simpl. intros bs m (-> & t & [Hholds Hrb Hsize _] & Hperm).
  rewrite length_take, Nat.min_l by done. split; [done|].
  exists t. split_and!; [done..|].
  rewrite Hsize, Hperm, length_take. lia.
Qed.

End Insertions.

(** * The public member functions *)

Section Lookups.
Context {K V : Type}.
Variable compare : K → K → Z.
Variable equals : K → K → bool.
Variable new_address : gmap positive (@atMapNode K V) → positive.
Variable different_object : K → K → bool.
Hypothesis compare_antisym : ∀ a b, compare a b < 0 ↔ 0 < compare b a.
Hypothesis compare_trans :
  ∀ a b c, compare a b ≤ 0 → compare b c ≤ 0 → compare a c ≤ 0.
Hypothesis new_address_fresh : ∀ h, h !! new_address h = None.
Hypothesis equals_compare : ∀ a b, equals a b = true ↔ compare a b = 0.

Implicit Types (m : @atMap K V) (t : @tree K V) (key k : K) (v value : V).

#[local] Abbreviation locate := (locate compare equals).
#[local] Abbreviation getValue := (getValue (V:=V) compare equals).
#[local] Abbreviation containsKey := (containsKey (V:=V) compare equals).
#[local] Abbreviation addEntry := (addEntry compare equals new_address).
#[local] Abbreviation changeValue := (changeValue compare equals).
#[local] Abbreviation deleteEntry := (deleteEntry (V:=V) compare equals).
#[local] Abbreviation removeEntry := (removeEntry (V:=V) compare equals different_object).
#[local] Abbreviation present := (present (V:=V) equals).

Lemma locate_Node key cx t cx' n :
  locate key cx t = Some (cx', n) → n ≠ Leaf.
Proof.
  revert cx. induction t as [|a c l IHl k v r IHr]; intros cx Hloc; [done|].
  simpl in Hloc. destruct (equals k key); [by simplify_eq|].
  destruct (0 <? _); [by eapply IHr|by eapply IHl].
Qed.

Lemma locate_not_present key t : ¬ present key t → locate key [] t = None.
Proof.
  intros Hp. apply locate_absent. intros k Hk.
  destruct (equals k key) eqn:He; [|done]. destruct Hp. by exists k.
Qed.

Lemma locate_stored key t k v :
  bst_ordered compare t → unique_keys equals t →
  (k, v) ∈ entries t → equals k key = true →
  ∃ cx a c l r, locate key [] t = Some (cx, Node a c l k v r).
Proof.
  intros Hord Huniq Hin He.
  apply (locate_present compare equals compare_antisym compare_trans equals_compare);
    [|done..].
  apply bst_ordered_sorted; [done..|].
  by apply (unique_keys_compare compare equals equals_compare).
Qed.

(** C3: provided that [equals] agrees with [compare] (equal exactly when
    the comparison is 0), in every map that satisfies the BST-ordering
    and uniqueness invariants, [getValue] returns the value stored with
    every key that is present, and for a key that is not present
    [getValue] returns NULL and [containsKey] returns false; the map is
    left as it is. *)
Theorem getValue_present_or_absent m t key :
  holds m [] t → bst_ordered compare t → unique_keys equals t →
  (∀ k v, (k, v) ∈ entries t → equals k key = true →
          getValue key m = Some (Some v, m)) ∧
  (¬ present key t →
   getValue key m = Some (None, m) ∧ containsKey key m = Some (false, m)).
Proof.
  intros H Hord Huniq. split.
  - intros k v Hin He.
    destruct (locate_stored key t k v) as (cx & a & c & l & r & Hloc); [done..|].
    by rewrite (getValue_locate _ _ _ _ _ H), Hloc.
  - intros Hp%locate_not_present.
    by rewrite (getValue_locate _ _ _ _ _ H), (containsKey_locate _ _ _ _ _ H), Hp.
Qed.

(** C4: provided that [equals] agrees with [compare], in every map that
    satisfies the BST-ordering and uniqueness invariants, [addEntry] of a
    key equal to a stored key returns false and leaves the whole map
    (nodes, links, colours, keys, values, size) as it was. *)
Theorem addEntry_present_refused m t key value :
  holds m [] t → bst_ordered compare t → unique_keys equals t →
  present key t →
  addEntry key value m = Some (false, m).
Proof.
  intros H Hord Huniq (k & Hk & He).
  apply list_elem_of_fmap in Hk as ([k' v] & -> & Hin). simpl in He.
  destruct (locate_stored key t k' v) as (cx & a & c & l & r & Hloc); [done..|].
  apply (addEntry_present _ _ _ _ t); [done|]. by rewrite Hloc.
Qed.

(** C7: provided that [equals] agrees with [compare], no call of
    [addEntry] on a map emits the key-collision warning (nor any other
    notice): when [containsKey] has not found the key, the descent meets
    no key that [equals] the new one. *)
Theorem addEntry_never_warns m t key value :
  holds m [] t →
  returns (addEntry key value) m (λ _ m', notices m' = notices m) ∧
  (containsKey key m = Some (false, m) → collisions compare equals key t = []).
Proof.
  intros H.
  assert (locate key [] t = None → collisions compare equals key t = []) as Hcol.
  { apply (collisions_absent compare equals compare_antisym equals_compare). }
  split.
  - destruct (locate key [] t) as [[cx n]|] eqn:Hloc.
    + exists false, m. split; [|done].
      apply (addEntry_present _ _ _ _ t); [done|]. by rewrite Hloc.
    + eapply returns_mono; [by apply (returns_addEntry _ _ _ new_address_fresh m t)|].
      simpl. intros b m' (_ & _ & _ & _ & ->). by rewrite Hcol.
  - rewrite (containsKey_locate _ _ _ _ _ H). intros [= Hb].
    apply Hcol. destruct (locate key [] t) as [[cx n]|] eqn:Hloc; [|done].
    apply locate_Node in Hloc. by destruct n.
Qed.

(** C8: provided that [equals] agrees with [compare], in every map that
    satisfies the BST-ordering and uniqueness invariants: when the key is
    present, [changeValue] returns the value stored with it and stores
    the new value in its node, the rest of the tree, the size and the
    notices being as before; when the key is not present, [changeValue]
    returns NULL and leaves the whole map as it was. *)
Theorem changeValue_present_or_absent m t key newValue :
  holds m [] t → bst_ordered compare t → unique_keys equals t →
  (∀ k v, (k, v) ∈ entries t → equals k key = true →
     returns (changeValue key newValue) m (λ x m',
       x = Some v ∧ aside m' = aside m ∧
       ∃ cx a c l r, t = plug cx (Node a c l k v r) ∧
                     holds m' [] (plug cx (Node a c l k newValue r)))) ∧
  (¬ present key t → changeValue key newValue m = Some (None, m)).
Proof.
  intros H Hord Huniq. split.
  - intros k v Hin He.
    destruct (locate_stored key t k v) as (cx & a & c & l & r & Hloc); [done..|].
    eapply returns_mono; [by eapply returns_changeValue|].
    simpl. intros x m' (-> & Hm' & Ha). split_and!; [done..|].
    exists cx, a, c, l, r. split; [|done].
    symmetry. by apply (locate_plug compare equals key []).
  - intros Hp%locate_not_present. by apply (changeValue_absent _ _ _ t).
Qed.

(** C9: for every map and every key that is not present, [deleteEntry]
    returns false and [removeEntry] returns NULL, and both leave the
    whole map (nodes, links, colours, keys, values, size) as it was. *)
Theorem delete_absent_unchanged m t key :
  holds m [] t → ¬ present key t →
  deleteEntry key m = Some (false, m) ∧ removeEntry key m = Some (None, m).
Proof.
  intros H Hp%locate_not_present. split.
  - by apply (deleteEntry_absent _ _ _ t).
  - by apply (removeEntry_absent _ _ _ _ t).
Qed.

End Lookups.

(** * deleteEntry of a key that is present *)

Section Removal.
Context {K V : Type}.
Variable compare : K → K → Z.
Variable equals : K → K → bool.
Hypothesis compare_antisym : ∀ a b, compare a b < 0 ↔ 0 < compare b a.
Hypothesis compare_trans :
  ∀ a b c, compare a b ≤ 0 → compare b c ≤ 0 → compare a c ≤ 0.
Hypothesis equals_compare : ∀ a b, equals a b = true ↔ compare a b = 0.

Implicit Types (m : @atMap K V) (t : @tree K V) (key k : K) (v value : V).

#[local] Abbreviation locate := (locate compare equals).
#[local] Abbreviation getValue := (getValue (V:=V) compare equals).
#[local] Abbreviation deleteEntry := (deleteEntry (V:=V) compare equals).
#[local] Abbreviation present := (present (V:=V) equals).
#[local] Abbreviation red_black_map := (red_black_map (V:=V) compare equals).
#[local] Abbreviation before := (before compare).

(** C2: provided that [equals] agrees with [compare], for every map that
    satisfies the red-black invariants and every key present in it,
    [deleteEntry] returns true, the entry of the key is gone and the
    other entries are as before, the size is one less, the five
    invariants hold again, and [getValue] of the key then returns NULL. *)
Theorem deleteEntry_present_removed m t key :
  red_black_map m t → present key t →
  returns (deleteEntry key) m (λ b m',
    b = true ∧ treeSize m' = treeSize m - 1 ∧
    (∃ t' e1 e2 k v, red_black_map m' t' ∧ equals k key = true ∧
       entries t = e1 ++ (k, v) :: e2 ∧ entries t' = e1 ++ e2) ∧
    getValue key m' = Some (None, m')).
Proof.
  intros [H Hrb Hsize Hrange] (k & Hk & He).
  apply list_elem_of_fmap in Hk as ([k' v] & -> & Hin). simpl in He.
  destruct (locate_stored compare equals compare_antisym compare_trans equals_compare
              key t k' v) as (cx & a & c & l & r & Hloc);
    [by destruct Hrb..|done|done|].
  destruct (deleteEntry_tree_red_black compare equals compare_antisym compare_trans
              key t cx a c l k' v r) as (T & e1 & e2 & HT & HrbT & He1 & He2);
    [done| |done|].
  { apply (unique_keys_compare compare equals equals_compare). by destruct Hrb. }
  eapply returns_mono; [by eapply returns_deleteEntry|].
  simpl. intros b m' (-> & HT' & Hsize' & _ & _).
  assert (treeSize m' = treeSize m - 1) as Hs.
  { rewrite Hsize'. apply u_long_id. rewrite Hsize, He1, length_app in *.
    simpl in *. lia. }
  split_and!; [done..| |].
  - exists T, e1, e2, k', v. split_and!; [|done..].
    split; [done..| |lia].
    rewrite Hs, Hsize, He1, He2, !length_app. simpl. lia.
  - rewrite (getValue_locate _ _ _ _ _ HT').
    rewrite (locate_deleted compare equals compare_antisym compare_trans equals_compare
               key t cx a c l k' v r T); [done| |done..].
    by destruct Hrb.
Qed.

End Removal.

(** * getSortedList *)

Section Traversal.
Context {K V : Type}.
Variable compare : K → K → Z.
Variable equals : K → K → bool.
Hypothesis compare_antisym : ∀ a b, compare a b < 0 ↔ 0 < compare b a.
Hypothesis compare_trans :
  ∀ a b c, compare a b ≤ 0 → compare b c ≤ 0 → compare a c ≤ 0.
Hypothesis equals_compare : ∀ a b, equals a b = true ↔ compare a b = 0.

Implicit Types (m : @atMap K V) (t : @tree K V) (key k : K) (v value : V).

#[local] Abbreviation red_black_map := (red_black_map (V:=V) compare equals).
#[local] Abbreviation before := (before compare).

Lemma length_keys t : length (keys t) = length (entries t).
Proof. unfold keys. by rewrite length_fmap. Qed.

Lemma length_values t : length (values t) = length (entries t).
Proof. unfold values. by rewrite length_fmap. Qed.

Lemma getSortedList_empty m (kl : option (list K)) (vl : option (list V)) :
  treeSize m = 0 → getSortedList kl vl m = Some ((kl, vl), m).
Proof.
  intros Hs. unfold getSortedList, budgeted, mbind, M_bind, get_treeSize.
  by rewrite decide_True.
Qed.

Lemma getSortedList_appends m t (kl : option (list K)) (vl : option (list V)) :
  holds m [] t →
  treeSize m = Z.of_nat (length (entries t)) →
  returns (getSortedList kl vl) m (λ out m',
    out = ((λ ks, ks ++ keys t) <$> kl, (λ vs, vs ++ values t) <$> vl) ∧
    store m' = store m ∧ treeRoot m' = treeRoot m ∧ treeSize m' = treeSize m ∧
    destroyed m' = destroyed m ∧
    (treeSize m < 2 ^ 64 → (∀ ks, kl = Some ks → ks = []) →
     (∀ vs, vl = Some vs → vs = []) → m' = m)).
Proof.
  intros H Hsize.
  destruct (decide (treeSize m = 0)) as [Hz|Hnz].
  { rewrite Hz in Hsize. destruct (entries t) as [|e es] eqn:He; [|done].
    exists (kl, vl), m. split; [by apply getSortedList_empty|].
    unfold keys, values. rewrite He. simpl.
    split_and!; [|done..]. f_equal.
    - destruct kl; simpl; [|done]. by rewrite app_nil_r.
    - destruct vl; simpl; [|done]. by rewrite app_nil_r. }
  apply returns_budgeted. apply returns_bind, returns_get_treeSize.
  rewrite decide_False by done.
  pose proof (holds_root _ _ _ H) as Hroot. cbn [plug] in Hroot.
  apply returns_bind, returns_get_treeRoot. rewrite Hroot.
  apply returns_bind. eexists _, m. split.
  { eapply fillLists_entries; [exact H|]. by apply holds_budget. }
  simpl.
  assert (∀ n, Z.of_nat n = treeSize m → treeSize m < 2 ^ 64 →
               u_long (Z.of_nat n) = treeSize m) as Hu.
  { intros n Hn Hr. rewrite Hn. apply u_long_id. lia. }
  destruct kl as [ks|]; simpl.
  - destruct (decide (_ ≠ _)) as [Hne|Heq].
    + apply returns_bind. eexists tt, _. split; [done|]. apply returns_ret.
      split_and!; [done..|]. intros Hr Hks _. rewrite (Hks ks eq_refl) in Hne.
      destruct Hne. simpl. apply Hu; [|done]. by rewrite length_keys.
    + apply returns_bind, returns_ret, returns_ret. by split_and!.
  - destruct vl as [vs|]; simpl.
    + destruct (decide (_ ≠ _)) as [Hne|Heq].
      * apply returns_bind. eexists tt, _. split; [done|]. apply returns_ret.
        split_and!; [done..|]. intros Hr _ Hvs. rewrite (Hvs vs eq_refl) in Hne.
        destruct Hne. simpl. apply Hu; [|done]. by rewrite length_values.
      * apply returns_bind, returns_ret, returns_ret. by split_and!.
    + apply returns_bind, returns_ret, returns_ret. by split_and!.
Qed.

(** C5: provided that [equals] agrees with [compare], for every map that
    satisfies the invariants, [getSortedList] called with empty output
    lists (either of which may be omitted) yields the keys in strictly
    ascending order under [compare], with the values in the same order,
    each list of the length of the map's size; the map is left as it
    is and nothing is reported. *)
Theorem getSortedList_ascending m t (withKeys withValues : bool) :
  red_black_map m t →
  getSortedList (if withKeys then Some [] else None)
                (if withValues then Some [] else None) m
  = Some ((if withKeys then Some (keys t) else None,
           if withValues then Some (values t) else None), m) ∧
  StronglySorted before (keys t) ∧
  Z.of_nat (length (keys t)) = treeSize m ∧
  Z.of_nat (length (values t)) = treeSize m.
Proof.
  intros [H Hrb Hsize Hrange]. split_and!.
  - destruct (getSortedList_appends m t (if withKeys then Some [] else None)
                (if withValues then Some [] else None) H Hsize)
      as (out & m' & Hrun & -> & _ & _ & _ & _ & Hm').
    rewrite Hrun, Hm'; [|done|by destruct withKeys; intros ? [= <-]
                         |by destruct withValues; intros ? [= <-]].
    by destruct withKeys, withValues.
  - by apply (red_black_sorted compare equals compare_antisym compare_trans equals_compare).
  - by rewrite length_keys.
  - by rewrite length_values.
Qed.

(** C10: [getSortedList] only appends to the lists it is given: what
    they held stays in front, in the same order, followed by the keys
    (the values) of the map in in-order, so each list grows by the size
    of the map; nothing of the tree, the size or the destroyed items
    changes; and when [treeSize] is 0 the function returns at once, the
    lists and the whole map (its notices included) being as they were. *)
Theorem getSortedList_only_appends m t (kl : option (list K)) (vl : option (list V)) :
  holds m [] t →
  treeSize m = Z.of_nat (length (entries t)) →
  returns (getSortedList kl vl) m (λ out m',
    out = ((λ ks, ks ++ keys t) <$> kl, (λ vs, vs ++ values t) <$> vl) ∧
    Z.of_nat (length (keys t)) = treeSize m ∧
    Z.of_nat (length (values t)) = treeSize m ∧
    store m' = store m ∧ treeRoot m' = treeRoot m ∧ treeSize m' = treeSize m ∧
    destroyed m' = destroyed m) ∧
  (treeSize m = 0 → getSortedList kl vl m = Some ((kl, vl), m)).
Proof.
  intros H Hsize. split; [|apply getSortedList_empty].
  eapply returns_mono; [by apply getSortedList_appends|].
  simpl. intros out m' (-> & ? & ? & ? & ? & _).
  rewrite length_keys, length_values. by split_and!.
Qed.

End Traversal.

(** * deleteNode and removeNode at a node with two children *)

Section TwoChildren.
#[local] Arguments unlinkNode_tree : simpl never.
#[local] Arguments leftmost : simpl never.
Context {K V : Type}.
Implicit Types (m : @atMap K V) (t l r : @tree K V) (cx : list (@frame K V)).

Lemma fits_focus cx t : (∃ h, fits h [] (plug cx t)) → ∃ h, fits h cx t.
Proof.
  revert t. induction cx as [|f cx IH]; intros t Hf; [done|].
  simpl in Hf. apply IH in Hf as [h Hf]. destruct f; simpl in Hf.
  - by eapply fits_down_l.
  - by eapply fits_down_r.
Qed.

Lemma modify_focus m cx a c l k v r f c' k' v' :
  holds m cx (Node a c l k v r) →
  f (AtMapNode (root l) (root r) (ctx_addr cx) c k v)
    = AtMapNode (root l) (root r) (ctx_addr cx) c' k' v' →
  ∃ m', modify a f m = Some (tt, m') ∧
        holds m' cx (Node a c' l k' v' r) ∧ aside m' = aside m.
Proof.
  intros H Hf.
  destruct (returns_modify_content m cx a c l k v r f c' k' v'
              (λ _ m', holds m' cx (Node a c' l k' v' r) ∧ aside m' = aside m) H Hf)
    as ([] & m' & Hrun & HQ); [done|].
  by exists m'.
Qed.

(** The exchange of the keys and of the values between a node and the
    leftmost node [s] of its right subtree. *)
Lemma swap_items_focus m cx cx2 a c l k v s sc sk sv sr :
  holds m (cx2 ++ InRight a c l k v :: cx) (Node s sc Leaf sk sv sr) →
  ∃ m4,
    holds m4 (cx2 ++ InRight a c l sk sv :: cx) (Node s sc Leaf k v sr) ∧
    aside m4 = aside m ∧
    ∀ A (rest : M A),
      (modify a (set_nodeKey sk);; modify s (set_nodeKey k);;
       modify a (set_nodeValue sv);; modify s (set_nodeValue v);; rest) m
      = rest m4.
Proof.
  intros H.
  apply holds_app, holds_up_r in H.
  destruct (modify_focus m cx a c _ k v _ (set_nodeKey sk) c sk v H eq_refl)
    as (m1 & Hm1 & H1 & Ha1).
  apply holds_down_r, holds_app in H1.
  destruct (modify_focus m1 _ s sc _ sk sv _ (set_nodeKey k) sc k sv H1 eq_refl)
    as (m2 & Hm2 & H2 & Ha2).
  apply holds_app, holds_up_r in H2.
  destruct (modify_focus m2 cx a c _ sk v _ (set_nodeValue sv) c sk sv H2 eq_refl)
    as (m3 & Hm3 & H3 & Ha3).
  apply holds_down_r, holds_app in H3.
  destruct (modify_focus m3 _ s sc _ k sv _ (set_nodeValue v) sc k v H3 eq_refl)
    as (m4 & Hm4 & H4 & Ha4).
  exists m4. split; [done|]. split; [congruence|].
  intros A rest. unfold mbind, M_bind. by rewrite Hm1, Hm2, Hm3, Hm4.
Qed.

(** With at most one child, [deleteNode] and [removeNode] do not call
    themselves. *)
Lemma unlinkNode_no_left (d : bool) calls fuel m cx s sc k v sr :
  holds m cx (Node s sc Leaf k v sr) →
  unlinkNode d (S calls) fuel s m = unlinkNode d 1 fuel s m.
Proof.
  intros H. cbn [unlinkNode]. unfold mbind, M_bind.
  rewrite (getChildType_focus _ _ _ _ _ _ _ _ H), (load_focus _ _ _ _ _ _ _ _ H).
  cbn [leftChild rightChild root]. by destruct sr.
Qed.

(** C6: for every node with two children, [getInorderSuccessor] returns
    the leftmost node [s] of the right subtree of the node, which exists
    and has no left child; [deleteNode] and [removeNode] exchange the
    keys and the values of the two nodes and call themselves once, on
    [s], and that call makes no further call to itself, whatever number
    of calls it is allowed; so two calls are enough, and in a tree with
    no red-red violation and balanced black-heights the removal returns,
    the node [s] unlinked and the original key and value of the node
    removed from the tree. *)
Theorem two_children_one_recursive_call (d : bool) fuel m cx a c l k v r :
  holds m cx (Node a c l k v r) → l ≠ Leaf → r ≠ Leaf →
  (length cx + height (Node a c l k v r) < fuel)%nat →
  ∃ cx2 s sc sk sv sr m4,
    leftmost_tree [] r = (cx2, Node s sc Leaf sk sv sr) ∧
    getInorderSuccessor fuel a m = Some (Some s, m) ∧
    holds m (cx2 ++ InRight a c l k v :: cx) (Node s sc Leaf sk sv sr) ∧
    holds m4 (cx2 ++ InRight a c l sk sv :: cx) (Node s sc Leaf k v sr) ∧
    aside m4 = aside m ∧
    (∀ calls, unlinkNode d (S calls) fuel a m = unlinkNode d calls fuel s m4) ∧
    (∀ calls, unlinkNode d (S calls) fuel s m4 = unlinkNode d 1 fuel s m4) ∧
    (no_red_red (plug cx (Node a c l k v r)) →
     black_balanced (plug cx (Node a c l k v r)) →
     ∃ T, unlinkNode_tree cx (Node a c l k v r) = Some T ∧
          returns (unlinkNode d 2 fuel a) m (λ _ m', unlinked d k v m T m')).
Proof.
  intros H Hl Hr Hfuel.
  destruct l as [|la lc ll lk lv lr]; [done|].
  destruct r as [|ra rc rl rk rv rr]; [done|].
  set (l := Node la lc ll lk lv lr) in *. set (r := Node ra rc rl rk rv rr) in *.
  destruct (leftmost_tree_shape [] ra rc rl rk rv rr)
    as (cx2 & s & sc & sk & sv & sr & Heq & Hlen). fold r in Heq.
  assert (r = plug cx2 (Node s sc Leaf sk sv sr)) as Hplug.
  { pose proof (leftmost_tree_plug [] r) as Hp. by rewrite Heq in Hp. }
  assert (holds m (cx2 ++ InRight a c l k v :: cx) (Node s sc Leaf sk sv sr)) as Hs.
  { apply holds_app. rewrite <- Hplug. by apply holds_down_r. }
  assert (getInorderSuccessor fuel a m = Some (Some s, m)) as Hsucc.
  { unfold getInorderSuccessor, mbind, M_bind.
    rewrite (load_focus _ _ _ _ _ _ _ _ H). cbn [rightChild root r].
    rewrite (leftmost_focus fuel m (InRight a c l k v :: cx) r
               (cx2 ++ InRight a c l k v :: cx) s sc sk sv sr ra); [done| |done| |].
    - by apply holds_down_r.
    - by rewrite leftmost_tree_app, Heq.
    - simpl in *. lia. }
  destruct (swap_items_focus m cx cx2 a c l k v s sc sk sv sr Hs)
    as (m4 & H4 & Ha4 & Hswap).
  exists cx2, s, sc, sk, sv, sr, m4. split_and!; [done..| | |].
  - intros calls. cbn [unlinkNode]. unfold mbind at 1 2 3 4 5, M_bind at 1 2 3 4 5.
    rewrite (getChildType_focus _ _ _ _ _ _ _ _ H), (load_focus _ _ _ _ _ _ _ _ H).
    cbn [leftChild rightChild root l r nodeKey nodeValue].
    rewrite Hsucc. cbn [deref mret M_ret].
    rewrite (load_focus _ _ _ _ _ _ _ _ Hs). cbn [nodeKey nodeValue].
    apply Hswap.
  - intros calls. exact (unlinkNode_no_left d calls fuel m4 _ s sc k v sr H4).
  - intros Hrr Hbal.
    destruct (fits_focus cx (Node a c l k v r)) as [h Hf].
    { by apply fits_whole. }
    apply unlinkNode_tree_balanced in Hf as (T & HT & _).
    exists T. split; [done|].
    apply (returns_unlinkNode d 2 fuel m cx a c l k v r T); [done|done|lia|done].
Qed.

End TwoChildren.

(** * The two kinds of keys and the example maps *)

Lemma Z_compare_antisym a b : Z_compare a b < 0 ↔ 0 < Z_compare b a.
Proof. unfold Z_compare. lia. Qed.

Lemma Z_compare_trans a b c :
  Z_compare a b ≤ 0 → Z_compare b c ≤ 0 → Z_compare a c ≤ 0.
Proof. unfold Z_compare. lia. Qed.

Lemma Z_equals_compare a b : (a =? b) = true ↔ Z_compare a b = 0.
Proof. unfold Z_compare. rewrite Z.eqb_eq. lia. Qed.

Lemma tens_compare_antisym a b : tens_compare a b < 0 ↔ 0 < tens_compare b a.
Proof. unfold tens_compare. lia. Qed.

Lemma tens_compare_trans a b c :
  tens_compare a b ≤ 0 → tens_compare b c ≤ 0 → tens_compare a c ≤ 0.
Proof. unfold tens_compare. lia. Qed.

Lemma tens_equals_disagree : tens_compare 21 20 = 0 ∧ (21 =? 20) = false.
Proof. done. Qed.

Lemma fresh_address_fresh h : h !! fresh_address h = None.
Proof. unfold fresh_address. apply not_elem_of_dom. apply is_fresh. Qed.

Lemma example_map_reached :
  addEntries Z_compare Z.eqb fresh_address [(2, 20); (1, 10); (3, 30)] atMap_new
  = Some ([true; true; true], example_map).
Proof. by vm_compute. Qed.

Lemma tens_map_reached :
  addEntries tens_compare Z.eqb fresh_address [(20, 0); (21, 0)] atMap_new
  = Some ([true; true], tens_map).
Proof. by vm_compute. Qed.

Ltac concrete_holds :=
  split; simpl; [split_and!; by vm_compute|done
                |by apply (bool_decide_unpack _); vm_compute|done].

Ltac concrete_elems :=
  repeat match goal with
  | H : _ ∈ [] |- _ => by apply elem_of_nil in H
  | H : _ ∈ _ :: _ |- _ => apply elem_of_cons in H as [->|H]
  end.

Ltac concrete_red_black :=
  split;
  [simpl; split_and!; try done; intros x Hx; cbn in Hx; concrete_elems;
   unfold Z_compare, tens_compare; by vm_compute
  |intros [|[|[|i]]] [|[|[|j]]] x y; vm_compute; intros Hx Hy Hij; by simplify_eq
  |done
  |simpl; split_and!; try done; by intros [=]
  |intros x y Hx Hy; cbn in Hx, Hy; concrete_elems; done].

Lemma example_holds : holds example_map [] example_tree.
Proof. concrete_holds. Qed.

Lemma example_red_black : red_black Z_compare Z.eqb example_tree.
Proof. concrete_red_black. Qed.

Lemma example_red_black_map : red_black_map Z_compare Z.eqb example_map example_tree.
Proof. split; [apply example_holds|apply example_red_black|done|done]. Qed.

Lemma tens_holds : holds tens_map [] tens_tree.
Proof. concrete_holds. Qed.

Lemma tens_red_black : red_black tens_compare Z.eqb tens_tree.
Proof. concrete_red_black. Qed.

Lemma tens_red_black_map : red_black_map tens_compare Z.eqb tens_map tens_tree.
Proof. split; [apply tens_holds|apply tens_red_black|done|done]. Qed.

(** * The member functions on the example map *)

Lemma addEntry_distinct_keeps_red_black_witness :
  returns (addEntries Z_compare Z.eqb fresh_address
             (take 2 [(2, 20); (1, 10); (3, 30)])) atMap_new
    (λ bs m,
       bs = replicate 2 true ∧
       ∃ t, holds m [] t ∧ red_black Z_compare Z.eqb t ∧
            entries t ≡ₚ take 2 [(2, 20); (1, 10); (3, 30)] ∧
            treeSize m = Z.of_nat 2).
Proof.
  apply (addEntry_distinct_keeps_red_black Z_compare Z.eqb fresh_address
           Z_compare_antisym Z_compare_trans fresh_address_fresh).
  - intros [|[|[|i]]] [|[|[|j]]] x y; simpl; intros Hx Hy Hij; by simplify_eq.
  - simpl. lia.
  - simpl. lia.
Defined.

Lemma deleteEntry_present_removed_witness :
  red_black_map Z_compare Z.eqb example_map example_tree ∧
  present Z.eqb 1 example_tree ∧
  returns (deleteEntry Z_compare Z.eqb 1) example_map (λ b m',
    b = true ∧ treeSize m' = treeSize example_map - 1 ∧
    (∃ t' e1 e2 k v, red_black_map Z_compare Z.eqb m' t' ∧ (k =? 1) = true ∧
       entries example_tree = e1 ++ (k, v) :: e2 ∧ entries t' = e1 ++ e2) ∧
    getValue Z_compare Z.eqb 1 m' = Some (None, m')).
Proof.
  assert (present Z.eqb 1 example_tree) as Hp.
  { exists 1. split; [|reflexivity]. cbn. apply list_elem_of_here. }
  split; [exact example_red_black_map|]. split; [exact Hp|].
  exact (deleteEntry_present_removed Z_compare Z.eqb Z_compare_antisym
           Z_compare_trans Z_equals_compare example_map example_tree 1
           example_red_black_map Hp).
Defined.

Lemma getValue_present_or_absent_witness :
  getValue Z_compare Z.eqb 3 example_map = Some (Some 30, example_map) ∧
  getValue Z_compare Z.eqb 7 example_map = Some (None, example_map) ∧
  containsKey Z_compare Z.eqb 7 example_map = Some (false, example_map).
Proof.
  destruct (getValue_present_or_absent Z_compare Z.eqb Z_compare_antisym
              Z_compare_trans Z_equals_compare example_map example_tree 3
              example_holds (rb_ordered _ _ _ example_red_black)
              (rb_unique _ _ _ example_red_black)) as [Hpresent _].
  destruct (getValue_present_or_absent Z_compare Z.eqb Z_compare_antisym
              Z_compare_trans Z_equals_compare example_map example_tree 7
              example_holds (rb_ordered _ _ _ example_red_black)
              (rb_unique _ _ _ example_red_black)) as [_ Habsent].
  split.
  - apply (Hpresent 3 30); [|reflexivity]. cbn. do 2 apply list_elem_of_further.
    apply list_elem_of_here.
  - apply Habsent. intros (k & Hk & He). cbn in Hk. concrete_elems; discriminate He.
Defined.

Lemma addEntry_present_refused_witness :
  present Z.eqb 3 example_tree ∧
  addEntry Z_compare Z.eqb fresh_address 3 33 example_map = Some (false, example_map).
Proof.
  assert (present Z.eqb 3 example_tree) as Hp.
  { exists 3. split; [|reflexivity]. cbn. do 2 apply list_elem_of_further.
    apply list_elem_of_here. }
  split; [exact Hp|].
  exact (addEntry_present_refused Z_compare Z.eqb fresh_address Z_compare_antisym
           Z_compare_trans Z_equals_compare example_map example_tree 3 33
           example_holds (rb_ordered _ _ _ example_red_black)
           (rb_unique _ _ _ example_red_black) Hp).
Defined.

Lemma getSortedList_ascending_witness :
  getSortedList (Some []) (Some []) example_map
  = Some ((Some (keys example_tree), Some (values example_tree)), example_map) ∧
  StronglySorted (before Z_compare) (keys example_tree) ∧
  Z.of_nat (length (keys example_tree)) = treeSize example_map ∧
  Z.of_nat (length (values example_tree)) = treeSize example_map.
Proof.
  exact (getSortedList_ascending Z_compare Z.eqb Z_compare_antisym Z_compare_trans
           Z_equals_compare example_map example_tree true true example_red_black_map).
Defined.

Lemma two_children_one_recursive_call_witness :
  ∃ cx2 s sc sk sv sr m4,
    leftmost_tree [] (Node 3 AT_MAP_RED Leaf 3 30 Leaf)
    = (cx2, Node s sc Leaf sk sv sr) ∧
    getInorderSuccessor 4 1 example_map = Some (Some s, example_map) ∧
    holds example_map
      (cx2 ++ [InRight 1 AT_MAP_BLACK (Node 2 AT_MAP_RED Leaf 1 10 Leaf) 2 20])
      (Node s sc Leaf sk sv sr) ∧
    holds m4
      (cx2 ++ [InRight 1 AT_MAP_BLACK (Node 2 AT_MAP_RED Leaf 1 10 Leaf) sk sv])
      (Node s sc Leaf 2 20 sr) ∧
    aside m4 = aside example_map ∧
    (∀ calls, unlinkNode true (S calls) 4 1 example_map = unlinkNode true calls 4 s m4) ∧
    (∀ calls, unlinkNode true (S calls) 4 s m4 = unlinkNode true 1 4 s m4) ∧
    (no_red_red (plug [] example_tree) → black_balanced (plug [] example_tree) →
     ∃ T, unlinkNode_tree [] example_tree = Some T ∧
          returns (unlinkNode true 2 4 1) example_map
            (λ _ m', unlinked true 2 20 example_map T m')).
Proof.
  apply (two_children_one_recursive_call true 4 example_map [] 1 AT_MAP_BLACK
           (Node 2 AT_MAP_RED Leaf 1 10 Leaf) 2 20 (Node 3 AT_MAP_RED Leaf 3 30 Leaf)).
  - exact example_holds.
  - discriminate.
  - discriminate.
  - simpl. lia.
Defined.

Lemma addEntry_never_warns_witness :
  returns (addEntry Z_compare Z.eqb fresh_address 7 70) example_map
    (λ _ m', notices m' = notices example_map) ∧
  (containsKey Z_compare Z.eqb 7 example_map = Some (false, example_map) →
   collisions Z_compare Z.eqb 7 example_tree = []).
Proof.
  exact (addEntry_never_warns Z_compare Z.eqb fresh_address Z_compare_antisym
           fresh_address_fresh Z_equals_compare example_map example_tree 7 70
           example_holds).
Defined.

Lemma changeValue_present_or_absent_witness :
  returns (changeValue Z_compare Z.eqb 3 33) example_map (λ x m',
    x = Some 30 ∧ aside m' = aside example_map ∧
    ∃ cx a c l r, example_tree = plug cx (Node a c l 3 30 r) ∧
                  holds m' [] (plug cx (Node a c l 3 33 r))) ∧
  changeValue Z_compare Z.eqb 7 70 example_map = Some (None, example_map).
Proof.
  destruct (changeValue_present_or_absent Z_compare Z.eqb Z_compare_antisym
              Z_compare_trans Z_equals_compare example_map example_tree 3 33
              example_holds (rb_ordered _ _ _ example_red_black)
              (rb_unique _ _ _ example_red_black)) as [Hpresent _].
  destruct (changeValue_present_or_absent Z_compare Z.eqb Z_compare_antisym
              Z_compare_trans Z_equals_compare example_map example_tree 7 70
              example_holds (rb_ordered _ _ _ example_red_black)
              (rb_unique _ _ _ example_red_black)) as [_ Habsent].
  split.
  - apply (Hpresent 3 30); [|reflexivity]. cbn. do 2 apply list_elem_of_further.
    apply list_elem_of_here.
  - apply Habsent. intros (k & Hk & He). cbn in Hk. concrete_elems; discriminate He.
Defined.

Lemma delete_absent_unchanged_witness :
  deleteEntry Z_compare Z.eqb 7 example_map = Some (false, example_map) ∧
  removeEntry Z_compare Z.eqb same_object 7 example_map = Some (None, example_map).
Proof.
  apply (delete_absent_unchanged Z_compare Z.eqb same_object example_map example_tree 7).
  - exact example_holds.
  - intros (k & Hk & He). cbn in Hk. concrete_elems; discriminate He.
Defined.

Lemma getSortedList_only_appends_witness :
  returns (getSortedList (Some [9]) (Some [90])) example_map (λ out m',
    out = ((λ ks, ks ++ keys example_tree) <$> Some [9],
           (λ vs, vs ++ values example_tree) <$> Some [90]) ∧
    Z.of_nat (length (keys example_tree)) = treeSize example_map ∧
    Z.of_nat (length (values example_tree)) = treeSize example_map ∧
    store m' = store example_map ∧ treeRoot m' = treeRoot example_map ∧
    treeSize m' = treeSize example_map ∧
    destroyed m' = destroyed example_map) ∧
  (treeSize example_map = 0 →
   getSortedList (Some [9]) (Some [90]) example_map
   = Some ((Some [9], Some [90]), example_map)).
Proof.
  apply (getSortedList_only_appends example_map example_tree).
  - exact example_holds.
  - reflexivity.
Defined.

(** * Keys for which [equals] and [compare] disagree

    The keys 20 and 21 are in the same ten: [tens_compare] returns 0 for
    them, [equals] returns false.  [addEntry] puts 21 to the right of 20,
    where [findNode], which goes left when [compare] returns 0, does not
    look for it. *)

Lemma deleteEntry_present_not_found :
  addEntries tens_compare Z.eqb fresh_address [(20, 0); (21, 0)] atMap_new
  = Some ([true; true], tens_map) ∧
  red_black_map tens_compare Z.eqb tens_map tens_tree ∧
  present Z.eqb 21 tens_tree ∧
  deleteEntry tens_compare Z.eqb 21 tens_map = Some (false, tens_map).
Proof.
  split_and!; [exact tens_map_reached|exact tens_red_black_map| |by vm_compute].
  exists 21. split; [|done]. cbn. apply list_elem_of_further, list_elem_of_here.
Qed.

Lemma getValue_present_not_found :
  addEntries tens_compare Z.eqb fresh_address [(20, 0); (21, 0)] atMap_new
  = Some ([true; true], tens_map) ∧
  holds tens_map [] tens_tree ∧
  bst_ordered tens_compare tens_tree ∧ unique_keys Z.eqb tens_tree ∧
  (21, 0) ∈ entries tens_tree ∧
  getValue tens_compare Z.eqb 21 tens_map = Some (None, tens_map).
Proof.
  split_and!; [exact tens_map_reached|exact tens_holds|apply tens_red_black..
              | |by vm_compute].
  cbn. apply list_elem_of_further, list_elem_of_here.
Qed.

Lemma addEntry_present_accepted :
  addEntries tens_compare Z.eqb fresh_address [(20, 0); (21, 0)] atMap_new
  = Some ([true; true], tens_map) ∧
  holds tens_map [] tens_tree ∧
  bst_ordered tens_compare tens_tree ∧ unique_keys Z.eqb tens_tree ∧
  present Z.eqb 21 tens_tree ∧
  ∃ m', addEntry tens_compare Z.eqb fresh_address 21 5 tens_map = Some (true, m') ∧
        treeSize m' = 3 ∧ m' ≠ tens_map.
Proof.
  split_and!; [exact tens_map_reached|exact tens_holds|apply tens_red_black..| |].
  - exists 21. split; [|done]. cbn. apply list_elem_of_further, list_elem_of_here.
  - eexists. split; [by vm_compute|]. split; [done|]. intros [=].
Qed.

Lemma getSortedList_not_ascending :
  addEntries tens_compare Z.eqb fresh_address [(20, 0); (21, 0)] atMap_new
  = Some ([true; true], tens_map) ∧
  red_black_map tens_compare Z.eqb tens_map tens_tree ∧
  getSortedList (Some []) (Some []) tens_map
  = Some ((Some [20; 21], Some [0; 0]), tens_map) ∧
  ¬ StronglySorted (before tens_compare) [20; 21].
Proof.
  split_and!; [exact tens_map_reached|exact tens_red_black_map|by vm_compute|].
  intros [Hlt _]%StronglySorted_cons. apply Forall_cons in Hlt as [Hlt _].
  by vm_compute in Hlt.
Qed.

Lemma changeValue_present_not_found :
  addEntries tens_compare Z.eqb fresh_address [(20, 0); (21, 0)] atMap_new
  = Some ([true; true], tens_map) ∧
  holds tens_map [] tens_tree ∧
  bst_ordered tens_compare tens_tree ∧ unique_keys Z.eqb tens_tree ∧
  (21, 0) ∈ entries tens_tree ∧
  changeValue tens_compare Z.eqb 21 7 tens_map = Some (None, tens_map).
Proof.
  split_and!; [exact tens_map_reached|exact tens_holds|apply tens_red_black..
              | |by vm_compute].
  cbn. apply list_elem_of_further, list_elem_of_here.
Qed.

(** * clear and deleteTree *)

Section Clear.
Context {K V : Type}.
Implicit Types (m : @atMap K V) (t l r : @tree K V) (cx : list (@frame K V)).
Implicit Types (h : gmap positive (@atMapNode K V)).

Lemma tree_in_ext h h' par t :
  (∀ x, x ∈ addrs t → h' !! x = h !! x) → tree_in h par t → tree_in h' par t.
Proof.
  revert par. induction t as [|a c l IHl k v r IHr]; intros par Hx; simpl; [done|].
  intros (Ha & Hl & Hr). split_and!.
  - rewrite Hx; [done|]. simpl. by left.
  - apply IHl; [|done]. intros x Hin. apply Hx. simpl. right. apply elem_of_app. by left.
  - apply IHr; [|done]. intros x Hin. apply Hx. simpl. right. apply elem_of_app. by right.
Qed.

(** [deleteTree] on a subtree: its nodes leave the store, its items are
    destroyed in post-order, nothing else changes. *)
Lemma returns_deleteTree fuel m par t :
  tree_in (store m) par t → NoDup (addrs t) → (height t < fuel)%nat →
  returns (deleteTree fuel (root t)) m (λ _ m',
    (∀ x, store m' !! x = if decide (x ∈ addrs t) then None else store m !! x) ∧
    treeRoot m' = treeRoot m ∧ treeSize m' = treeSize m ∧
    notices m' = notices m ∧
    destroyed m' = reverse (postorder_items t) ++ destroyed m).
Proof.
  revert m par t. induction fuel as [|fuel IH]; intros m par t Ht Hnd Hfuel; [lia|].
  destruct t as [|a c l k v r]; simpl.
  { apply returns_ret. by split_and!. }
  destruct Ht as (Ha & Hl & Hr). simpl in Hnd.
  apply NoDup_cons in Hnd as [Hal Hnd]. apply NoDup_app in Hnd as (Hndl & Hlr & Hndr).
  apply not_elem_of_app in Hal as [Hal Har].
  apply returns_bind. eapply returns_load_raw; [exact Ha|]. simpl.
  eapply returns_seq.
  { apply (IH m (Some a) l); [done|done|simpl in Hfuel; lia]. }
  intros [] m1 (Hs1 & Hr1 & Hz1 & Hn1 & Hd1).
  eapply returns_seq.
  { apply (IH m1 (Some a) r); [|done|simpl in Hfuel; lia].
    eapply tree_in_ext; [|exact Hr]. intros x Hx. rewrite Hs1.
    rewrite decide_False; [done|]. intros Hxl. by apply (Hlr x). }
  intros [] m2 (Hs2 & Hr2 & Hz2 & Hn2 & Hd2).
  apply returns_bind, returns_destroy. apply returns_bind, returns_destroy.
  apply returns_delete_node. simpl. split_and!; try congruence.
  - intros x. destruct (decide (x = a)) as [->|Hxa].
    + rewrite lookup_delete_eq. rewrite decide_True; [done|by left].
    + rewrite lookup_delete_ne by done. rewrite Hs2, Hs1.
      destruct (decide (x ∈ addrs r)) as [Hxr|Hxr].
      { rewrite decide_True; [done|]. right. apply elem_of_app. by right. }
      destruct (decide (x ∈ addrs l)) as [Hxl|Hxl].
      { rewrite decide_True; [done|]. right. apply elem_of_app. by left. }
      rewrite decide_False; [done|].
      intros [?|[?|?]%elem_of_app]%elem_of_cons; done.
  - rewrite Hd2, Hd1, !reverse_app. simpl. by rewrite <- !app_assoc.
Qed.

(** X1: [clear] (and with it the destructor) on a map that holds a tree:
    the root is reset to NULL and the size to 0, every node of the tree
    leaves the store and the rest of the store stays, every key and every
    value of the tree is destroyed exactly once, in post-order, and
    nothing is reported; on a map with no root nothing at all changes,
    the size included. *)
Theorem clear_destroys_all m t :
  holds m [] t →
  returns clear m (λ _ m',
    holds m' [] Leaf ∧
    (t = Leaf → m' = m) ∧
    (t ≠ Leaf → treeSize m' = 0) ∧
    (∀ x, store m' !! x = if decide (x ∈ addrs t) then None else store m !! x) ∧
    notices m' = notices m ∧
    destroyed m' = reverse (postorder_items t) ++ destroyed m).
Proof.
  intros H. apply returns_budgeted.
  apply returns_bind, returns_get_treeRoot.
  pose proof (holds_root _ _ _ H) as Hroot. cbn [plug] in Hroot. rewrite Hroot.
  destruct t as [|a c l k v r].
  { apply returns_ret. by split_and!. }
  cbn [root]. eapply returns_seq.
  { apply (returns_deleteTree (budget m) m None (Node a c l k v r)).
    - by destruct H.
    - destruct H as [_ _ Hnd _]. by rewrite app_nil_r in Hnd.
    - by apply holds_budget. }
  intros [] m1 (Hs1 & Hr1 & Hz1 & Hn1 & Hd1).
  apply returns_bind, returns_put_treeRoot, returns_put_treeSize. simpl.
  split_and!; try done.
  split; simpl; [done|done|constructor|done].
Qed.

End Clear.

(** * Ownership of the items on removal *)

Section Ownership.
Context {K V : Type}.
Variable compare : K → K → Z.
Variable equals : K → K → bool.
Variable different_object : K → K → bool.
Hypothesis compare_antisym : ∀ a b, compare a b < 0 ↔ 0 < compare b a.
Hypothesis compare_trans :
  ∀ a b c, compare a b ≤ 0 → compare b c ≤ 0 → compare a c ≤ 0.
Hypothesis equals_compare : ∀ a b, equals a b = true ↔ compare a b = 0.

Implicit Types (m : @atMap K V) (t : @tree K V) (key k : K) (v value : V).

(** What [findNode] and the unlinking do to a red-black tree that holds
    the key. *)
Lemma deleteEntry_tree_present t key :
  red_black compare equals t → present equals key t →
  ∃ cx a c l k v r T e1 e2,
    locate compare equals key [] t = Some (cx, Node a c l k v r) ∧
    equals k key = true ∧
    deleteEntry_tree compare equals key t = Some T ∧
    red_black compare equals T ∧
    entries t = e1 ++ (k, v) :: e2 ∧ entries T = e1 ++ e2 ∧
    locate compare equals key [] T = None.
Proof.
  intros Hrb (k & Hk & He).
  apply list_elem_of_fmap in Hk as ([k' v] & -> & Hin). simpl in He.
  destruct (locate_stored compare equals compare_antisym compare_trans equals_compare
              key t k' v) as (cx & a & c & l & r & Hloc);
    [by destruct Hrb..|done|done|].
  destruct (deleteEntry_tree_red_black compare equals compare_antisym compare_trans
              key t cx a c l k' v r) as (T & e1 & e2 & HT & HrbT & He1 & He2);
    [done| |done|].
  { apply (unique_keys_compare compare equals equals_compare). by destruct Hrb. }
  exists cx, a, c, l, k', v, r, T, e1, e2. split_and!; [done..|].
  apply (locate_deleted compare equals compare_antisym compare_trans equals_compare
           key t cx a c l k' v r T); [by destruct Hrb|done..].
Qed.

(** [getValue] finds every entry of a red-black tree. *)
Lemma getValue_entry m t key k v :
  holds m [] t → red_black compare equals t →
  (k, v) ∈ entries t → equals k key = true →
  getValue compare equals key m = Some (Some v, m).
Proof.
  intros H Hrb Hin He.
  destruct (locate_stored compare equals compare_antisym compare_trans equals_compare
              key t k v) as (cx & a & c & l & r & Hloc);
    [by destruct Hrb..|done|done|].
  by rewrite (getValue_locate _ _ _ _ _ H), Hloc.
Qed.

(** X2: provided that [equals] agrees with [compare], [deleteEntry] of a
    key present in a red-black map destroys exactly the key and the value
    stored in the entry of that key (the stored key object, not the
    caller's), reports nothing, and every other entry is still found with
    its value by [getValue]. *)
Theorem deleteEntry_destroys_its_entry m t key :
  red_black_map compare equals m t → present equals key t →
  returns (deleteEntry compare equals key) m (λ b m',
    b = true ∧
    ∃ t' e1 e2 k v,
      holds m' [] t' ∧ equals k key = true ∧
      entries t = e1 ++ (k, v) :: e2 ∧ entries t' = e1 ++ e2 ∧
      destroyed m' = inr v :: inl k :: destroyed m ∧
      notices m' = notices m ∧
      ∀ k' v' key', (k', v') ∈ e1 ++ e2 → equals k' key' = true →
        getValue compare equals key' m' = Some (Some v', m')).
Proof.
  intros [H Hrb Hsize Hrange] Hp.
  destruct (deleteEntry_tree_present t key Hrb Hp)
    as (cx & a & c & l & k & v & r & T & e1 & e2 & Hloc & He & HT & HrbT & He1 & He2 & _).
  eapply returns_mono; [by eapply returns_deleteEntry|].
  simpl. intros b m' (-> & HT' & _ & Hn & Hd). split; [done|].
  exists T, e1, e2, k, v. split_and!; [done..|].
  intros k' v' key' Hin He'. apply (getValue_entry m' T key' k' v'); [done..| |done].
  by rewrite He2.
Qed.

(** X3: provided that [equals] agrees with [compare], [removeEntry] of a
    key present in a red-black map returns the value stored with it and
    never destroys that value; it destroys the stored key exactly when it
    is another object than the key passed in; the entry is gone, the
    other entries stay, the size is one less, the five invariants hold
    again, nothing is reported and the key is no longer found. *)
Theorem removeEntry_yields_value m t key :
  red_black_map compare equals m t → present equals key t →
  returns (removeEntry compare equals different_object key) m (λ x m',
    ∃ t' e1 e2 k v,
      x = Some v ∧ red_black_map compare equals m' t' ∧ equals k key = true ∧
      entries t = e1 ++ (k, v) :: e2 ∧ entries t' = e1 ++ e2 ∧
      treeSize m' = treeSize m - 1 ∧
      destroyed m' = (if different_object key k then [inl k] else []) ++ destroyed m ∧
      notices m' = notices m ∧
      getValue compare equals key m' = Some (None, m')).
Proof.
  intros [H Hrb Hsize Hrange] Hp.
  destruct (deleteEntry_tree_present t key Hrb Hp)
    as (cx & a & c & l & k & v & r & T & e1 & e2 & Hloc & He & HT & HrbT & He1 & He2 & HlocT).
  eapply returns_mono; [by eapply returns_removeEntry|].
  simpl. intros x m' (-> & HT' & Hsize' & Hn & Hd).
  assert (treeSize m' = treeSize m - 1) as Hs.
  { rewrite Hsize'. apply u_long_id. rewrite Hsize, He1, length_app in *.
    simpl in *. lia. }
  exists T, e1, e2, k, v. split_and!; [done| |done..|].
  - split; [done..| |lia].
    rewrite Hs, Hsize, He1, He2, !length_app. simpl. lia.
  - by rewrite (getValue_locate _ _ _ _ _ HT'), HlocT.
Qed.

End Ownership.

(** * The lookups agree with each other *)

Section Agree.
Context {K V : Type}.
Variable compare : K → K → Z.
Variable equals : K → K → bool.
Variable different_object : K → K → bool.

Implicit Types (m : @atMap K V) (t : @tree K V) (key k : K) (v value : V).


End Agree.

(** * Round trips *)

Section Content.
Context {K V : Type}.
Implicit Types (t l r : @tree K V) (cx : list (@frame K V)).

(** The colour invariants do not look at the keys and values. *)
Lemma is_red_plug cx t t' : is_red t = is_red t' → is_red (plug cx t) = is_red (plug cx t').
Proof.
  revert t t'. induction cx as [|f cx IH]; intros t t' Ht; [done|].
  simpl. apply IH. by destruct f.
Qed.

Lemma colours_plug_content cx a c l k v r k' v' :
  root_black (plug cx (Node a c l k v r)) →
  no_red_red (plug cx (Node a c l k v r)) →
  black_balanced (plug cx (Node a c l k v r)) →
  root_black (plug cx (Node a c l k' v' r)) ∧
  no_red_red (plug cx (Node a c l k' v' r)) ∧
  black_balanced (plug cx (Node a c l k' v' r)).
Proof.
  intros Hroot Hrr Hbal.
  destruct (fits_focus cx (Node a c l k v r)) as [h Hf]; [by apply fits_whole|].
  apply (fits_content _ _ _ _ _ _ _ _ k' v') in Hf.
  destruct Hf as (Hcx & Hh & Hrr' & Hred).
  destruct (plug_balanced h cx _ Hcx Hh Hrr' Hred) as (h' & Hh' & Hrr'').
  split_and!; [|done|by eapply black_height_balanced].
  unfold root_black in *. rewrite <- Hroot. by apply is_red_plug.
Qed.

Lemma entries_plug_content cx a c l k v r v' :
  ∃ e1 e2,
    entries (plug cx (Node a c l k v r)) = e1 ++ (k, v) :: e2 ∧
    entries (plug cx (Node a c l k v' r)) = e1 ++ (k, v') :: e2.
Proof.
  exists (entries_before cx ++ entries l), (entries r ++ entries_after cx).
  rewrite !entries_plug. simpl. by rewrite <- !app_assoc.
Qed.

(** An entry of a list with unique keys has one place. *)
Lemma unique_split (equals : K → K → bool) (e1 e2 e1' e2' : list (K * V)) k v k' v' :
  pairwise (λ x y, equals x y = false) ((e1 ++ (k, v) :: e2).*1) →
  e1 ++ (k, v) :: e2 = e1' ++ (k', v') :: e2' →
  equals k' k = true →
  e1 = e1' ∧ e2 = e2'.
Proof.
  intros Hp Heq He.
  destruct (decide (length e1 = length e1')) as [Hlen|Hlen].
  - apply app_inj_1 in Heq as [-> Heq]; [|done]. by injection Heq as _ _ ->.
  - exfalso.
    assert ((e1 ++ (k, v) :: e2).*1 !! length e1 = Some k) as Hi.
    { rewrite list_lookup_fmap, lookup_app_r, Nat.sub_diag by lia. done. }
    assert ((e1 ++ (k, v) :: e2).*1 !! length e1' = Some k') as Hj.
    { rewrite Heq, list_lookup_fmap, lookup_app_r, Nat.sub_diag by lia. done. }
    specialize (Hp _ _ _ _ Hj Hi). rewrite Hp in He; [done|]. congruence.
Qed.

End Content.

Section RoundTrips.
Context {K V : Type}.
Variable compare : K → K → Z.
Variable equals : K → K → bool.
Variable new_address : gmap positive (@atMapNode K V) → positive.
Hypothesis compare_antisym : ∀ a b, compare a b < 0 ↔ 0 < compare b a.
Hypothesis compare_trans :
  ∀ a b c, compare a b ≤ 0 → compare b c ≤ 0 → compare a c ≤ 0.
Hypothesis new_address_fresh : ∀ h, h !! new_address h = None.
Hypothesis equals_compare : ∀ a b, equals a b = true ↔ compare a b = 0.

Implicit Types (m : @atMap K V) (t : @tree K V) (key k : K) (v value : V).

Lemma equals_refl k : equals k k = true.
Proof.
  apply equals_compare. pose proof (compare_antisym k k). lia.
Qed.

Lemma red_black_keys t t' :
  keys t' = keys t →
  root_black t' → no_red_red t' → black_balanced t' →
  red_black compare equals t → red_black compare equals t'.
Proof.
  intros Hk Hroot Hrr Hbal Hrb.
  pose proof (red_black_sorted compare equals compare_antisym compare_trans
                equals_compare t Hrb) as Hs.
  destruct Hrb as [_ Huniq _ _ _]. split; [| |done..].
  - apply sorted_bst_ordered; [done..|]. by rewrite Hk.
  - unfold unique_keys in *. by rewrite Hk.
Qed.

(** X5: provided that [equals] agrees with [compare], [changeValue] of a
    key present in a red-black map returns the value stored with it and
    replaces that value in place: [getValue] of the key then returns the
    new value, every other entry is as before, the invariants and the
    size hold as before, and nothing is destroyed or reported. *)
Theorem changeValue_then_getValue m t key k v newValue :
  red_black_map compare equals m t →
  (k, v) ∈ entries t → equals k key = true →
  returns (changeValue compare equals key newValue) m (λ x m',
    x = Some v ∧ aside m' = aside m ∧
    ∃ t' e1 e2,
      red_black_map compare equals m' t' ∧
      entries t = e1 ++ (k, v) :: e2 ∧ entries t' = e1 ++ (k, newValue) :: e2 ∧
      getValue compare equals key m' = Some (Some newValue, m')).
Proof.
  intros [H Hrb Hsize Hrange] Hin He.
  destruct (locate_stored compare equals compare_antisym compare_trans equals_compare
              key t k v) as (cx & a & c & l & r & Hloc);
    [by destruct Hrb..|done|done|].
  pose proof (locate_plug _ _ _ _ _ _ _ Hloc) as Hplug. simpl in Hplug.
  eapply returns_mono; [by eapply returns_changeValue|].
  simpl. intros x m' (-> & Hm' & Ha). split_and!; [done..|].
  destruct (entries_plug_content cx a c l k v r newValue) as (e1 & e2 & He1 & He2).
  rewrite Hplug in He1.
  set (t' := plug cx (Node a c l k newValue r)) in *.
  assert (red_black compare equals t') as Hrb'.
  { destruct (colours_plug_content cx a c l k v r k newValue) as (? & ? & ?);
      [rewrite Hplug; by destruct Hrb..|].
    apply (red_black_keys t); [|done..].
    unfold keys. by rewrite He1, He2, !fmap_app, !fmap_cons. }
  injection Ha as Hs _ _.
  exists t', e1, e2. split_and!; [|done..|].
  - split; [done..| |lia].
    rewrite Hs, Hsize, He1, He2, !length_app. done.
  - apply (getValue_entry compare equals compare_antisym compare_trans equals_compare
             m' t' key k newValue); [done..| |done].
    rewrite He2. apply elem_of_app. right. by left.
Qed.

(** [addEntry] of a key that is not there. *)
Lemma returns_addEntry_absent m t key value :
  red_black_map compare equals m t →
  ¬ present equals key t →
  treeSize m + 1 < 2 ^ 64 →
  returns (addEntry compare equals new_address key value) m (λ b m',
    b = true ∧ treeSize m' = treeSize m + 1 ∧
    notices m' = notices m ∧ destroyed m' = destroyed m ∧
    ∃ t' e1 e2,
      red_black_map compare equals m' t' ∧
      entries t = e1 ++ e2 ∧ entries t' = e1 ++ (key, value) :: e2 ∧
      getValue compare equals key m' = Some (Some value, m') ∧
      ∀ k' v' key', (k', v') ∈ entries t → equals k' key' = true →
        getValue compare equals key' m' = Some (Some v', m')).
Proof.
  intros [H Hrb Hsize Hrange] Hp Hbound.
  pose proof (locate_not_present compare equals key t Hp) as Hloc.
  assert (∀ x, x ∈ keys t →
    compare key x ≠ 0 ∧ equals key x = false ∧ equals x key = false) as Hfresh.
  { intros x Hx.
    assert (equals x key = false) as Hxk.
    { destruct (equals x key) eqn:E; [|done]. destruct Hp. by exists x. }
    pose proof (equals_false_sym compare equals compare_antisym equals_compare _ _ Hxk).
    split_and!; [|done..]. rewrite <- equals_compare. congruence. }
  eapply returns_mono; [by apply (returns_addEntry _ _ _ new_address_fresh m t)|].
  simpl. intros b m' (-> & Hm' & Hsize' & Hd & Hn).
  set (t' := addEntry_tree compare (new_address (store m)) key value t) in *.
  destruct (entries_addEntry_tree compare (new_address (store m)) key value t)
    as (e1 & e2 & He1 & He2). fold t' in He2.
  assert (red_black compare equals t') as Hrb'.
  { apply addEntry_tree_red_black; [done..| |done].
    apply (unique_keys_compare compare equals equals_compare). by destruct Hrb. }
  assert (treeSize m' = treeSize m + 1) as Hs.
  { rewrite Hsize'. apply u_long_id. lia. }
  split_and!; [done|done| |done|].
  { rewrite Hn.
    by rewrite (collisions_absent compare equals compare_antisym equals_compare key [] t). }
  exists t', e1, e2. split_and!; [|done..| |].
  - split; [done..| |lia].
    rewrite Hs, Hsize, He1, He2, !length_app. simpl. lia.
  - apply (getValue_entry compare equals compare_antisym compare_trans equals_compare
             m' t' key key value); [done..| |apply equals_refl].
    rewrite He2. apply elem_of_app. right. by left.
  - intros k' v' key' Hin He'.
    apply (getValue_entry compare equals compare_antisym compare_trans equals_compare
             m' t' key' k' v'); [done..| |done].
    rewrite He1 in Hin. rewrite He2. apply elem_of_app in Hin as [?|?].
    + apply elem_of_app. by left.
    + apply elem_of_app. right. by right.
Qed.

(** X6: provided that [equals] agrees with [compare], [addEntry] of a key
    that is not present in a red-black map (of fewer than 2^64 - 1
    entries) returns true and adds the entry: [getValue] of the key then
    returns the value, every entry that was there is still found with its
    value, the five invariants hold, the size is one more and nothing is
    destroyed or reported. *)
Theorem addEntry_then_getValue m t key value :
  red_black_map compare equals m t →
  ¬ present equals key t →
  treeSize m + 1 < 2 ^ 64 →
  returns (addEntry compare equals new_address key value) m (λ b m',
    b = true ∧ treeSize m' = treeSize m + 1 ∧
    notices m' = notices m ∧ destroyed m' = destroyed m ∧
    ∃ t' e1 e2,
      red_black_map compare equals m' t' ∧
      entries t = e1 ++ e2 ∧ entries t' = e1 ++ (key, value) :: e2 ∧
      getValue compare equals key m' = Some (Some value, m') ∧
      ∀ k' v' key', (k', v') ∈ entries t → equals k' key' = true →
        getValue compare equals key' m' = Some (Some v', m')).
Proof. apply returns_addEntry_absent. Qed.

(** X7: provided that [equals] agrees with [compare], [addEntry] of a key
    that is not present followed by [deleteEntry] of that key gives back
    a red-black map with the entries, in order, and the size it had; the
    key and the value that were added are destroyed. *)
Theorem addEntry_then_deleteEntry m t key value :
  red_black_map compare equals m t →
  ¬ present equals key t →
  treeSize m + 1 < 2 ^ 64 →
  returns (addEntry compare equals new_address key value;;
           deleteEntry compare equals key) m (λ b m',
    b = true ∧ treeSize m' = treeSize m ∧
    destroyed m' = inr value :: inl key :: destroyed m ∧
    notices m' = notices m ∧
    ∃ t', red_black_map compare equals m' t' ∧ entries t' = entries t).
Proof.
  intros Hm Hp Hbound.
  eapply returns_seq; [by apply returns_addEntry_absent|].
  simpl. intros b m1 (-> & Hs1 & Hn1 & Hd1 & t1 & e1 & e2 & Hm1 & He1 & He2 & _).
  assert (present equals key t1) as Hp1.
  { exists key. split; [|apply equals_refl].
    apply list_elem_of_fmap. exists (key, value). split; [done|].
    rewrite He2. apply elem_of_app. right. by left. }
  destruct Hm1 as [H1 Hrb1 Hsize1 Hrange1].
  destruct (deleteEntry_tree_present compare equals compare_antisym compare_trans
              equals_compare t1 key Hrb1 Hp1)
    as (cx & a & c & l & k & v & r & T & e1' & e2' & Hloc & He & HT & HrbT & He1' & He2' & _).
  destruct (unique_split equals e1 e2 e1' e2' key value k v) as [<- <-].
  { rewrite <- He2. by destruct Hrb1. }
  { by rewrite <- He2. }
  { done. }
  assert ((k, v) = (key, value)) as [= -> ->].
  { rewrite He2 in He1'. by apply app_inv_head in He1' as [= <- <-]. }
  eapply returns_mono; [by eapply returns_deleteEntry|].
  simpl. intros b m2 (-> & H2 & Hs2 & Hn2 & Hd2).
  assert (treeSize m2 = treeSize m) as Hs.
  { rewrite Hs2, Hs1. replace (treeSize m + 1 - 1) with (treeSize m) by lia.
    destruct Hm as [_ _ Hsize _]. apply u_long_id. lia. }
  split_and!; [done|done|congruence|congruence|].
  exists T. split; [|congruence].
  destruct Hm as [_ _ Hsize Hrange].
  split; [done..| |lia]. rewrite Hs, Hsize. congruence.
Qed.

End RoundTrips.

(** * The height of a red-black tree *)

Section Height.
Context {K V : Type}.
Implicit Types (t l r : @tree K V).

Lemma black_height_size h t :
  black_height h t → (2 ^ h ≤ length (entries t) + 1)%nat.
Proof.
  revert h. induction t as [|a c l IHl k v r IHr]; intros h Hh; simpl in *.
  { subst. simpl. lia. }
  rewrite length_app. simpl. destruct c.
  - destruct h as [|h']; [done|]. destruct Hh as [Hl Hr].
    specialize (IHl _ Hl). specialize (IHr _ Hr). rewrite Nat.pow_succ_r'. lia.
  - destruct Hh as [Hl Hr]. specialize (IHl _ Hl). lia.
Qed.

Lemma black_height_height h t :
  black_height h t → no_red_red t →
  (height t ≤ 2 * h + (if is_red t then 1 else 0))%nat.
Proof.
  revert h. induction t as [|a c l IHl k v r IHr]; intros h Hh Hrr; simpl in *.
  { lia. }
  destruct Hrr as (Hc & Hrl & Hrrr). destruct c.
  - destruct h as [|h']; [done|]. destruct Hh as [Hl Hr].
    specialize (IHl _ Hl Hrl). specialize (IHr _ Hr Hrrr).
    destruct (is_red l), (is_red r); lia.
  - destruct Hh as [Hl Hr]. destruct (Hc eq_refl) as [Hnl Hnr].
    specialize (IHl _ Hl Hrl). specialize (IHr _ Hr Hrrr).
    rewrite Hnl in IHl. rewrite Hnr in IHr. lia.
Qed.

Lemma red_black_height t :
  root_black t → no_red_red t → black_balanced t →
  (height t ≤ 2 * Nat.log2 (length (entries t) + 1))%nat.
Proof.
  intros Hroot Hrr [h Hh]%black_balanced_height.
  pose proof (black_height_size h t Hh) as Hsize.
  pose proof (black_height_height h t Hh Hrr) as Hheight.
  unfold root_black in Hroot. rewrite Hroot in Hheight.
  apply Nat.log2_le_pow2 in Hsize; lia.
Qed.

End Height.

Section Logarithmic.
Context {K V : Type}.
Variable compare : K → K → Z.
Variable equals : K → K → bool.
Implicit Types (m : @atMap K V) (t : @tree K V) (key k : K) (v value : V).

(** X9: in a map that satisfies the colour invariants (black root, no
    red node with a red parent, equal black-heights) and whose size is
    its number of nodes, no path from the root is longer than
    2 * log2 (size + 1) nodes, and [findNode] from the root returns its
    result within that many nested calls (one more for the empty
    position), for every key and every kind of key. *)
Theorem findNode_logarithmic m t key :
  holds m [] t → root_black t → no_red_red t → black_balanced t →
  treeSize m = Z.of_nat (length (entries t)) →
  (height t ≤ 2 * Nat.log2 (Z.to_nat (treeSize m) + 1))%nat ∧
  ∃ found,
    findNode compare equals (S (2 * Nat.log2 (Z.to_nat (treeSize m) + 1)))
      (treeRoot m) key m = Some (found, m) ∧
    findNode compare equals (budget m) (treeRoot m) key m = Some (found, m).
Proof.
  intros H Hroot Hrr Hbal Hsize.
  assert (height t ≤ 2 * Nat.log2 (Z.to_nat (treeSize m) + 1))%nat as Hh.
  { rewrite Hsize, Nat2Z.id. by apply red_black_height. }
  split; [done|].
  exists (found (locate compare equals key [] t)).
  pose proof (holds_root _ _ _ H) as Hr. cbn [plug] in Hr. rewrite Hr. split.
  - apply findNode_locate; [done|lia].
  - apply findNode_locate; [done|]. by apply holds_budget.
Qed.

End Logarithmic.

(** * getSortedList and getValue *)

Section Pairs.
Context {K V : Type}.
Variable compare : K → K → Z.
Variable equals : K → K → bool.
Hypothesis compare_antisym : ∀ a b, compare a b < 0 ↔ 0 < compare b a.
Hypothesis compare_trans :
  ∀ a b c, compare a b ≤ 0 → compare b c ≤ 0 → compare a c ≤ 0.
Hypothesis equals_compare : ∀ a b, equals a b = true ↔ compare a b = 0.
Implicit Types (m : @atMap K V) (t : @tree K V) (key k : K) (v value : V).

(** X8: provided that [equals] agrees with [compare], the two lists that
    [getSortedList] fills from a red-black map correspond element by
    element: the value at an index is the value that [getValue] returns
    for the key at that index, and the pairs are the entries of the map,
    in order. *)
Theorem getSortedList_pairs m t :
  red_black_map compare equals m t →
  getSortedList (Some []) (Some []) m
  = Some ((Some (keys t), Some (values t)), m) ∧
  zip (keys t) (values t) = entries t ∧
  ∀ i k v, keys t !! i = Some k → values t !! i = Some v →
    getValue compare equals k m = Some (Some v, m).
Proof.
  intros [H Hrb Hsize Hrange]. split_and!.
  - destruct (getSortedList_appends m t (Some []) (Some []) H Hsize)
      as (out & m' & Hrun & -> & _ & _ & _ & _ & Hm').
    rewrite Hrun, Hm'; [done|done|by intros ? [= <-]|by intros ? [= <-]].
  - apply zip_fst_snd.
  - intros i k v Hk Hv. unfold keys in Hk. unfold values in Hv.
    rewrite list_lookup_fmap in Hk. rewrite list_lookup_fmap in Hv.
    destruct (entries t !! i) as [[k' v']|] eqn:Hi; [|done].
    simpl in *. simplify_eq.
    apply (getValue_entry compare equals compare_antisym compare_trans equals_compare
             m t k k v); [done..| |].
    + by eapply list_elem_of_lookup_2.
    + by apply (equals_refl compare equals compare_antisym equals_compare).
Qed.

End Pairs.

(** * Rotations, successor and rebalancing on their own *)

Section Private.
Context {K V : Type}.
Implicit Types (m : @atMap K V) (t l r : @tree K V) (cx : list (@frame K V)).

(** X10: [rotateLeft] at a node with a right child makes that child the
    root of the subtree, keeps the entries of the whole tree in the same
    order, keeps size, notices and destroyed items, and [rotateRight] at
    the new root of the subtree gives the tree back; at a node with no
    right child it reports the error and changes nothing else. *)
Theorem rotateLeft_keeps_order m cx a ca l k v b cb bl kb vb br :
  holds m cx (Node a ca l k v (Node b cb bl kb vb br)) →
  entries (plug cx (Node b cb (Node a ca l k v bl) kb vb br))
  = entries (plug cx (Node a ca l k v (Node b cb bl kb vb br))) ∧
  returns (rotateLeft a) m (λ _ m',
    holds m' cx (Node b cb (Node a ca l k v bl) kb vb br) ∧
    aside m' = aside m ∧
    returns (rotateRight b) m' (λ _ m'',
      holds m'' cx (Node a ca l k v (Node b cb bl kb vb br)) ∧
      aside m'' = aside m)) ∧
  (∀ (m0 : @atMap K V) n, store m0 !! a = Some n → rightChild n = None →
     rotateLeft a m0
     = Some (tt, AtMap (store m0) (treeRoot m0) (treeSize m0)
                   (ErrRotateLeft :: notices m0) (destroyed m0))).
Proof.
  intros H. split_and!.
  - entries_solve.
  - eapply returns_rotateLeft; [exact H|]. intros m' H' Ha'. split_and!; [done..|].
    eapply returns_rotateRight; [exact H'|]. intros m'' H'' Ha''.
    split; [done|congruence].
  - intros m0 n Hn Hr. unfold rotateLeft, mbind, M_bind, load. by rewrite Hn, Hr.
Qed.

(** X11: [rotateRight] at a node with a left child makes that child the
    root of the subtree, keeps the entries of the whole tree in the same
    order, keeps size, notices and destroyed items, and [rotateLeft] at
    the new root of the subtree gives the tree back; at a node with no
    left child it reports the error and changes nothing else. *)
Theorem rotateRight_keeps_order m cx a ca r k v b cb bl kb vb br :
  holds m cx (Node a ca (Node b cb bl kb vb br) k v r) →
  entries (plug cx (Node b cb bl kb vb (Node a ca br k v r)))
  = entries (plug cx (Node a ca (Node b cb bl kb vb br) k v r)) ∧
  returns (rotateRight a) m (λ _ m',
    holds m' cx (Node b cb bl kb vb (Node a ca br k v r)) ∧
    aside m' = aside m ∧
    returns (rotateLeft b) m' (λ _ m'',
      holds m'' cx (Node a ca (Node b cb bl kb vb br) k v r) ∧
      aside m'' = aside m)) ∧
  (∀ (m0 : @atMap K V) n, store m0 !! a = Some n → leftChild n = None →
     rotateRight a m0
     = Some (tt, AtMap (store m0) (treeRoot m0) (treeSize m0)
                   (ErrRotateRight :: notices m0) (destroyed m0))).
Proof.
  intros H. split_and!.
  - entries_solve.
  - eapply returns_rotateRight; [exact H|]. intros m' H' Ha'. split_and!; [done..|].
    eapply returns_rotateLeft; [exact H'|]. intros m'' H'' Ha''.
    split; [done|congruence].
  - intros m0 n Hn Hr. unfold rotateRight, mbind, M_bind, load. by rewrite Hn, Hr.
Qed.

(** X12: [getInorderSuccessor] of a node of the tree returns NULL when
    the node has no right child; otherwise it returns a node without
    left child whose entry comes right after the entry of the node in
    the in-order sequence of the subtree (the next-higher key); the map is
    left as it is. *)
Theorem getInorderSuccessor_is_next fuel m cx a c l k v r :
  holds m cx (Node a c l k v r) → (height r ≤ fuel)%nat →
  (r = Leaf → getInorderSuccessor fuel a m = Some (None, m)) ∧
  (r ≠ Leaf →
   ∃ s n rest,
     getInorderSuccessor fuel a m = Some (Some s, m) ∧
     store m !! s = Some n ∧ leftChild n = None ∧
     entries (Node a c l k v r)
     = entries l ++ (k, v) :: (nodeKey n, nodeValue n) :: rest).
Proof.
  intros H Hfuel. split.
  - intros ->. unfold getInorderSuccessor, mbind, M_bind.
    by rewrite (load_focus _ _ _ _ _ _ _ _ H).
  - intros Hr. destruct r as [|ra rc rl rk rv rr]; [done|].
    destruct (leftmost_tree_shape [] ra rc rl rk rv rr)
      as (cx2 & s & sc & sk & sv & sr & Heq & Hlen).
    set (r := Node ra rc rl rk rv rr) in *.
    assert (r = plug cx2 (Node s sc Leaf sk sv sr)) as Hplug.
    { pose proof (leftmost_tree_plug [] r) as Hp. by rewrite Heq in Hp. }
    assert (holds m (cx2 ++ InRight a c l k v :: cx) (Node s sc Leaf sk sv sr)) as Hs.
    { apply holds_app. rewrite <- Hplug. by apply holds_down_r. }
    destruct (leftmost_tree_entries _ _ _ _ _ _ _ Heq) as [_ Hent].
    eexists s, _, _. split_and!.
    + unfold getInorderSuccessor, mbind, M_bind.
      rewrite (load_focus _ _ _ _ _ _ _ _ H). cbn [rightChild root r].
      rewrite (leftmost_focus fuel m (InRight a c l k v :: cx) r
                 (cx2 ++ InRight a c l k v :: cx) s sc sk sv sr ra); [done| |done| |done].
      * by apply holds_down_r.
      * by rewrite leftmost_tree_app, Heq.
    + exact (holds_lookup _ _ _ _ _ _ _ _ Hs).
    + done.
    + change (entries (Node a c l k v r)) with (entries l ++ (k, v) :: entries r).
      by rewrite Hent.
Qed.

(** X13: [rebalanceInsert] at a node that stands, with its black-height,
    in a context whose siblings have that black-height and which has no
    red-red pair of its own gives a tree with equal black-heights and no
    red node with a red parent below the root; the entries are in the
    same order, and size, notices and destroyed items are as before. *)
Theorem rebalanceInsert_restores fuel m h cx n c nl nk nv nr :
  holds m cx (Node n c nl nk nv nr) →
  ctx_balanced h cx → black_height h (Node n c nl nk nv nr) →
  no_red_red (Node n c nl nk nv nr) →
  (length cx < fuel)%nat →
  returns (rebalanceInsert fuel n) m (λ _ m',
    ∃ T h',
      holds m' [] T ∧
      entries T = entries (plug cx (Node n c nl nk nv nr)) ∧
      black_height h' T ∧ no_red_red_below T ∧
      aside m' = aside m).
Proof.
  intros H Hcx Hh Hrr Hfuel.
  eapply returns_mono; [by apply (returns_rebalanceInsert fuel m cx n c nl nk nv nr)|].
  simpl. intros [] m' [H' Ha'].
  destruct (rebalanceInsert_tree_balanced h cx (Node n c nl nk nv nr))
    as (h' & Hh' & Hbelow); [done..|].
  eexists _, h'. split_and!; [done| |done..].
  apply entries_rebalanceInsert_tree.
Qed.

(** X14: [rebalanceDelete] at a position whose subtree is one black node
    short of its siblings gives back a tree with equal black-heights and
    no red node with a red parent below the root; the entries are in the
    same order, and size, notices and destroyed items are as before. *)
Theorem rebalanceDelete_restores fuel m h cx t :
  holds m cx t →
  ctx_balanced (S h) cx → black_height h t → no_red_red_below t →
  (length cx < fuel)%nat →
  returns (rebalanceDelete fuel (ctx_addr cx) (child_type cx)) m (λ _ m',
    ∃ T h',
      holds m' [] T ∧ entries T = entries (plug cx t) ∧
      black_height h' T ∧ no_red_red_below T ∧
      aside m' = aside m).
Proof.
  intros H Hcx Hh Hrr Hfuel.
  destruct (rebalanceDelete_tree_balanced h cx t Hcx Hh Hrr)
    as (T & HT & h' & Hh' & Hbelow).
  eapply returns_mono; [by apply (returns_rebalanceDelete fuel m cx t T)|].
  simpl. intros [] m' [H' Ha'].
  exists T, h'. split_and!; [done| |done..].
  by apply entries_rebalanceDelete_tree.
Qed.

End Private.

(** * Every kind of key: balance and order without [equals] *)

Section AnyKeys.
Context {K V : Type}.
Variable compare : K → K → Z.
Variable equals : K → K → bool.
Variable new_address : gmap positive (@atMapNode K V) → positive.
Hypothesis compare_antisym : ∀ a b, compare a b < 0 ↔ 0 < compare b a.
Hypothesis compare_trans :
  ∀ a b c, compare a b ≤ 0 → compare b c ≤ 0 → compare a c ≤ 0.
Hypothesis new_address_fresh : ∀ h, h !! new_address h = None.

Implicit Types (m : @atMap K V) (t l r n : @tree K V) (key k : K) (v value : V).

#[local] Abbreviation balanced_map := (balanced_map (V:=V) compare).

Lemma collisions_only key t :
  ∃ j : nat, collisions compare equals key t = replicate j WarnKeyCollision.
Proof.
  induction t as [|a c l IHl k v r IHr]; simpl; [by exists O|].
  destruct (_ <? _); [done|]. destruct IHr as [j ->].
  destruct (equals key k).
  - exists (S j). by rewrite <- replicate_cons_app.
  - exists j. by rewrite app_nil_r.
Qed.

Lemma keys_attach_ascending key n t :
  keys n = [key] →
  StronglySorted (not_after compare) (keys t) →
  StronglySorted (not_after compare) (keys (attach compare key n t)).
Proof.
  intros Hn. induction t as [|a c l IHl k v r IHr]; simpl.
  { intros _. rewrite Hn. repeat constructor. }
  rewrite keys_Node. intros H.
  apply StronglySorted_app in H as (Hlr & Hl & Hr).
  apply StronglySorted_cons in Hr as [Hk Hr]. rewrite Forall_forall in Hk.
  assert (∀ t' x, x ∈ keys (attach compare key n t') → x = key ∨ x ∈ keys t') as Hin.
  { intros t' x. unfold keys. destruct (entries_attach compare key n t') as (e1 & e2 & -> & ->).
    fold (keys n). rewrite !fmap_app. fold (keys n). rewrite Hn.
    rewrite !elem_of_app, list_elem_of_singleton. tauto. }
  destruct (Z.ltb_spec (compare key k) 0) as [Hlt|Hge]; rewrite keys_Node.
  - apply StronglySorted_app. split_and!; [|by apply IHl|by apply StronglySorted_cons, conj; [apply Forall_forall|]].
    intros x y Hx Hy. apply Hin in Hx as [->|Hx]; [|by apply Hlr].
    apply elem_of_cons in Hy as [->|Hy]; unfold not_after in *; [lia|].
    specialize (Hk y Hy). apply (compare_trans key k y); [lia|done].
  - assert (compare k key ≤ 0) as Hkk.
    { pose proof (compare_antisym k key). pose proof (compare_antisym key k). lia. }
    apply StronglySorted_app. split_and!; [|done|].
    + intros x y Hx Hy. apply elem_of_cons in Hy as [->|Hy]; [apply Hlr; [done|by left]|].
      apply Hin in Hy as [->|Hy].
      * unfold not_after in *. apply (compare_trans x k key); [|done].
        apply Hlr; [done|by left].
      * apply Hlr; [done|by right].
    + apply StronglySorted_cons. split; [|by apply IHr].
      apply Forall_forall. intros y Hy. apply Hin in Hy as [->|Hy]; [done|by apply Hk].
Qed.

(** [addEntry] on a balanced map, whatever [equals] is. *)
Lemma returns_addEntry_balanced m t key value :
  balanced_map m t → treeSize m + 1 < 2 ^ 64 →
  returns (addEntry compare equals new_address key value) m (λ b m',
    destroyed m' = destroyed m ∧
    (∃ j : nat, notices m' = replicate j WarnKeyCollision ++ notices m) ∧
    if b then
      ∃ t' e1 e2, balanced_map m' t' ∧ treeSize m' = treeSize m + 1 ∧
        entries t = e1 ++ e2 ∧ entries t' = e1 ++ (key, value) :: e2
    else m' = m).
Proof.
  intros [H Hroot Hrr Hbal Hasc Hsize Hrange] Hbound.
  destruct (locate compare equals key [] t) as [[cx n]|] eqn:Hloc.
  { exists false, m. split; [|split_and!; [done|by exists O|done]].
    apply (addEntry_present _ _ _ _ t); [done|]. by rewrite Hloc. }
  eapply returns_mono; [by apply (returns_addEntry _ _ _ new_address_fresh m t)|].
  simpl. intros b m' (-> & Hm' & Hsize' & Hd & Hn).
  set (t' := addEntry_tree compare (new_address (store m)) key value t) in *.
  destruct (entries_addEntry_tree compare (new_address (store m)) key value t)
    as (e1 & e2 & He1 & He2). fold t' in He2.
  destruct (addEntry_tree_colours compare (new_address (store m)) key value t)
    as (? & ? & ?); [done..|].
  assert (treeSize m' = treeSize m + 1) as Hs.
  { rewrite Hsize'. apply u_long_id. lia. }
  split_and!; [done| |].
  { destruct (collisions_only key t) as [j Hc]. exists j. by rewrite Hn, Hc. }
  exists t', e1, e2. split_and!; [|done..].
  split; [done..| | |lia].
  - assert (keys t'
            = keys (attach compare key (Node (new_address (store m)) AT_MAP_RED Leaf key value Leaf) t))
      as ->.
    { unfold keys, t', addEntry_tree.
      by rewrite entries_paint_tree, entries_rebalanceInsert_tree, plug_place. }
    by apply keys_attach_ascending.
  - rewrite Hs, Hsize, He1, He2, !length_app. simpl. lia.
Qed.

(** [deleteEntry] on a balanced map, whatever [equals] is. *)
Lemma returns_deleteEntry_balanced m t key :
  balanced_map m t →
  returns (deleteEntry compare equals key) m (λ b m',
    notices m' = notices m ∧
    if b then
      ∃ t' e1 e2 k v, balanced_map m' t' ∧ treeSize m' = treeSize m - 1 ∧
        equals k key = true ∧
        entries t = e1 ++ (k, v) :: e2 ∧ entries t' = e1 ++ e2 ∧
        destroyed m' = inr v :: inl k :: destroyed m
    else m' = m).
Proof.
  intros [H Hroot Hrr Hbal Hasc Hsize Hrange].
  destruct (locate compare equals key [] t) as [[cx n]|] eqn:Hloc.
  2:{ exists false, m. split; [|done]. by apply (deleteEntry_absent _ _ _ t). }
  pose proof (locate_Node _ _ _ _ _ _ _ Hloc) as Hn.
  destruct n as [|a c l k v r]; [done|].
  pose proof (locate_equals _ _ _ _ _ _ _ _ _ _ _ _ Hloc) as He.
  destruct (deleteEntry_tree_colours compare equals key t cx a c l k v r)
    as (T & HT & ? & ? & ?); [done..|].
  destruct (entries_deleteEntry_tree compare equals key t cx a c l k v r T)
    as (e1 & e2 & He1 & He2); [done..|].
  eapply returns_mono; [by eapply returns_deleteEntry|].
  simpl. intros b m' (-> & HT' & Hsize' & Hn' & Hd'). split; [done|].
  assert (treeSize m' = treeSize m - 1) as Hs.
  { rewrite Hsize'. apply u_long_id. rewrite Hsize, He1, length_app in *.
    simpl in *. lia. }
  exists T, e1, e2, k, v. split_and!; [|done..].
  split; [done..| | |lia].
  - unfold keys in *. rewrite He2, fmap_app. rewrite He1, fmap_app, fmap_cons in Hasc.
    by eapply StronglySorted_middle.
  - rewrite Hs, Hsize, He1, He2, !length_app. simpl. lia.
Qed.

(** X15: for every kind of key whose [compare] is a three-way comparison
    (whether or not [equals] agrees with it), [addEntry] on a map that
    satisfies the colour invariants with keys that never descend either
    returns false and changes nothing, or returns true and adds the
    entry at a place that keeps the keys from descending, the colour
    invariants holding again and the size being one more; it destroys
    nothing and reports nothing but key-collision warnings. *)
Theorem addEntry_keeps_balance m t key value :
  balanced_map m t → treeSize m + 1 < 2 ^ 64 →
  returns (addEntry compare equals new_address key value) m (λ b m',
    destroyed m' = destroyed m ∧
    (∃ j : nat, notices m' = replicate j WarnKeyCollision ++ notices m) ∧
    if b then
      ∃ t' e1 e2, balanced_map m' t' ∧ treeSize m' = treeSize m + 1 ∧
        entries t = e1 ++ e2 ∧ entries t' = e1 ++ (key, value) :: e2
    else m' = m).
Proof. apply returns_addEntry_balanced. Qed.

(** X16: for every kind of key, [deleteEntry] on a map that satisfies
    the colour invariants with keys that never descend either returns
    false and changes nothing, or returns true, removes one entry whose
    key [equals] the given key and destroys the key and the value of
    that entry, the other entries staying in order, the colour
    invariants holding again and the size being one less; it reports
    nothing. *)
Theorem deleteEntry_keeps_balance m t key :
  balanced_map m t →
  returns (deleteEntry compare equals key) m (λ b m',
    notices m' = notices m ∧
    if b then
      ∃ t' e1 e2 k v, balanced_map m' t' ∧ treeSize m' = treeSize m - 1 ∧
        equals k key = true ∧
        entries t = e1 ++ (k, v) :: e2 ∧ entries t' = e1 ++ e2 ∧
        destroyed m' = inr v :: inl k :: destroyed m
    else m' = m).
Proof. apply returns_deleteEntry_balanced. Qed.

Lemma balanced_map_new : balanced_map atMap_new Leaf.
Proof.
  split; try done.
  - split; simpl; [done|done|constructor|done].
  - intros x y ->%list_elem_of_singleton ->%list_elem_of_singleton. done.
  - constructor.
Qed.

Lemma returns_run_calls cs m t :
  balanced_map m t → treeSize m + Z.of_nat (length cs) < 2 ^ 64 →
  returns (run_calls compare equals new_address cs) m (λ bs m',
    length bs = length cs ∧
    (∃ j : nat, notices m' = replicate j WarnKeyCollision ++ notices m) ∧
    ∃ t', balanced_map m' t' ∧ treeSize m' ≤ treeSize m + Z.of_nat (length cs)).
Proof.
  revert m t. induction cs as [|c cs IH]; intros m t Hm Hbound.
  { apply returns_ret. split_and!; [done|by exists O|]. exists t. split; [done|simpl; lia]. }
  cbn [run_calls]. simpl in Hbound.
  assert (0 ≤ treeSize m) as Hpos by (destruct Hm as [_ _ _ _ _ -> _]; lia).
  eapply returns_seq with (P := λ _ m1,
    (∃ j : nat, notices m1 = replicate j WarnKeyCollision ++ notices m) ∧
    ∃ t1, balanced_map m1 t1 ∧ treeSize m1 ≤ treeSize m + 1).
  { destruct c as [key value|key].
    - eapply returns_mono; [apply (returns_addEntry_balanced m t key value Hm); lia|].
      simpl. intros [] m1 (_ & Hn & Hb).
      + destruct Hb as (t1 & _ & _ & Hm1 & Hs & _). split; [done|]. exists t1. split; [done|lia].
      + subst m1. split; [done|]. exists t. split; [done|lia].
    - eapply returns_mono; [apply (returns_deleteEntry_balanced m t key Hm)|].
      simpl. intros [] m1 (Hn & Hb).
      + destruct Hb as (t1 & _ & _ & _ & _ & Hm1 & Hs & _).
        split; [exists O; by rewrite Hn|]. exists t1. split; [done|lia].
      + subst m1. split; [by exists O|]. exists t. split; [done|lia]. }
  intros b m1 ([j1 Hn1] & t1 & Hm1 & Hs1).
  eapply returns_seq; [apply (IH m1 t1 Hm1); lia|].
  simpl. intros bs m2 (Hlen & [j2 Hn2] & t2 & Hm2 & Hs2).
  apply returns_ret. split_and!.
  - simpl. by rewrite Hlen.
  - exists (j2 + j1)%nat. by rewrite Hn2, Hn1, replicate_add, <- app_assoc.
  - exists t2. split; [done|]. lia.
Qed.

(** X17: for every kind of key whose [compare] is a three-way comparison
    (whether or not [equals] agrees with it), any run of [addEntry] and
    [deleteEntry] calls from the empty map (fewer than 2^64 of them)
    returns and leaves a map that satisfies the colour invariants, with
    the size equal to the number of nodes; the only notices are
    key-collision warnings, and [getSortedList] then yields keys that
    never descend under [compare], with as many keys and values as the
    size. *)
Theorem calls_keep_balance cs :
  Z.of_nat (length cs) < 2 ^ 64 →
  returns (run_calls compare equals new_address cs) atMap_new (λ bs m,
    length bs = length cs ∧
    (∃ j : nat, notices m = replicate j WarnKeyCollision) ∧
    ∃ t, balanced_map m t ∧
      getSortedList (Some []) (Some []) m
      = Some ((Some (keys t), Some (values t)), m) ∧
      StronglySorted (not_after compare) (keys t) ∧
      Z.of_nat (length (keys t)) = treeSize m ∧
      Z.of_nat (length (values t)) = treeSize m).
Proof.
  intros Hlen.
  eapply returns_mono; [by apply (returns_run_calls cs atMap_new Leaf balanced_map_new)|].
  simpl. intros bs m (Hbs & [j Hn] & t & Hm & _).
  split_and!; [done|exists j; by rewrite Hn, app_nil_r|].
  exists t. split; [done|]. destruct Hm as [H _ _ _ Hasc Hsize Hrange].
  split_and!; [|done|by rewrite length_keys|by rewrite length_values].
  destruct (getSortedList_appends m t (Some []) (Some []) H Hsize)
    as (out & m' & Hrun & -> & _ & _ & _ & _ & Hm').
  rewrite Hrun, Hm'; [done|done|by intros ? [= <-]|by intros ? [= <-]].
Qed.

End AnyKeys.

(** * The length check of getSortedList *)

Section LengthCheck.
Context {K V : Type}.
Implicit Types (m : @atMap K V) (t : @tree K V).

(** X18: the check that ends [getSortedList] compares the length of the
    key list (of the value list when no key list is given) with the size
    of the map: on a non-empty map whose size is its number of nodes,
    the lists are filled all the same, and the inconsistency error is
    reported exactly when the list that is checked was not empty when
    passed in; with no list at all nothing is reported. *)
Theorem getSortedList_length_check m t (kl : option (list K)) (vl : option (list V)) :
  holds m [] t →
  treeSize m = Z.of_nat (length (entries t)) → 0 < treeSize m →
  let given := match kl, vl with
               | Some ks, _ => length ks
               | None, Some vs => length vs
               | None, None => O
               end in
  Z.of_nat given + treeSize m < 2 ^ 64 →
  returns (getSortedList kl vl) m (λ out m',
    out = ((λ ks, ks ++ keys t) <$> kl, (λ vs, vs ++ values t) <$> vl) ∧
    notices m' =
      (if decide (given = O) then []
       else [ErrGetSortedList (Z.of_nat given + treeSize m) (treeSize m)])
      ++ notices m).
Proof.
  intros H Hsize Hpos given Hbound.
  apply returns_budgeted. apply returns_bind, returns_get_treeSize.
  rewrite decide_False by lia.
  pose proof (holds_root _ _ _ H) as Hroot. cbn [plug] in Hroot.
  apply returns_bind, returns_get_treeRoot. rewrite Hroot.
  apply returns_bind. eexists _, m. split.
  { eapply fillLists_entries; [exact H|]. by apply holds_budget. }
  cbv beta iota.
  assert (∀ n : nat, n = given →
            u_long (Z.of_nat (n + length (entries t))) = Z.of_nat given + treeSize m) as Hu.
  { intros n ->. rewrite Nat2Z.inj_add, <- Hsize. apply u_long_id. lia. }
  destruct kl as [ks|]; simpl.
  - rewrite length_app, length_keys, (Hu (length ks) eq_refl).
    destruct (decide (_ ≠ _)) as [Hne|Heq].
    + apply returns_bind. eexists tt, _. split; [done|]. apply returns_ret.
      split; [done|]. simpl. rewrite decide_False; [done|]. subst given. simpl in *. lia.
    + apply returns_bind, returns_ret, returns_ret. split; [done|].
      rewrite decide_True; [done|]. subst given. simpl in *. lia.
  - destruct vl as [vs|]; simpl.
    + rewrite length_app, length_values, (Hu (length vs) eq_refl).
      destruct (decide (_ ≠ _)) as [Hne|Heq].
      * apply returns_bind. eexists tt, _. split; [done|]. apply returns_ret.
        split; [done|]. simpl. rewrite decide_False; [done|]. subst given. simpl in *. lia.
      * apply returns_bind, returns_ret, returns_ret. split; [done|].
        rewrite decide_True; [done|]. subst given. simpl in *. lia.
    + apply returns_bind, returns_ret, returns_ret. by split.
Qed.

End LengthCheck.

(** * The further theorems on the example maps *)

Lemma example_entry_3 : (3, 30) ∈ entries example_tree.
Proof. cbn. do 2 apply list_elem_of_further. apply list_elem_of_here. Qed.

Lemma example_present_1 : present Z.eqb 1 example_tree.
Proof. exists 1. split; [|reflexivity]. cbn. apply list_elem_of_here. Qed.

Lemma example_absent_7 : ¬ present Z.eqb 7 example_tree.
Proof. intros (k & Hk & He). cbn in Hk. concrete_elems; discriminate He. Qed.

Lemma tens_balanced_map : balanced_map tens_compare tens_map tens_tree.
Proof.
  split; [apply tens_holds|apply tens_red_black..| |done|done].
  cbn. repeat constructor. by vm_compute.
Qed.

Lemma short_holds :
  holds short_map [InLeft 1 AT_MAP_BLACK 2 20 short_sibling] Leaf.
Proof.
  split; simpl; [done|split_and!; by vm_compute
                |by apply (bool_decide_unpack _); vm_compute|done].
Qed.

Lemma clear_destroys_all_witness :
  returns clear example_map (λ _ m',
    holds m' [] Leaf ∧
    (example_tree = Leaf → m' = example_map) ∧
    (example_tree ≠ Leaf → treeSize m' = 0) ∧
    (∀ x, store m' !! x
          = if decide (x ∈ addrs example_tree) then None else store example_map !! x) ∧
    notices m' = notices example_map ∧
    destroyed m' = reverse (postorder_items example_tree) ++ destroyed example_map).
Proof. exact (clear_destroys_all example_map example_tree example_holds). Defined.

Lemma deleteEntry_destroys_its_entry_witness :
  returns (deleteEntry Z_compare Z.eqb 1) example_map (λ b m',
    b = true ∧
    ∃ t' e1 e2 k v,
      holds m' [] t' ∧ (k =? 1) = true ∧
      entries example_tree = e1 ++ (k, v) :: e2 ∧ entries t' = e1 ++ e2 ∧
      destroyed m' = inr v :: inl k :: destroyed example_map ∧
      notices m' = notices example_map ∧
      ∀ k' v' key', (k', v') ∈ e1 ++ e2 → (k' =? key') = true →
        getValue Z_compare Z.eqb key' m' = Some (Some v', m')).
Proof.
  exact (deleteEntry_destroys_its_entry Z_compare Z.eqb Z_compare_antisym
           Z_compare_trans Z_equals_compare example_map example_tree 1
           example_red_black_map example_present_1).
Defined.

Lemma removeEntry_yields_value_witness :
  returns (removeEntry Z_compare Z.eqb same_object 1) example_map (λ x m',
    ∃ t' e1 e2 k v,
      x = Some v ∧ red_black_map Z_compare Z.eqb m' t' ∧ (k =? 1) = true ∧
      entries example_tree = e1 ++ (k, v) :: e2 ∧ entries t' = e1 ++ e2 ∧
      treeSize m' = treeSize example_map - 1 ∧
      destroyed m' = (if same_object 1 k then [inl k] else []) ++ destroyed example_map ∧
      notices m' = notices example_map ∧
      getValue Z_compare Z.eqb 1 m' = Some (None, m')).
Proof.
  exact (removeEntry_yields_value Z_compare Z.eqb same_object Z_compare_antisym
           Z_compare_trans Z_equals_compare example_map example_tree 1
           example_red_black_map example_present_1).
Defined.


Lemma changeValue_then_getValue_witness :
  returns (changeValue Z_compare Z.eqb 3 33) example_map (λ x m',
    x = Some 30 ∧ aside m' = aside example_map ∧
    ∃ t' e1 e2,
      red_black_map Z_compare Z.eqb m' t' ∧
      entries example_tree = e1 ++ (3, 30) :: e2 ∧ entries t' = e1 ++ (3, 33) :: e2 ∧
      getValue Z_compare Z.eqb 3 m' = Some (Some 33, m')).
Proof.
  exact (changeValue_then_getValue Z_compare Z.eqb Z_compare_antisym Z_compare_trans
           Z_equals_compare example_map example_tree 3 3 30 33
           example_red_black_map example_entry_3 eq_refl).
Defined.

Lemma addEntry_then_getValue_witness :
  returns (addEntry Z_compare Z.eqb fresh_address 7 70) example_map (λ b m',
    b = true ∧ treeSize m' = treeSize example_map + 1 ∧
    notices m' = notices example_map ∧ destroyed m' = destroyed example_map ∧
    ∃ t' e1 e2,
      red_black_map Z_compare Z.eqb m' t' ∧
      entries example_tree = e1 ++ e2 ∧ entries t' = e1 ++ (7, 70) :: e2 ∧
      getValue Z_compare Z.eqb 7 m' = Some (Some 70, m') ∧
      ∀ k' v' key', (k', v') ∈ entries example_tree → (k' =? key') = true →
        getValue Z_compare Z.eqb key' m' = Some (Some v', m')).
Proof.
  apply (addEntry_then_getValue Z_compare Z.eqb fresh_address Z_compare_antisym
           Z_compare_trans fresh_address_fresh Z_equals_compare example_map example_tree
           7 70 example_red_black_map example_absent_7).
  reflexivity.
Defined.

Lemma addEntry_then_deleteEntry_witness :
  returns (addEntry Z_compare Z.eqb fresh_address 7 70;;
           deleteEntry Z_compare Z.eqb 7) example_map (λ b m',
    b = true ∧ treeSize m' = treeSize example_map ∧
    destroyed m' = inr 70 :: inl 7 :: destroyed example_map ∧
    notices m' = notices example_map ∧
    ∃ t', red_black_map Z_compare Z.eqb m' t' ∧ entries t' = entries example_tree).
Proof.
  apply (addEntry_then_deleteEntry Z_compare Z.eqb fresh_address Z_compare_antisym
           Z_compare_trans fresh_address_fresh Z_equals_compare example_map example_tree
           7 70 example_red_black_map example_absent_7).
  reflexivity.
Defined.

Lemma getSortedList_pairs_witness :
  getSortedList (Some []) (Some []) example_map
  = Some ((Some (keys example_tree), Some (values example_tree)), example_map) ∧
  zip (keys example_tree) (values example_tree) = entries example_tree ∧
  ∀ i k v, keys example_tree !! i = Some k → values example_tree !! i = Some v →
    getValue Z_compare Z.eqb k example_map = Some (Some v, example_map).
Proof.
  exact (getSortedList_pairs Z_compare Z.eqb Z_compare_antisym Z_compare_trans
           Z_equals_compare example_map example_tree example_red_black_map).
Defined.

Lemma findNode_logarithmic_witness :
  (height example_tree ≤ 2 * Nat.log2 (Z.to_nat (treeSize example_map) + 1))%nat ∧
  ∃ found,
    findNode Z_compare Z.eqb (S (2 * Nat.log2 (Z.to_nat (treeSize example_map) + 1)))
      (treeRoot example_map) 3 example_map = Some (found, example_map) ∧
    findNode Z_compare Z.eqb (budget example_map) (treeRoot example_map) 3 example_map
    = Some (found, example_map).
Proof.
  apply (findNode_logarithmic Z_compare Z.eqb example_map example_tree 3 example_holds).
  - exact (rb_root _ _ _ example_red_black).
  - exact (rb_no_red_red _ _ _ example_red_black).
  - exact (rb_balanced _ _ _ example_red_black).
  - reflexivity.
Defined.

Lemma rotateLeft_keeps_order_witness :
  entries (plug [] (Node 3 AT_MAP_RED
                      (Node 1 AT_MAP_BLACK (Node 2 AT_MAP_RED Leaf 1 10 Leaf) 2 20 Leaf)
                      3 30 Leaf))
  = entries (plug [] example_tree) ∧
  returns (rotateLeft 1) example_map (λ _ m',
    holds m' [] (Node 3 AT_MAP_RED
                   (Node 1 AT_MAP_BLACK (Node 2 AT_MAP_RED Leaf 1 10 Leaf) 2 20 Leaf)
                   3 30 Leaf) ∧
    aside m' = aside example_map ∧
    returns (rotateRight 3) m' (λ _ m'',
      holds m'' [] example_tree ∧ aside m'' = aside example_map)) ∧
  (∀ (m0 : @atMap Z Z) n, store m0 !! 1%positive = Some n → rightChild n = None →
     rotateLeft 1 m0
     = Some (tt, AtMap (store m0) (treeRoot m0) (treeSize m0)
                   (ErrRotateLeft :: notices m0) (destroyed m0))).
Proof.
  exact (rotateLeft_keeps_order example_map [] 1 AT_MAP_BLACK
           (Node 2 AT_MAP_RED Leaf 1 10 Leaf) 2 20 3 AT_MAP_RED Leaf 3 30 Leaf
           example_holds).
Defined.

Lemma rotateRight_keeps_order_witness :
  entries (plug [] (Node 2 AT_MAP_RED Leaf 1 10
                      (Node 1 AT_MAP_BLACK Leaf 2 20 (Node 3 AT_MAP_RED Leaf 3 30 Leaf))))
  = entries (plug [] example_tree) ∧
  returns (rotateRight 1) example_map (λ _ m',
    holds m' [] (Node 2 AT_MAP_RED Leaf 1 10
                   (Node 1 AT_MAP_BLACK Leaf 2 20 (Node 3 AT_MAP_RED Leaf 3 30 Leaf))) ∧
    aside m' = aside example_map ∧
    returns (rotateLeft 2) m' (λ _ m'',
      holds m'' [] example_tree ∧ aside m'' = aside example_map)) ∧
  (∀ (m0 : @atMap Z Z) n, store m0 !! 1%positive = Some n → leftChild n = None →
     rotateRight 1 m0
     = Some (tt, AtMap (store m0) (treeRoot m0) (treeSize m0)
                   (ErrRotateRight :: notices m0) (destroyed m0))).
Proof.
  exact (rotateRight_keeps_order example_map [] 1 AT_MAP_BLACK
           (Node 3 AT_MAP_RED Leaf 3 30 Leaf) 2 20 2 AT_MAP_RED Leaf 1 10 Leaf
           example_holds).
Defined.

Lemma getInorderSuccessor_is_next_witness :
  (Node 3 AT_MAP_RED Leaf 3 30 Leaf = Leaf →
   getInorderSuccessor 4 1 example_map = Some (None, example_map)) ∧
  (Node 3 AT_MAP_RED Leaf 3 30 Leaf ≠ Leaf →
   ∃ s n rest,
     getInorderSuccessor 4 1 example_map = Some (Some s, example_map) ∧
     store example_map !! s = Some n ∧ leftChild n = None ∧
     entries example_tree
     = entries (Node 2 AT_MAP_RED Leaf 1 10 Leaf)
       ++ (2, 20) :: (nodeKey n, nodeValue n) :: rest).
Proof.
  apply (getInorderSuccessor_is_next 4 example_map [] 1 AT_MAP_BLACK
           (Node 2 AT_MAP_RED Leaf 1 10 Leaf) 2 20 (Node 3 AT_MAP_RED Leaf 3 30 Leaf)
           example_holds).
  simpl. lia.
Defined.

Lemma rebalanceInsert_restores_witness :
  returns (rebalanceInsert 2 3) example_map (λ _ m',
    ∃ T h',
      holds m' [] T ∧
      entries T = entries (plug [InRight 1 AT_MAP_BLACK (Node 2 AT_MAP_RED Leaf 1 10 Leaf) 2 20]
                             (Node 3 AT_MAP_RED Leaf 3 30 Leaf)) ∧
      black_height h' T ∧ no_red_red_below T ∧
      aside m' = aside example_map).
Proof.
  apply (rebalanceInsert_restores 2 example_map 0
           [InRight 1 AT_MAP_BLACK (Node 2 AT_MAP_RED Leaf 1 10 Leaf) 2 20]
           3 AT_MAP_RED Leaf 3 30 Leaf).
  - apply (holds_down_r example_map [] 1 AT_MAP_BLACK), example_holds.
  - simpl. split_and!; done.
  - simpl. done.
  - simpl. split_and!; done.
  - simpl. lia.
Defined.

Lemma rebalanceDelete_restores_witness :
  returns (rebalanceDelete 2 (Some 1%positive) AT_MAP_LEFTCHILD) short_map (λ _ m',
    ∃ T h',
      holds m' [] T ∧
      entries T = entries (plug [InLeft 1 AT_MAP_BLACK 2 20 short_sibling] Leaf) ∧
      black_height h' T ∧ no_red_red_below T ∧
      aside m' = aside short_map).
Proof.
  apply (rebalanceDelete_restores 2 short_map 0
           [InLeft 1 AT_MAP_BLACK 2 20 short_sibling] Leaf).
  - exact short_holds.
  - simpl. split_and!; done.
  - simpl. done.
  - simpl. done.
  - simpl. lia.
Defined.

Lemma addEntry_keeps_balance_witness :
  returns (addEntry tens_compare Z.eqb fresh_address 21 5) tens_map (λ b m',
    destroyed m' = destroyed tens_map ∧
    (∃ j : nat, notices m' = replicate j WarnKeyCollision ++ notices tens_map) ∧
    if b then
      ∃ t' e1 e2, balanced_map tens_compare m' t' ∧ treeSize m' = treeSize tens_map + 1 ∧
        entries tens_tree = e1 ++ e2 ∧ entries t' = e1 ++ (21, 5) :: e2
    else m' = tens_map).
Proof.
  apply (addEntry_keeps_balance tens_compare Z.eqb fresh_address tens_compare_antisym
           tens_compare_trans fresh_address_fresh tens_map tens_tree 21 5
           tens_balanced_map).
  reflexivity.
Defined.

Lemma deleteEntry_keeps_balance_witness :
  returns (deleteEntry tens_compare Z.eqb 20) tens_map (λ b m',
    notices m' = notices tens_map ∧
    if b then
      ∃ t' e1 e2 k v, balanced_map tens_compare m' t' ∧
        treeSize m' = treeSize tens_map - 1 ∧ (k =? 20) = true ∧
        entries tens_tree = e1 ++ (k, v) :: e2 ∧ entries t' = e1 ++ e2 ∧
        destroyed m' = inr v :: inl k :: destroyed tens_map
    else m' = tens_map).
Proof.
  exact (deleteEntry_keeps_balance tens_compare Z.eqb tens_map tens_tree 20
           tens_balanced_map).
Defined.

Lemma calls_keep_balance_witness :
  returns (run_calls tens_compare Z.eqb fresh_address
             [CallAddEntry 20 0; CallAddEntry 21 0; CallAddEntry 21 5; CallDeleteEntry 20])
    atMap_new (λ bs m,
    length bs = 4%nat ∧
    (∃ j : nat, notices m = replicate j WarnKeyCollision) ∧
    ∃ t, balanced_map tens_compare m t ∧
      getSortedList (Some []) (Some []) m
      = Some ((Some (keys t), Some (values t)), m) ∧
      StronglySorted (not_after tens_compare) (keys t) ∧
      Z.of_nat (length (keys t)) = treeSize m ∧
      Z.of_nat (length (values t)) = treeSize m).
Proof.
  apply (calls_keep_balance tens_compare Z.eqb fresh_address tens_compare_antisym
           tens_compare_trans fresh_address_fresh
           [CallAddEntry 20 0; CallAddEntry 21 0; CallAddEntry 21 5; CallDeleteEntry 20]).
  reflexivity.
Defined.

Lemma getSortedList_length_check_witness :
  returns (getSortedList (Some [9]) None) example_map (λ out m',
    out = ((λ ks, ks ++ keys example_tree) <$> Some [9],
           (λ vs, vs ++ values example_tree) <$> None) ∧
    notices m' =
      (if decide (1%nat = O) then []
       else [ErrGetSortedList (Z.of_nat 1 + treeSize example_map) (treeSize example_map)])
      ++ notices example_map).
Proof.
  apply (getSortedList_length_check example_map example_tree (Some [9]) None
           example_holds); reflexivity.
Defined.

(** * What a lookup returns is in the map *)

Section Sound.
Context {K V : Type}.
Variable compare : K → K → Z.
Variable equals : K → K → bool.
Implicit Types (m : @atMap K V) (t : @tree K V) (key k : K) (v value : V).

(** X19: on every map and for every kind of key, a value that [getValue]
    returns is the value of an entry of the map whose key [equals] the
    given key, and [containsKey] returns true only for a key that is
    present: a lookup may miss a key, it never finds a wrong one. *)
Theorem getValue_sound m t key :
  holds m [] t →
  (∀ v, getValue compare equals key m = Some (Some v, m) →
        ∃ k, (k, v) ∈ entries t ∧ equals k key = true) ∧
  (containsKey compare equals key m = Some (true, m) → present equals key t).
Proof.
  intros H.
  assert (∀ cx a c l k v r,
            locate compare equals key [] t = Some (cx, Node a c l k v r) →
            (k, v) ∈ entries t ∧ equals k key = true) as Hfound.
  { intros cx a c l k v r Hloc. split; [|by eapply locate_equals].
    rewrite (locate_entries compare equals key t cx a c l k v r Hloc).
    apply elem_of_app. right. by left. }
  split.
  - intros v. rewrite (getValue_locate _ _ _ _ _ H). intros [= Hv].
    destruct (locate compare equals key [] t) as [[cx [|a c l k v' r]]|] eqn:Hloc;
      [done| |done].
    simpl in Hv. injection Hv as ->. exists k. by eapply Hfound.
  - rewrite (containsKey_locate _ _ _ _ _ H). intros [= Hb].
    destruct (locate compare equals key [] t) as [[cx [|a c l k v r]]|] eqn:Hloc;
      [done| |done].
    destruct (Hfound _ _ _ _ _ _ _ eq_refl) as [Hin He].
    exists k. split; [|done]. apply list_elem_of_fmap. by exists (k, v).
Qed.

End Sound.

Lemma getValue_sound_witness :
  (∀ v, getValue tens_compare Z.eqb 20 tens_map = Some (Some v, tens_map) →
        ∃ k, (k, v) ∈ entries tens_tree ∧ (k =? 20) = true) ∧
  (containsKey tens_compare Z.eqb 20 tens_map = Some (true, tens_map) →
   present Z.eqb 20 tens_tree).
Proof. exact (getValue_sound tens_compare Z.eqb tens_map tens_tree 20 tens_holds). Defined.
